(** * Kabob Store backend (backend/main.py): a shallow embedding

    The development follows the layout of [backend/main.py]:

    - Python values: [str] is a Rocq [string] (a sequence of code points
      below 256), [float] and [Decimal] are exact rationals [Q], [int] is
      [Z], [None]-able values are [option]s, exceptions are values of [exn].
    - Pure helpers and validators ([sanitize_string], [validate_items],
      [validate_price]) are plain functions.
    - The request middleware [validate_request] is a function of the
      request and of the downstream handler.
    - Everything that talks to boto3 or psycopg2 is written in a state and
      exception monad [M] over an abstract driver; every driver call is
      recorded, with its reply, in a trace. *)

From Stdlib Require Import ZArith QArith Qround String Ascii List Lia.
From stdpp Require Import gmap strings list pretty.

Open Scope Z_scope.

Set Warnings "-clear-no-such-hyp".


(** ** Python strings *)

Module PyStr.

Definition chars (s : string) : list ascii := list_ascii_of_string s.
Definition of_chars (l : list ascii) : string := string_of_list_ascii l.

Definition code (c : ascii) : Z := Z.of_N (N_of_ascii c).

Definition null : ascii := ascii_of_N 0.

(** [str.isspace] on the code points below 256. *)
Definition isspace (c : ascii) : bool :=
  let n := code c in
  ((9 <=? n) && (n <=? 13)) || ((28 <=? n) && (n <=? 32))
  || (n =? 133) || (n =? 160).

Fixpoint dropwhile {A} (p : A → bool) (l : list A) : list A :=
  match l with
  | [] => []
  | x :: l' => if p x then dropwhile p l' else l
  end.

Definition lstrip (l : list ascii) : list ascii := dropwhile isspace l.
Definition rstrip (l : list ascii) : list ascii := rev (dropwhile isspace (rev l)).

(** [value.strip()] *)
Definition strip (l : list ascii) : list ascii := rstrip (lstrip l).

(** [value.replace('\x00', '')] *)
Definition replace_null (l : list ascii) : list ascii :=
  filter (λ c, c ≠ null) l.

(** [value[:n]], with Python's reading of a negative bound. *)
Definition slice_to (n : Z) (l : list ascii) : list ascii :=
  if 0 <=? n then take (Z.to_nat n) l
  else take (Z.to_nat (Z.of_nat (length l) + n)) l.

(** [c.lower()] on the code points below 256: A-Z, and the upper-case
    letters of Latin-1 (0xC0-0xDE except the multiplication sign). *)
Definition lower_char (c : ascii) : ascii :=
  let n := code c in
  if ((65 <=? n) && (n <=? 90))
     || ((192 <=? n) && (n <=? 222) && negb (n =? 215))
  then ascii_of_N (Z.to_N (n + 32)) else c.

Definition lower (l : list ascii) : list ascii := map lower_char l.

Fixpoint is_prefix (p l : list ascii) : bool :=
  match p, l with
  | [], _ => true
  | _ :: _, [] => false
  | a :: p', b :: l' => if decide (a = b) then is_prefix p' l' else false
  end.

(** [p in l] *)
Fixpoint contains (p l : list ascii) : bool :=
  is_prefix p l ||
  match l with
  | [] => false
  | _ :: l' => contains p l'
  end.

End PyStr.

(** ** Exceptions and results *)

Inductive exn : Type :=
| ValueError (msg : string)
| TypeError (msg : string)
| KeyError (key : string)
| PyException (msg : string)
| DriverError (msg : string)
| HTTPException (status_code : Z) (detail : string).

Inductive result (A : Type) : Type :=
| Ok (a : A)
| Raise (e : exn).
Arguments Ok {A} a.
Arguments Raise {A} e.

(** ** [sanitize_string] *)

Definition sanitize_string (value : string) (max_length : Z) : string :=
  if decide (value = ""%string) then ""%string
  else
    let value := PyStr.replace_null (PyStr.chars value) in
    let value := PyStr.slice_to max_length value in
    let value := PyStr.strip value in
    PyStr.of_chars value.

(** ** Request and response models (pydantic) *)

Record OrderItemCreate : Type := {
  item_id : string;        (* id: str, "Menu item ID" *)
  item_name : string;      (* name: str *)
  item_price : Q;          (* price: float *)
  item_quantity : Z;       (* quantity: int *)
}.

(** [OrderCreate] has exactly three fields; there is no total. *)
Record OrderCreate : Type := {
  customer_name : string;
  customer_email : string;
  items : list OrderItemCreate;
}.

Definition duplicate_items_msg : string :=
  "Duplicate items in order. Please adjust quantities instead.".

(** [OrderCreate.validate_items]: [len(item_ids) != len(set(item_ids))]. *)
Definition validate_items (v : list OrderItemCreate)
  : result (list OrderItemCreate) :=
  let item_ids := map item_id v in
  if decide (length item_ids ≠ size (list_to_set item_ids : gset string))
  then Raise (ValueError duplicate_items_msg)
  else Ok v.

(** Whether the text of an exception mentions duplication. *)
Definition mentions_duplication (e : exn) : bool :=
  match e with
  | ValueError msg =>
      PyStr.contains (PyStr.lower (PyStr.chars "duplicate"))
                     (PyStr.lower (PyStr.chars msg))
  | _ => false
  end.

(** ** [MenuItemCreate.validate_price] *)

(** Round to the nearest integer, ties to the even one. *)
Definition round_half_even (x : Q) : Z :=
  let f := Qfloor x in
  match (x - inject_Z f ?= 1 # 2)%Q with
  | Lt => f
  | Gt => f + 1
  | Eq => if Z.even f then f else f + 1
  end.

(** [round(v, 2)]: the multiple of 1/100 nearest to [v]. *)
Definition py_round2 (v : Q) : Q :=
  (inject_Z (round_half_even (v * 100)) / 100)%Q.

Definition validate_price (v : Q) : result Q :=
  if Qle_bool v 0 then Raise (ValueError "Price must be positive")
  else if negb (Qle_bool v 10000)
       then Raise (ValueError "Price exceeds maximum allowed value")
       else Ok (py_round2 v).

(** ** The request middleware [validate_request] *)

Record Request : Type := {
  url : string;                       (* str(request.url) *)
  content_length : option string;     (* request.headers.get('content-length') *)
}.

(** What the middleware answers: a [JSONResponse] of its own, or what the
    rest of the application answered through [call_next]. *)
Inductive Response (A : Type) : Type :=
| JSONResponse (status_code : Z) (detail : string)
| Downstream (a : A).
Arguments JSONResponse {A} status_code detail.
Arguments Downstream {A} a.

Definition suspicious_patterns : list string :=
  [ "../"; "..\";
    "<script"; "<%";
    "DROP TABLE"; "DELETE FROM";
    String PyStr.null EmptyString;
    "cmd="; "exec(" ]%string.

Definition is_digit (c : ascii) : bool :=
  (48 <=? PyStr.code c) && (PyStr.code c <=? 57).

(** Decimal digits with single underscores between digits. *)
Fixpoint int_digits (acc : Z) (after_digit : bool) (l : list ascii) : option Z :=
  match l with
  | [] => if after_digit then Some acc else None
  | c :: l' =>
      if is_digit c then int_digits (acc * 10 + (PyStr.code c - 48)) true l'
      else if decide (c = "_"%char)
           then (if after_digit then int_digits acc false l' else None)
           else None
  end.

(** [int(s)] for a string: [None] stands for [ValueError]. *)
Definition py_int (s : string) : option Z :=
  match PyStr.strip (PyStr.chars s) with
  | c :: l =>
      if decide (c = "-"%char) then Z.opp <$> int_digits 0 false l
      else if decide (c = "+"%char) then int_digits 0 false l
      else int_digits 0 false (c :: l)
  | [] => None
  end.

Definition max_request_size : Z := 1048576.

Definition validate_request {A} (request : Request) (call_next : Request → A)
  : Response A :=
  let path := url request in
  if existsb (λ pattern,
        PyStr.contains (PyStr.lower (PyStr.chars pattern))
                       (PyStr.lower (PyStr.chars path)))
       suspicious_patterns
  then JSONResponse 400 "Invalid request"
  else
    match content_length request with
    | Some cl =>
        if decide (cl = ""%string) then Downstream (call_next request)
        else match py_int cl with
             | Some size =>
                 if max_request_size <? size
                 then JSONResponse 413 "Request body too large"
                 else Downstream (call_next request)
             | None => Downstream (call_next request)
             end
    | None => Downstream (call_next request)
    end.

(** The URL contains one of the signatures, case-insensitively. *)
Definition url_has_signature (u : string) : Prop :=
  ∃ pattern pre post,
    pattern ∈ suspicious_patterns ∧
    PyStr.lower (PyStr.chars u)
    = pre ++ PyStr.lower (PyStr.chars pattern) ++ post.

(** The declared content length is an integer above the limit. *)
Definition declares_oversize (request : Request) : Prop :=
  ∃ cl size, content_length request = Some cl ∧ py_int cl = Some size
             ∧ 1048576 < size.

(** ** Rows and statements *)

(** A menu item, as a row of [menu_items] and as the dict built from it.
    [str(row['id'])], [float(row['price'])] and [.isoformat()] change the
    Python type, not the value modelled here. *)
Module MenuItem.
Record t : Type := {
  id : string;
  name : string;
  description : string;
  price : Q;
  category : string;
  image_url : option string;
  available : bool;
  created_at : option Z;
}.
End MenuItem.

(** The dict stored for an order line: [{'id', 'name', 'price', 'quantity'}]. *)
Module ItemDict.
Record t : Type := {
  id : string;
  name : string;
  price : Q;
  quantity : Z;
}.
End ItemDict.

(** An order, as a row of [orders] and as the dict [order_data]. The
    [items] column holds [json.dumps(items)]; the encoding is not modelled
    and the text is represented by the list it encodes. *)
Module Order.
Record t : Type := {
  id : string;
  customer_name : string;
  customer_email : string;
  items : list ItemDict.t;
  total_amount : Q;
  status : string;
  created_at : option Z;
}.
End Order.

(** A [RealDictRow], by the query that produced it. *)
Inductive row : Type :=
| CountRow (count : Z)
| MenuItemRow (r : MenuItem.t)
| OrderRow (r : Order.t).

(** The SQL statements of the module, with their parameters. *)
Inductive stmt : Type :=
| CreateTableMenuItems            (* CREATE TABLE IF NOT EXISTS menu_items *)
| CreateTableOrders               (* CREATE TABLE IF NOT EXISTS orders *)
| DeleteMenuItems                 (* DELETE FROM menu_items *)
| InsertMenuItem (id name description : string) (price : Q)
                 (category image_url : string) (available : bool)
| SelectAvailableMenuItems        (* ... WHERE available ORDER BY category, name *)
| CountMenuItems                  (* SELECT COUNT( * ) FROM menu_items *)
| CountOrders                     (* SELECT COUNT( * ) FROM orders *)
| InsertOrder (id customer_name customer_email : string)
              (items : list ItemDict.t) (total_amount : Q) (status : string)
| SelectOrderById (id : string)   (* ... FROM orders WHERE id = %s::UUID *)
| SelectLatestOrder               (* ... ORDER BY created_at DESC LIMIT 1 *)
| SelectAllOrders                 (* ... ORDER BY created_at DESC *)
| DeleteOrders.                   (* DELETE FROM orders *)

(** Schema-change statements. *)
Definition is_ddl (q : stmt) : bool :=
  match q with
  | CreateTableMenuItems | CreateTableOrders => true
  | _ => false
  end.

(** Inserts and deletes on [menu_items]. *)
Definition is_menu_dml (q : stmt) : bool :=
  match q with
  | DeleteMenuItems | InsertMenuItem _ _ _ _ _ _ _ => true
  | _ => false
  end.

(** ** The driver: boto3, psycopg2, the clock and [uuid] *)

Definition conn : Type := nat.

Record cursor : Type := {
  cursor_connection : conn;
  cursor_serial : nat;
}.

(** [psycopg2.extensions.TRANSACTION_STATUS_*] *)
Definition TRANSACTION_STATUS_IDLE : Z := 0.
Definition TRANSACTION_STATUS_INTRANS : Z := 2.
Definition TRANSACTION_STATUS_INERROR : Z := 3.

(** The calls that leave the process, and what came back. *)
Inductive call : Type :=
| GenerateToken                   (* generate_db_connect_admin_auth_token *)
| Connect (password : string)     (* psycopg2.connect(..., sslmode="require") *)
| ConnClose (c : conn)
| GetTransactionStatus (c : conn)
| Rollback (c : conn)
| Commit (c : conn)
| Cursor (c : conn)
| Execute (cur : cursor) (q : stmt)
| FetchOne (cur : cursor)
| FetchAll (cur : cursor)
| CursorClose (cur : cursor)
| Uuid4.

Inductive reply : Type :=
| RNone
| RStr (s : string)
| RInt (z : Z)
| RConn (c : conn)
| RCursor (cur : cursor)
| RRow (r : option row)
| RRows (rs : list row)
| RRaise (e : exn).

Definition event : Type := call * reply.

Definition calls (t : list event) : list call := map fst t.

Definition raised (ev : event) : bool :=
  match snd ev with RRaise _ => true | _ => false end.

(** What the outside world offers, over a world state [W]. Reading the
    clock and the [closed] attribute does not change the world. *)
Record Driver (W : Type) : Type := {
  drv_now : W → Z;                                   (* datetime.now(), in seconds *)
  drv_closed : conn → W → Z;                         (* connection.closed *)
  drv_generate_token : W → result string * W;
  drv_connect : string → W → result conn * W;
  drv_close : conn → W → result unit * W;
  drv_get_transaction_status : conn → W → result Z * W;
  drv_rollback : conn → W → result unit * W;
  drv_commit : conn → W → result unit * W;
  drv_cursor : conn → W → result cursor * W;
  drv_execute : cursor → stmt → W → result unit * W;
  drv_fetchone : cursor → W → result (option row) * W;
  drv_fetchall : cursor → W → result (list row) * W;
  drv_cursor_close : cursor → W → result unit * W;
  drv_uuid4 : W → string * W;
}.
Arguments drv_now {W}.
Arguments drv_closed {W}.
Arguments drv_generate_token {W}.
Arguments drv_connect {W}.
Arguments drv_close {W}.
Arguments drv_get_transaction_status {W}.
Arguments drv_rollback {W}.
Arguments drv_commit {W}.
Arguments drv_cursor {W}.
Arguments drv_execute {W}.
Arguments drv_fetchone {W}.
Arguments drv_fetchall {W}.
Arguments drv_cursor_close {W}.
Arguments drv_uuid4 {W}.

(** ** Program state and the monad *)

(** The fields of [DSQLConnectionManager] (the lock is not modelled: the
    embedding is sequential). *)
Record DSQLConnectionManager : Type := {
  connection : option conn;
  token : option string;
  token_expires_at : option Z;
}.

(** [DSQLConnectionManager.__init__] *)
Definition dsql_manager_init : DSQLConnectionManager :=
  {| connection := None; token := None; token_expires_at := None |}.

Record state (W : Type) : Type := {
  world : W;
  dsql_manager : DSQLConnectionManager;
  trace : list event;
}.
Arguments world {W}.
Arguments dsql_manager {W}.
Arguments trace {W}.

Definition M (W A : Type) : Type := state W → result A * state W.

Global Instance M_ret {W} : MRet (M W) := λ A a s, (Ok a, s).

Global Instance M_bind {W} : MBind (M W) := λ A B k m s,
  match m s with
  | (Ok a, s') => k a s'
  | (Raise e, s') => (Raise e, s')
  end.

Definition raise {W A} (e : exn) : M W A := λ s, (Raise e, s).

(** [try: body except Exception as e: handler e] *)
Definition try_except {W A} (body : M W A) (handler : exn → M W A) : M W A :=
  λ s, match body s with
       | (Ok a, s') => (Ok a, s')
       | (Raise e, s') => handler e s'
       end.

(** [try: body finally: cleanup] *)
Definition try_finally {W A} (body : M W A) (cleanup : M W unit) : M W A :=
  λ s, let '(r, s') := body s in
       match cleanup s' with
       | (Ok _, s'') => (r, s'')
       | (Raise e, s'') => (Raise e, s'')
       end.

Definition get_manager {W} : M W DSQLConnectionManager :=
  λ s, (Ok (dsql_manager s), s).

Definition set_manager {W} (m : DSQLConnectionManager) : M W unit :=
  λ s, (Ok tt, {| world := world s; dsql_manager := m; trace := trace s |}).

(** A driver call: run it on the world and record it with its reply. *)
Definition prim {W R} (c : call) (enc : R → reply)
    (op : W → result R * W) : M W R :=
  λ s, let '(r, w') := op (world s) in
       let rep := match r with Ok v => enc v | Raise e => RRaise e end in
       (r, {| world := w'; dsql_manager := dsql_manager s;
              trace := trace s ++ [(c, rep)] |}).

Section Programs.
Context {W : Type} (D : Driver W).

Definition datetime_now : M W Z := λ s, (Ok (drv_now D (world s)), s).
Definition conn_closed (c : conn) : M W Z :=
  λ s, (Ok (drv_closed D c (world s)), s).

Definition generate_token : M W string :=
  prim GenerateToken RStr (drv_generate_token D).
Definition connect (password : string) : M W conn :=
  prim (Connect password) RConn (drv_connect D password).
Definition conn_close (c : conn) : M W unit :=
  prim (ConnClose c) (λ _, RNone) (drv_close D c).
Definition get_transaction_status (c : conn) : M W Z :=
  prim (GetTransactionStatus c) RInt (drv_get_transaction_status D c).
Definition conn_rollback (c : conn) : M W unit :=
  prim (Rollback c) (λ _, RNone) (drv_rollback D c).
Definition conn_commit (c : conn) : M W unit :=
  prim (Commit c) (λ _, RNone) (drv_commit D c).
Definition conn_cursor (c : conn) : M W cursor :=
  prim (Cursor c) RCursor (drv_cursor D c).
Definition execute (cur : cursor) (q : stmt) : M W unit :=
  prim (Execute cur q) (λ _, RNone) (drv_execute D cur q).
Definition fetchone (cur : cursor) : M W (option row) :=
  prim (FetchOne cur) RRow (drv_fetchone D cur).
Definition fetchall (cur : cursor) : M W (list row) :=
  prim (FetchAll cur) RRows (drv_fetchall D cur).
Definition cursor_close (cur : cursor) : M W unit :=
  prim (CursorClose cur) (λ _, RNone) (drv_cursor_close D cur).
Definition uuid4 : M W string :=
  prim Uuid4 RStr (λ w, let '(u, w') := drv_uuid4 D w in (Ok u, w')).

(** *** [DSQLConnectionManager] *)

(** Tokens are valid for 1 hour, refreshed 5 minutes early. *)
Definition token_lifetime : Z := 55 * 60.

Definition get_fresh_token : M W (string * Z) :=
  try_except
    (token ← generate_token;
     now ← datetime_now;
     let expires_at := now + token_lifetime in
     mret (token, expires_at))
    (λ e, raise e).

(** The test at the head of [get_connection], with the short-circuit
    order of the source: [None] when a new token and connection are
    needed, the connection in use otherwise. *)
Definition usable_connection : M W (option conn) :=
  self ← get_manager;
  match token self, token_expires_at self with
  | Some _, Some expires =>
      now ← datetime_now;
      if expires <=? now then mret None
      else match connection self with
           | None => mret None
           | Some c =>
               closed ← conn_closed c;
               if decide (closed ≠ 0) then mret None else mret (Some c)
           end
  | _, _ => mret None
  end.

Definition get_connection : M W conn :=
  usable ← usable_connection;
  match usable with
  | None =>
      '(tok, expires_at) ← get_fresh_token;
      self ← get_manager;
      set_manager {| connection := connection self; token := Some tok;
                     token_expires_at := Some expires_at |};;
      (* Close existing connection if any *)
      match connection self with
      | Some c =>
          closed ← conn_closed c;
          if decide (closed = 0) then conn_close c else mret tt
      | None => mret tt
      end;;
      c ← connect tok;
      self ← get_manager;
      set_manager {| connection := Some c; token := token self;
                     token_expires_at := token_expires_at self |};;
      mret c
  | Some c =>
      try_except
        (status ← get_transaction_status c;
         if decide (status = TRANSACTION_STATUS_INERROR)
         then conn_rollback c else mret tt)
        (λ _, try_except (conn_rollback c) (λ _, mret tt));;
      mret c
  end.

End Programs.

(** ** Storage functions and endpoints *)

(** [str(e)] *)
Definition exn_str (e : exn) : string :=
  match e with
  | ValueError msg | TypeError msg | PyException msg | DriverError msg => msg
  | KeyError key => key
  | HTTPException _ detail => detail
  end.

(** The six sample entries, [(name, description, price, category,
    image_url)]; the same literal values appear in
    [create_sample_menu_items] and in [get_sample_menu_items]. *)
Definition sample_items : list (string * string * Q * string * string) :=
  [ ("Chicken Kabob", "Grilled chicken skewers with Mediterranean spices",
     12.99%Q, "Kabobs",
     "https://carlsbadcravings.com/wp-content/uploads/2023/06/Chicken-Kabobs-5.jpg");
    ("Beef Kabob", "Tender beef cubes marinated in herbs",
     14.99%Q, "Kabobs",
     "https://www.recipetineats.com/tachyon/2018/07/Beef-Kabobs_2.jpg?resize=900%2C1260&zoom=1");
    ("Lamb Kabob", "Succulent lamb with traditional seasonings",
     16.99%Q, "Kabobs",
     "https://www.acommunaltable.com/wp-content/uploads/2022/08/lamb-kebab-with-drizzle-1024x1536.jpeg");
    ("Vegetable Kabob", "Fresh seasonal vegetables grilled to perfection",
     9.99%Q, "Kabobs",
     "https://www.veggiessavetheday.com/wp-content/uploads/2021/05/Grilled-Veggie-Kabobs-platter-1200x1800-1.jpg");
    ("Hummus & Pita", "Creamy chickpea dip with olive oil",
     6.99%Q, "Appetizers",
     "https://images.squarespace-cdn.com/content/v1/5ed666a6924cd0017d343b01/1593544179725-1WMOUEETKOKCYY7JZ5FJ/bite-me-more-roasted-red-pepper-hummus-spiced-pita-chips-recipe.jpg?format=2500w");
    ("Baklava", "Sweet pastry with nuts and honey",
     4.99%Q, "Desserts",
     "https://img.sndimg.com/food/image/upload/f_auto,c_thumb,q_55,w_860,ar_3:2/v1/img/recipes/59/86/3/Ye35HYGSEGgc0oGCIUag_Baklava-2.jpg")
  ]%string.

(** [row['count']] on the result of [fetchone()] *)
Definition row_count (r : option row) : result Z :=
  match r with
  | Some (CountRow n) => Ok n
  | Some _ => Raise (KeyError "count")
  | None => Raise (TypeError "'NoneType' object is not subscriptable")
  end.

(** The dict built from a row of [menu_items]. *)
Definition menu_item_of_row (r : row) : result MenuItem.t :=
  match r with
  | MenuItemRow m => Ok m
  | CountRow _ | OrderRow _ => Raise (KeyError "id")
  end.

(** The dict built from a row of [orders]. *)
Definition order_of_row (r : row) : result Order.t :=
  match r with
  | OrderRow o => Ok o
  | CountRow _ => Raise (KeyError "id")
  | MenuItemRow _ => Raise (KeyError "customer_name")
  end.

(** [sum(item.price * item.quantity for item in items)] *)
Definition order_total (l : list OrderItemCreate) : Q :=
  fold_left (λ acc item, acc + item_price item * inject_Z (item_quantity item))%Q
            l 0%Q.

(** The sum over the lines of price times quantity, as the specification
    words it. *)
Fixpoint sum_price_times_quantity (l : list OrderItemCreate) : Q :=
  match l with
  | [] => 0
  | item :: l' =>
      item_price item * inject_Z (item_quantity item)
      + sum_price_times_quantity l'
  end%Q.

Definition item_dict (item : OrderItemCreate) : ItemDict.t :=
  {| ItemDict.id := item_id item; ItemDict.name := item_name item;
     ItemDict.price := item_price item;
     ItemDict.quantity := item_quantity item |}.

Section Storage.
Context {W : Type} (D : Driver W).

Definition lift {A} (r : result A) : M W A := λ s, (r, s).

(** [for x in l: body x] *)
Fixpoint for_each {A} (l : list A) (body : A → M W unit) : M W unit :=
  match l with
  | [] => mret tt
  | x :: l' => body x;; for_each l' body
  end.

(** A list built by appending one element per iteration. *)
Fixpoint collect {A B} (l : list A) (body : A → M W B) : M W (list B) :=
  match l with
  | [] => mret []
  | x :: l' => y ← body x; ys ← collect l' body; mret (y :: ys)
  end.

Definition ensure_tables_exist : M W bool :=
  conn ← get_connection D;
  try_except
    (cursor ← conn_cursor D conn;
     execute D cursor CreateTableMenuItems;;
     cursor_close D cursor;;
     conn_commit D conn;;
     cursor ← conn_cursor D conn;
     execute D cursor CreateTableOrders;;
     cursor_close D cursor;;
     conn_commit D conn;;
     mret true)
    (λ e, conn_rollback D conn;; raise e).

Definition create_sample_menu_items : M W unit :=
  conn ← get_connection D;
  cursor ← conn_cursor D conn;
  try_except
    (execute D cursor DeleteMenuItems;;
     for_each sample_items
       (λ '(name, description, price, category, image_url),
          item_id ← uuid4 D;
          execute D cursor
            (InsertMenuItem item_id name description price category
                            image_url true));;
     conn_commit D conn;;
     cursor_close D cursor)
    (λ e, conn_rollback D conn;; cursor_close D cursor;; raise e).

Definition get_sample_menu_items : M W (list MenuItem.t) :=
  collect sample_items
    (λ '(name, description, price, category, image_url),
       id ← uuid4 D;
       now ← datetime_now D;
       mret {| MenuItem.id := id; MenuItem.name := name;
               MenuItem.description := description;
               MenuItem.price := price; MenuItem.category := category;
               MenuItem.image_url := Some image_url;
               MenuItem.available := true;
               MenuItem.created_at := Some now |}).

Definition get_menu_items : M W (list MenuItem.t) :=
  conn ← get_connection D;
  cursor ← conn_cursor D conn;
  try_except
    (execute D cursor SelectAvailableMenuItems;;
     rows ← fetchall D cursor;
     items ← collect rows (λ row, lift (menu_item_of_row row));
     conn_commit D conn;;
     cursor_close D cursor;;
     mret items)
    (λ e, conn_rollback D conn;; cursor_close D cursor;;
          get_sample_menu_items).

Definition create_order (customer_name customer_email : string)
    (items : list ItemDict.t) (total_amount : Q) : M W Order.t :=
  let customer_name := sanitize_string customer_name 255 in
  let customer_email := sanitize_string customer_email 255 in
  if decide (customer_name = ""%string ∨ customer_email = ""%string)
  then raise (ValueError "Customer name and email are required")
  else if decide (length items = 0%nat)
  then raise (ValueError "Order must contain at least one item")
  else if Qle_bool total_amount 0 || negb (Qle_bool total_amount 100000)
  then raise (ValueError "Invalid total amount")
  else
    conn ← get_connection D;
    cursor ← conn_cursor D conn;
    try_except
      (order_id ← uuid4 D;
       execute D cursor CountOrders;;
       r ← fetchone D cursor;
       count_before ← lift (row_count r);
       let items_json := items in
       execute D cursor
         (InsertOrder order_id customer_name customer_email items_json
                      total_amount "pending");;
       execute D cursor CountOrders;;
       r ← fetchone D cursor;
       count_after ← lift (row_count r);
       execute D cursor (SelectOrderById order_id);;
       row ← fetchone D cursor;
       row ← match row with
             | Some _ => mret row
             | None =>
                 (* Fallback: get the most recent order *)
                 execute D cursor SelectLatestOrder;;
                 fetchone D cursor
             end;
       match row with
       | None =>
           raise (PyException
             "Order was created but could not be retrieved - no orders in database")
       | Some row =>
           order_data ← lift (order_of_row row);
           conn_commit D conn;;
           cursor_close D cursor;;
           mret order_data
       end)
      (λ e, conn_rollback D conn;; cursor_close D cursor;; raise e).

Definition get_all_orders : M W (list Order.t) :=
  conn ← get_connection D;
  cursor ← conn_cursor D conn;
  try_except
    (execute D cursor SelectAllOrders;;
     rows ← fetchall D cursor;
     orders ← collect rows (λ row, lift (order_of_row row));
     conn_commit D conn;;
     cursor_close D cursor;;
     mret orders)
    (λ e, conn_rollback D conn;; cursor_close D cursor;; mret []).

Definition initialize_database_with_sample_data : M W unit :=
  try_except
    (ensure_tables_exist;;
     conn ← get_connection D;
     cursor ← conn_cursor D conn;
     try_finally
       (try_except
          (execute D cursor CountMenuItems;;
           r ← fetchone D cursor;
           count ← lift (row_count r);
           conn_commit D conn;;
           if decide (count = 0) then create_sample_menu_items
           else mret tt)
          (λ e, conn_rollback D conn;; raise e))
       (cursor_close D cursor))
    (λ init_error, raise init_error).

(** *** Endpoints *)

(** [GET /api/menu] *)
Definition get_menu : M W (list MenuItem.t) :=
  try_except
    (get_menu_items)
    (λ e, raise (HTTPException 500 ("Database error: " +:+ exn_str e))).

(** [POST /api/orders] *)
Definition create_order_endpoint (order : OrderCreate) : M W Order.t :=
  try_except
    (let total_amount := order_total (items order) in
     let items_dict := map item_dict (items order) in
     result ← create_order (customer_name order) (customer_email order)
                           items_dict total_amount;
     mret result)
    (λ e, match e with
          | ValueError _ => raise (HTTPException 422 (exn_str e))
          | _ => raise (HTTPException 500
                          ("Failed to create order: " +:+ exn_str e))
          end).

(** [GET /api/orders] *)
Definition get_orders_endpoint : M W (list Order.t) :=
  try_except
    (get_all_orders)
    (λ e, raise (HTTPException 500
                   ("Failed to retrieve orders: " +:+ exn_str e))).

End Storage.

(** ** A reference driver

    A small model of the services behind the driver, on which the programs
    can be run: a token service, one database with the two tables, one
    session at a time with its own working copy of the tables until commit,
    and numeric(10,2) columns. Calls listed in [faulty] raise; with
    [stale_reads] a query is answered from the committed tables and does not
    see the rows written by the transaction in progress. *)
Module Pg.

Record Tables : Type := {
  menu_items : option (list MenuItem.t);   (* None: no such table *)
  orders : option (list Order.t);
}.

Record Session : Type := {
  sid : conn;
  closed : bool;
  tx_status : Z;
  ddl_count : nat;                         (* in the open transaction *)
  working : Tables;
  results : list (option (list row));      (* per cursor of the session *)
}.

Record World : Type := {
  clock : Z;
  faulty : call → bool;
  stale_reads : bool;
  committed : Tables;
  session : option Session;
  serial : nat;                            (* for fresh names *)
}.

Definition set_session (w : World) (s : option Session) : World :=
  {| clock := clock w; faulty := faulty w; stale_reads := stale_reads w;
     committed := committed w; session := s; serial := serial w |}.

Definition set_committed (w : World) (t : Tables) : World :=
  {| clock := clock w; faulty := faulty w; stale_reads := stale_reads w;
     committed := t; session := session w; serial := serial w |}.

Definition bump (w : World) : World :=
  {| clock := clock w; faulty := faulty w; stale_reads := stale_reads w;
     committed := committed w; session := session w;
     serial := S (serial w) |}.

Definition fail {R} (msg : string) (w : World) : result R * World :=
  (Raise (DriverError msg), w).

(** Run [k] unless the call is one of the faulty ones. *)
Definition guarded {R} (c : call) (w : World)
    (k : result R * World) : result R * World :=
  if faulty w c then fail "driver call failed" w else k.

(** The open session behind a connection handle. *)
Definition open_session (c : conn) (w : World) : option Session :=
  match session w with
  | Some s => if decide (sid s = c) then
                if closed s then None else Some s
              else None
  | None => None
  end.

(** Round to the nearest integer, ties away from zero. *)
Definition round_half_away (x : Q) : Z :=
  if Qle_bool 0 x then Qfloor (x + (1 # 2)) else - Qfloor (- x + (1 # 2)).

(** The value a numeric(10,2) column keeps; [None] on overflow. *)
Definition numeric_10_2 (v : Q) : option Q :=
  let n := round_half_away (v * 100) in
  if Z.abs n <? 10 ^ 10 then Some (inject_Z n / 100)%Q else None.

Fixpoint insert_sorted {A} (le : A → A → bool) (x : A) (l : list A) : list A :=
  match l with
  | [] => [x]
  | y :: l' => if le x y then x :: l else y :: insert_sorted le x l'
  end.

Definition sort_by {A} (le : A → A → bool) (l : list A) : list A :=
  fold_right (insert_sorted le) [] l.

(** ORDER BY category, name *)
Definition menu_le (a b : MenuItem.t) : bool :=
  if decide (MenuItem.category a = MenuItem.category b)
  then String.leb (MenuItem.name a) (MenuItem.name b)
  else String.leb (MenuItem.category a) (MenuItem.category b).

(** ORDER BY created_at DESC (nulls first) *)
Definition newer (a b : Order.t) : bool :=
  match Order.created_at a, Order.created_at b with
  | None, _ => true
  | Some _, None => false
  | Some x, Some y => y <=? x
  end.

Definition no_table {R} (name : string) : string + R :=
  inl ("relation " +:+ name +:+ " does not exist")%string.

(** One statement: an error text, or the new working tables and the
    result set, if the statement has one. [read] is what queries see. *)
Definition exec_stmt (now : Z) (read t : Tables) (q : stmt)
  : string + (Tables * option (list row)) :=
  match q with
  | CreateTableMenuItems =>
      inr ({| menu_items := Some (default [] (menu_items t));
              orders := orders t |}, None)
  | CreateTableOrders =>
      inr ({| menu_items := menu_items t;
              orders := Some (default [] (orders t)) |}, None)
  | DeleteMenuItems =>
      match menu_items t with
      | Some _ => inr ({| menu_items := Some []; orders := orders t |}, None)
      | None => no_table "menu_items"
      end
  | InsertMenuItem id name description price category image_url available =>
      match menu_items t, numeric_10_2 price with
      | Some rows, Some p =>
          if decide (id ∈ map MenuItem.id rows)
          then inl "duplicate key value violates unique constraint"%string
          else
            let r := {| MenuItem.id := id; MenuItem.name := name;
                        MenuItem.description := description;
                        MenuItem.price := p; MenuItem.category := category;
                        MenuItem.image_url := Some image_url;
                        MenuItem.available := available;
                        MenuItem.created_at := Some now |} in
            inr ({| menu_items := Some (rows ++ [r]); orders := orders t |},
                 None)
      | Some _, None => inl "numeric field overflow"%string
      | None, _ => no_table "menu_items"
      end
  | SelectAvailableMenuItems =>
      match menu_items read with
      | Some rows =>
          inr (t, Some (map MenuItemRow
                 (sort_by menu_le (filter (λ r, MenuItem.available r = true) rows))))
      | None => no_table "menu_items"
      end
  | CountMenuItems =>
      match menu_items read with
      | Some rows => inr (t, Some [CountRow (Z.of_nat (length rows))])
      | None => no_table "menu_items"
      end
  | CountOrders =>
      match orders read with
      | Some rows => inr (t, Some [CountRow (Z.of_nat (length rows))])
      | None => no_table "orders"
      end
  | InsertOrder id customer_name customer_email items total_amount status =>
      match orders t, numeric_10_2 total_amount with
      | Some rows, Some total =>
          if decide (id ∈ map Order.id rows)
          then inl "duplicate key value violates unique constraint"%string
          else
            let r := {| Order.id := id; Order.customer_name := customer_name;
                        Order.customer_email := customer_email;
                        Order.items := items; Order.total_amount := total;
                        Order.status := status;
                        Order.created_at := Some now |} in
            inr ({| menu_items := menu_items t; orders := Some (rows ++ [r]) |},
                 None)
      | Some _, None => inl "numeric field overflow"%string
      | None, _ => no_table "orders"
      end
  | SelectOrderById id =>
      match orders read with
      | Some rows =>
          inr (t, Some (map OrderRow (filter (λ r, Order.id r = id) rows)))
      | None => no_table "orders"
      end
  | SelectLatestOrder =>
      match orders read with
      | Some rows => inr (t, Some (map OrderRow (take 1 (sort_by newer rows))))
      | None => no_table "orders"
      end
  | SelectAllOrders =>
      match orders read with
      | Some rows => inr (t, Some (map OrderRow (sort_by newer rows)))
      | None => no_table "orders"
      end
  | DeleteOrders =>
      match orders t with
      | Some _ => inr ({| menu_items := menu_items t; orders := Some [] |}, None)
      | None => no_table "orders"
      end
  end.

Definition with_status (s : Session) (st : Z) : Session :=
  {| sid := sid s; closed := closed s; tx_status := st;
     ddl_count := ddl_count s; working := working s; results := results s |}.

Definition generate_token (w : World) : result string * World :=
  guarded GenerateToken w
    (Ok ("token-" +:+ pretty (serial w))%string, bump w).

Definition connect (password : string) (w : World) : result conn * World :=
  guarded (Connect password) w
    (Ok (serial w),
     bump (set_session w (Some
       {| sid := serial w; closed := false;
          tx_status := TRANSACTION_STATUS_IDLE; ddl_count := 0;
          working := committed w; results := [] |}))).

Definition conn_closed (c : conn) (w : World) : Z :=
  match open_session c w with Some _ => 0 | None => 1 end.

Definition close (c : conn) (w : World) : result unit * World :=
  guarded (ConnClose c) w
    (match open_session c w with
     | Some s =>
         (Ok tt, set_session w (Some
            {| sid := sid s; closed := true;
               tx_status := TRANSACTION_STATUS_IDLE; ddl_count := 0;
               working := committed w; results := results s |}))
     | None => (Ok tt, w)
     end).

Definition get_transaction_status (c : conn) (w : World) : result Z * World :=
  guarded (GetTransactionStatus c) w
    (match open_session c w with
     | Some s => (Ok (tx_status s), w)
     | None => (Ok 4, w)           (* TRANSACTION_STATUS_UNKNOWN *)
     end).

Definition rollback (c : conn) (w : World) : result unit * World :=
  guarded (Rollback c) w
    (match open_session c w with
     | Some s =>
         (Ok tt, set_session w (Some
            {| sid := sid s; closed := false;
               tx_status := TRANSACTION_STATUS_IDLE; ddl_count := 0;
               working := committed w; results := results s |}))
     | None => fail "connection already closed" w
     end).

(** COMMIT in a failed transaction ends it as a rollback does. *)
Definition commit (c : conn) (w : World) : result unit * World :=
  guarded (Commit c) w
    (match open_session c w with
     | Some s =>
         let t := if decide (tx_status s = TRANSACTION_STATUS_INERROR)
                  then committed w else working s in
         (Ok tt, set_session (set_committed w t) (Some
            {| sid := sid s; closed := false;
               tx_status := TRANSACTION_STATUS_IDLE; ddl_count := 0;
               working := t; results := results s |}))
     | None => fail "connection already closed" w
     end).

Definition new_cursor (c : conn) (w : World) : result cursor * World :=
  guarded (Cursor c) w
    (match open_session c w with
     | Some s =>
         (Ok {| cursor_connection := c;
                cursor_serial := length (results s) |},
          set_session w (Some
            {| sid := sid s; closed := false; tx_status := tx_status s;
               ddl_count := ddl_count s; working := working s;
               results := results s ++ [None] |}))
     | None => fail "connection already closed" w
     end).

Definition execute (cur : cursor) (q : stmt) (w : World) : result unit * World :=
  guarded (Execute cur q) w
    (match open_session (cursor_connection cur) w with
     | Some s =>
         if decide (tx_status s = TRANSACTION_STATUS_INERROR)
         then fail "current transaction is aborted" w
         else if is_ddl q && (0 <? Z.of_nat (ddl_count s))
         then (Raise (DriverError
                 "multiple ddl statements are not supported in a transaction"),
               set_session w (Some (with_status s TRANSACTION_STATUS_INERROR)))
         else
           let read := if stale_reads w then committed w else working s in
           match exec_stmt (clock w) read (working s) q with
           | inl msg =>
               (Raise (DriverError msg),
                set_session w (Some (with_status s TRANSACTION_STATUS_INERROR)))
           | inr (t, res) =>
               (Ok tt, set_session w (Some
                  {| sid := sid s; closed := false;
                     tx_status := TRANSACTION_STATUS_INTRANS;
                     ddl_count := if is_ddl q then S (ddl_count s)
                                  else ddl_count s;
                     working := t;
                     results := <[cursor_serial cur := res]> (results s) |}))
           end
     | None => fail "connection already closed" w
     end).

Definition fetchone (cur : cursor) (w : World) : result (option row) * World :=
  guarded (FetchOne cur) w
    (match open_session (cursor_connection cur) w with
     | Some s =>
         match results s !! cursor_serial cur with
         | Some (Some (r :: rest)) =>
             (Ok (Some r), set_session w (Some
                {| sid := sid s; closed := false; tx_status := tx_status s;
                   ddl_count := ddl_count s; working := working s;
                   results := <[cursor_serial cur := Some rest]> (results s) |}))
         | Some (Some []) => (Ok None, w)
         | _ => fail "no results to fetch" w
         end
     | None => fail "connection already closed" w
     end).

Definition fetchall (cur : cursor) (w : World) : result (list row) * World :=
  guarded (FetchAll cur) w
    (match open_session (cursor_connection cur) w with
     | Some s =>
         match results s !! cursor_serial cur with
         | Some (Some rows) =>
             (Ok rows, set_session w (Some
                {| sid := sid s; closed := false; tx_status := tx_status s;
                   ddl_count := ddl_count s; working := working s;
                   results := <[cursor_serial cur := Some []]> (results s) |}))
         | _ => fail "no results to fetch" w
         end
     | None => fail "connection already closed" w
     end).

Definition cursor_close (cur : cursor) (w : World) : result unit * World :=
  guarded (CursorClose cur) w (Ok tt, w).

Definition uuid4 (w : World) : string * World :=
  (("00000000-0000-4000-8000-" +:+ pretty (serial w))%string, bump w).

Definition driver : Driver World :=
  {| drv_now := clock;
     drv_closed := conn_closed;
     drv_generate_token := generate_token;
     drv_connect := connect;
     drv_close := close;
     drv_get_transaction_status := get_transaction_status;
     drv_rollback := rollback;
     drv_commit := commit;
     drv_cursor := new_cursor;
     drv_execute := execute;
     drv_fetchone := fetchone;
     drv_fetchall := fetchall;
     drv_cursor_close := cursor_close;
     drv_uuid4 := uuid4 |}.

Definition empty_tables : Tables := {| menu_items := None; orders := None |}.

Definition set_faulty (w : World) (f : call → bool) : World :=
  {| clock := clock w; faulty := f; stale_reads := stale_reads w;
     committed := committed w; session := session w; serial := serial w |}.

Definition set_stale_reads (w : World) (b : bool) : World :=
  {| clock := clock w; faulty := faulty w; stale_reads := b;
     committed := committed w; session := session w; serial := serial w |}.

Definition set_clock (w : World) (now : Z) : World :=
  {| clock := now; faulty := faulty w; stale_reads := stale_reads w;
     committed := committed w; session := session w; serial := serial w |}.

(** A fresh database at time [now], everything working. *)
Definition fresh (now : Z) : World :=
  {| clock := now; faulty := λ _, false; stale_reads := false;
     committed := empty_tables; session := None; serial := 0 |}.

(** The process right after start-up, on world [w]. *)
Definition boot (w : World) : state World :=
  {| world := w; dsql_manager := dsql_manager_init; trace := [] |}.

End Pg.

(** ** Vocabulary of the statements *)

(** A manager holds a token exactly when it holds the token's expiry; both
    are assigned together in [get_connection]. *)
Definition manager_wf (m : DSQLConnectionManager) : Prop :=
  token m = None ↔ token_expires_at m = None.

(** No token, or the clock has reached the cached expiry, or no connection,
    or the connection reports itself closed. *)
Definition needs_refresh {W} (D : Driver W) (s : state W) : Prop :=
  let self := dsql_manager s in
  token self = None
  ∨ (∃ expires, token_expires_at self = Some expires
                ∧ expires ≤ drv_now D (world s))
  ∨ connection self = None
  ∨ (∃ c, connection self = Some c ∧ drv_closed D c (world s) ≠ 0).

(** In the events [evs], connection [c] reported an in-error transaction. *)
Definition reports_in_error (evs : list event) (c : conn) : Prop :=
  (GetTransactionStatus c, RInt TRANSACTION_STATUS_INERROR) ∈ evs.

(** In the events [evs], asking connection [c] for its status raised. *)
Definition status_check_raised (evs : list event) (c : conn) : Prop :=
  ∃ e, (GetTransactionStatus c, RRaise e) ∈ evs.

(** The events recorded between two states. *)
Definition events_between {W} (s s' : state W) : list event :=
  drop (length (trace s)) (trace s').

(** The calls [get_connection] makes. *)
Definition is_session_call (c : call) : bool :=
  match c with
  | GenerateToken | Connect _ | ConnClose _
  | GetTransactionStatus _ | Rollback _ => true
  | _ => false
  end.

(** No transaction in the calls [cs] holds a second schema-change
    statement: [pending] counts those executed since the last commit or
    rollback. *)
Fixpoint ddl_discipline (pending : nat) (cs : list call) : bool :=
  match cs with
  | [] => true
  | Execute _ q :: cs' =>
      if is_ddl q
      then match pending with
           | O => ddl_discipline 1 cs'
           | S _ => false
           end
      else ddl_discipline pending cs'
  | Commit _ :: cs' | Rollback _ :: cs' => ddl_discipline 0 cs'
  | _ :: cs' => ddl_discipline pending cs'
  end.

(** What [ensure_tables_exist] asks of the driver, in order, once it has
    its connection. *)
Definition ensure_tables_calls (conn : conn) (cur1 cur2 : cursor) : list call :=
  [ Cursor conn; Execute cur1 CreateTableMenuItems; CursorClose cur1;
    Commit conn;
    Cursor conn; Execute cur2 CreateTableOrders; CursorClose cur2;
    Commit conn ].

(** The five values a sample entry gives to a menu item. *)
Definition menu_item_sample (m : MenuItem.t)
  : string * string * Q * string * string :=
  (MenuItem.name m, MenuItem.description m, MenuItem.price m,
   MenuItem.category m, default ""%string (MenuItem.image_url m)).

(** The list is the in-memory sample list: the six entries, in order,
    each available. *)
Definition is_sample_menu (l : list MenuItem.t) : Prop :=
  map menu_item_sample l = sample_items
  ∧ Forall (λ m, MenuItem.available m = true) l.

(** The pure part of the row loops: convert every row or stop at the first
    one that cannot be converted. *)
Fixpoint convert_rows {A} (f : row → result A) (rows : list row)
  : result (list A) :=
  match rows with
  | [] => Ok []
  | r :: rows' =>
      match f r with
      | Ok x => match convert_rows f rows' with
                | Ok xs => Ok (x :: xs)
                | Raise e => Raise e
                end
      | Raise e => Raise e
      end
  end.

(** Executions of the INSERT into [orders]. *)
Definition is_insert_order (c : call) : bool :=
  match c with
  | Execute _ (InsertOrder _ _ _ _ _ _) => true
  | _ => false
  end.

(** Executions of an insert or delete on [menu_items]. *)
Definition is_menu_dml_call (c : call) : bool :=
  match c with
  | Execute _ q => is_menu_dml q
  | _ => false
  end.

(** Calls that neither write to [menu_items] nor fetch a row. *)
Definition is_quiet_call (c : call) : bool :=
  match c with
  | Execute _ q => negb (is_menu_dml q)
  | FetchOne _ | FetchAll _ => false
  | _ => true
  end.

(** The count that the first fetch of a count row brought back. *)
Fixpoint fetched_count (evs : list event) : option Z :=
  match evs with
  | [] => None
  | (FetchOne _, RRow (Some (CountRow n))) :: _ => Some n
  | _ :: evs' => fetched_count evs'
  end.

(** The statements that replace the menu by the seed set, with the
    identifiers drawn for the six entries: the delete, then for each entry
    the drawing of its identifier and its insert. *)
Definition seed_statements (cur : cursor) (ids : list string) : list call :=
  Execute cur DeleteMenuItems
  :: flat_map (λ '(id, (name, description, price, category, image_url)),
                 [ Uuid4;
                   Execute cur (InsertMenuItem id name description price
                                               category image_url true) ])
              (zip ids sample_items).

(** A property of the world that every driver call keeps, the execution
    of a statement only when the statement is [allowed]. *)
Record respects {W} (D : Driver W) (P : W → Prop) (allowed : stmt → bool)
  : Prop := {
  respects_generate_token : ∀ w, P w → P (drv_generate_token D w).2;
  respects_connect : ∀ p w, P w → P (drv_connect D p w).2;
  respects_close : ∀ c w, P w → P (drv_close D c w).2;
  respects_get_transaction_status :
    ∀ c w, P w → P (drv_get_transaction_status D c w).2;
  respects_rollback : ∀ c w, P w → P (drv_rollback D c w).2;
  respects_commit : ∀ c w, P w → P (drv_commit D c w).2;
  respects_cursor : ∀ c w, P w → P (drv_cursor D c w).2;
  respects_execute :
    ∀ cur q w, allowed q = true → P w → P (drv_execute D cur q w).2;
  respects_fetchone : ∀ cur w, P w → P (drv_fetchone D cur w).2;
  respects_fetchall : ∀ cur w, P w → P (drv_fetchall D cur w).2;
  respects_cursor_close : ∀ cur w, P w → P (drv_cursor_close D cur w).2;
  respects_uuid4 : ∀ w, P w → P (drv_uuid4 D w).2;
}.

(** A program that keeps the property of the world. *)
Definition preserves {W A} (P : W → Prop) (m : M W A) : Prop :=
  ∀ s, P (world s) → P (world (m s).2).

(** On the reference driver: the committed [menu_items] table and the
    session's working copy both hold the rows [R]. *)
Definition menu_is (R : list MenuItem.t) (w : Pg.World) : Prop :=
  Pg.menu_items (Pg.committed w) = Some R
  ∧ ∀ sess, Pg.session w = Some sess →
            Pg.menu_items (Pg.working sess) = Some R.

(** The open transaction of connection [c] sees the menu rows [R]. *)
Definition tx_menu (c : conn) (w : Pg.World) (R : list MenuItem.t) : Prop :=
  ∃ sess, Pg.open_session c w = Some sess
          ∧ Pg.tx_status sess ≠ TRANSACTION_STATUS_INERROR
          ∧ Pg.menu_items (Pg.working sess) = Some R.

(** ... and the result that the cursor [cur] holds, if any, is the count
    [n]. *)
Definition tx_count (cur : cursor) (w : Pg.World) (R : list MenuItem.t)
    (n : Z) : Prop :=
  ∃ sess, Pg.open_session (cursor_connection cur) w = Some sess
          ∧ Pg.tx_status sess ≠ TRANSACTION_STATUS_INERROR
          ∧ Pg.menu_items (Pg.working sess) = Some R
          ∧ ∀ rows, Pg.results sess !! cursor_serial cur = Some (Some rows) →
                    rows = [CountRow n].

(** ** Scenarios on the reference driver *)

Module Scenario.

(** The same process state on another world. *)
Definition on_world {W} (s : state W) (f : W → W) : state W :=
  {| world := f (world s); dsql_manager := dsql_manager s;
     trace := trace s |}.

(** A process that has just obtained its first connection, at time 1000. *)
Definition connected : state Pg.World :=
  (get_connection Pg.driver (Pg.boot (Pg.fresh 1000))).2.

(** ... and whose driver now fails to report the transaction status. *)
Definition status_check_fails (c : call) : bool :=
  match c with GetTransactionStatus _ => true | _ => false end.

(** The token service is down. *)
Definition token_service_down (c : call) : bool :=
  match c with GenerateToken => true | _ => false end.

Definition no_token_service : state Pg.World :=
  Pg.boot (Pg.set_faulty (Pg.fresh 1000) token_service_down).

Definition connected_status_unknown : state Pg.World :=
  on_world connected (λ w, Pg.set_faulty w status_check_fails).

(** The database initialised at start-up, then a first order, of Alice. *)
Definition alice_order : OrderCreate :=
  {| customer_name := "Alice Smith";
     customer_email := "alice@example.org";
     items := [ {| item_id := "3b241101-e2bb-4255-8caf-4136c566a962";
                   item_name := "Lamb Kabob"; item_price := 16.99%Q;
                   item_quantity := 2 |} ] |}.

Definition initialized : state Pg.World :=
  (initialize_database_with_sample_data Pg.driver
     (Pg.boot (Pg.fresh 1000))).2.

Definition with_alice_order : state Pg.World :=
  (create_order_endpoint Pg.driver alice_order initialized).2.

(** Later, queries are answered from the committed tables and do not see
    the rows of the transaction in progress. *)
Definition stale_reads : state Pg.World :=
  on_world with_alice_order
    (λ w, Pg.set_stale_reads (Pg.set_clock w 2000) true).

Definition bob_items : list ItemDict.t :=
  [ {| ItemDict.id := "0e0b1c3a-5b8e-4d63-9f0c-6a1d2f3b4c5d";
       ItemDict.name := "Vegetable Kabob"; ItemDict.price := 9.99%Q;
       ItemDict.quantity := 1 |} ].

(** An order line priced at an eighth. *)
Definition eighth_order : OrderCreate :=
  {| customer_name := "Carol White";
     customer_email := "carol@example.org";
     items := [ {| item_id := "7d2f5c1e-9a4b-4f6d-8e3c-1b0a9f8e7d6c";
                   item_name := "Pita"; item_price := 0.125%Q;
                   item_quantity := 1 |} ] |}.

End Scenario.

(** ** The remaining endpoints *)

(** The body of the answer of [POST /api/initialize]. *)
Record InitializeResponse : Type := {
  message : string;
  menu_items_count : Z;
  orders_count : Z;
}.

Section Endpoints.
Context {W : Type} (D : Driver W).

(** [DELETE /api/orders/clear] *)
Definition clear_all_orders : M W string :=
  conn ← get_connection D;
  cursor ← conn_cursor D conn;
  try_except
    (execute D cursor DeleteOrders;;
     conn_commit D conn;;
     cursor_close D cursor;;
     mret "All orders deleted from the database"%string)
    (λ e, conn_rollback D conn;; cursor_close D cursor;;
          raise (HTTPException 500
                   ("Failed to clear orders: " +:+ exn_str e))).

(** [POST /api/initialize] *)
Definition initialize_database_endpoint : M W InitializeResponse :=
  conn ← get_connection D;
  cursor ← conn_cursor D conn;
  try_except
    (initialize_database_with_sample_data D;;
     execute D cursor CountMenuItems;;
     r ← fetchone D cursor;
     menu_count ← lift (row_count r);
     execute D cursor CountOrders;;
     r ← fetchone D cursor;
     order_count ← lift (row_count r);
     conn_commit D conn;;
     cursor_close D cursor;;
     mret {| message := "Database initialized successfully";
             menu_items_count := menu_count;
             orders_count := order_count |})
    (λ e, conn_rollback D conn;; cursor_close D cursor;;
          raise (HTTPException 500
                   ("Failed to initialize database: " +:+ exn_str e))).

(** The start-up hook: a failure of the initialisation is logged and the
    application starts anyway. *)
Definition startup_event : M W unit :=
  try_except
    (initialize_database_with_sample_data D)
    (λ _, mret tt).

End Endpoints.

(** ** Vocabulary of the further statements *)

(** A program that only adds to the trace, and only calls that [Q]
    accepts. *)
Definition emits {W A} (Q : call → bool) (m : M W A) : Prop :=
  ∀ s, ∃ evs, trace (m s).2 = trace s ++ evs
              ∧ forallb Q (calls evs) = true.

(** Queries: statements that write to no table and change no schema. *)
Definition is_select (q : stmt) : bool :=
  match q with
  | SelectAvailableMenuItems | CountMenuItems | CountOrders
  | SelectOrderById _ | SelectLatestOrder | SelectAllOrders => true
  | _ => false
  end.

(** Calls that execute no statement but queries. *)
Definition is_read_call (c : call) : bool :=
  match c with
  | Execute _ q => is_select q
  | _ => true
  end.

(** Calls that execute no statement but queries and the INSERT of an
    order. *)
Definition is_order_call (c : call) : bool :=
  match c with
  | Execute _ (InsertOrder _ _ _ _ _ _) => true
  | Execute _ q => is_select q
  | _ => true
  end.

(** Calls that execute no statement but the DELETE of all orders. *)
Definition is_clear_call (c : call) : bool :=
  match c with
  | Execute _ DeleteOrders => true
  | Execute _ _ => false
  | _ => true
  end.

(** Calls that execute no statement but queries, schema changes and the
    seeding of [menu_items]. *)
Definition is_init_call (c : call) : bool :=
  match c with
  | Execute _ q => is_select q || is_ddl q || is_menu_dml q
  | _ => true
  end.

(** What [create_order] requires of its arguments before it asks for a
    connection. *)
Definition order_input_valid (customer_name customer_email : string)
    (items : list ItemDict.t) (total_amount : Q) : Prop :=
  sanitize_string customer_name 255 ≠ ""%string
  ∧ sanitize_string customer_email 255 ≠ ""%string
  ∧ items ≠ []
  ∧ (0 < total_amount)%Q ∧ (total_amount <= 100000)%Q.

(** The texts of the three [ValueError]s at the head of [create_order]. *)
Definition validation_messages : list string :=
  [ "Customer name and email are required";
    "Order must contain at least one item";
    "Invalid total amount" ]%string.

(** A program that keeps a property of the connection manager. *)
Definition keeps_manager {W A} (I : DSQLConnectionManager → Prop)
    (m : M W A) : Prop :=
  ∀ s, I (dsql_manager s) → I (dsql_manager (m s).2).

(** A manager that holds a connection holds a token, and a token comes
    with its expiry. *)
Definition manager_ok (m : DSQLConnectionManager) : Prop :=
  manager_wf m ∧ (connection m ≠ None → token m ≠ None).

(** On the reference driver: the part [f] of the tables has the value [v],
    in the committed tables and in the session's working copy. *)
Definition view_is {A} (f : Pg.Tables → A) (v : A) (w : Pg.World) : Prop :=
  f (Pg.committed w) = v
  ∧ ∀ sess, Pg.session w = Some sess → f (Pg.working sess) = v.

(** Both tables, as they are. *)
Definition tables_are (T : Pg.Tables) : Pg.World → Prop := view_is id T.

(** The rows of [orders]. *)
Definition orders_are (O : list Order.t) : Pg.World → Prop :=
  view_is Pg.orders (Some O).

(** Inserts and deletes on [orders]. *)
Definition is_orders_dml (q : stmt) : bool :=
  match q with
  | InsertOrder _ _ _ _ _ _ | DeleteOrders => true
  | _ => false
  end.

(** On the reference driver: the connection of cursor [cur] is open, its
    transaction is not in error and sees the tables [t], and the result
    that the cursor holds, if any, is [res]. *)
Definition tx (cur : cursor) (w : Pg.World) (t : Pg.Tables)
    (res : option (list row)) : Prop :=
  ∃ sess, Pg.open_session (cursor_connection cur) w = Some sess
          ∧ Pg.tx_status sess ≠ TRANSACTION_STATUS_INERROR
          ∧ Pg.working sess = t
          ∧ ∀ rows, Pg.results sess !! cursor_serial cur = Some (Some rows) →
                    res = Some rows.

(** The list a read path returned, none if it raised. *)
Definition returned {A} (r : result (list A)) : list A :=
  match r with
  | Ok l => l
  | Raise _ => []
  end.

(** The constraints that the fields of [OrderItemCreate] declare on price
    and quantity: [gt=0, le=10000] and [ge=1, le=100]. *)
Definition line_in_range (item : OrderItemCreate) : Prop :=
  (0 < item_price item)%Q ∧ (item_price item <= 10000)%Q
  ∧ 1 ≤ item_quantity item ≤ 100.

(** ** More of Python's strings and of [re] *)

Module PyText.

(** [v.split()]: the maximal runs of characters that are not whitespace;
    [word] is the run being read. *)
Fixpoint split_ws (word : list ascii) (l : list ascii) : list (list ascii) :=
  match l with
  | [] => match word with [] => [] | _ => [word] end
  | c :: l' =>
      if PyStr.isspace c
      then match word with
           | [] => split_ws [] l'
           | _ => word :: split_ws [] l'
           end
      else split_ws (word ++ [c]) l'
  end.

Definition split (l : list ascii) : list (list ascii) := split_ws [] l.

(** [sep.join(words)] *)
Fixpoint join (sep : list ascii) (words : list (list ascii)) : list ascii :=
  match words with
  | [] => []
  | w :: ws =>
      match ws with
      | [] => w
      | _ => w ++ sep ++ join sep ws
      end
  end.

(** [' '.join(v.split())] *)
Definition normalize_spaces (l : list ascii) : list ascii :=
  join [" "%char] (split l).

(** The length of the match of [[^>]*>] at the head of [l], if any. *)
Fixpoint until_gt (l : list ascii) : option nat :=
  match l with
  | [] => None
  | c :: l' => if decide (c = ">"%char) then Some 1%nat else S <$> until_gt l'
  end.

(** The length of the match of [[^>]+>] at the head of [l], if any. *)
Definition tag_length (l : list ascii) : option nat :=
  match l with
  | [] => None
  | c :: l' => if decide (c = ">"%char) then None else S <$> until_gt l'
  end.

(** [re.sub(r'<[^>]+>', '', v)]: from left to right, a match is left out
    and the scan goes on after it; [skip] counts the characters of the
    match still to be left out. *)
Fixpoint sub_tags (skip : nat) (l : list ascii) : list ascii :=
  match l with
  | [] => []
  | c :: l' =>
      match skip with
      | S k => sub_tags k l'
      | O =>
          if decide (c = "<"%char)
          then match tag_length l' with
               | Some n => sub_tags n l'
               | None => c :: sub_tags 0 l'
               end
          else c :: sub_tags 0 l'
      end
  end.

Definition remove_tags (l : list ascii) : list ascii := sub_tags 0 l.

(** [l.endswith(p)] *)
Definition endswith (p l : list ascii) : bool :=
  PyStr.is_prefix (rev p) (rev l).

(** [[a-zA-Z]] *)
Definition is_ascii_letter (c : ascii) : bool :=
  let n := PyStr.code c in
  ((65 <=? n) && (n <=? 90)) || ((97 <=? n) && (n <=? 122)).

(** [v.split(sep)]; [word] is the piece being read. *)
Fixpoint split_on (sep : ascii) (word : list ascii) (l : list ascii)
  : list (list ascii) :=
  match l with
  | [] => [word]
  | c :: l' =>
      if decide (c = sep) then word :: split_on sep [] l'
      else split_on sep (word ++ [c]) l'
  end.

End PyText.

(** ** The validators of [MenuItemCreate] and [OrderCreate] *)

(** [MenuItemCreate.validate_text_fields], on [name] and [category] *)
Definition validate_text_fields (v : string) : result string :=
  let v := PyText.remove_tags (PyStr.chars v) in
  let v := PyText.normalize_spaces v in
  match v with
  | [] => Raise (ValueError "Field cannot be empty after sanitization")
  | _ => Ok (PyStr.of_chars v)
  end.

Definition valid_extensions : list string :=
  [ ".jpg"; ".jpeg"; ".png"; ".gif"; ".webp"; ".svg" ]%string.

(** [MenuItemCreate.validate_url], on the optional [image_url] *)
Definition validate_url (v : option string) : result (option string) :=
  match v with
  | None => Ok v
  | Some s =>
      if decide (s = ""%string) then Ok v
      else
        let l := PyStr.chars s in
        if negb (PyStr.is_prefix (PyStr.chars "http://") l
                 || PyStr.is_prefix (PyStr.chars "https://") l)
        then Raise (ValueError "Image URL must start with http:// or https://")
        else if negb (existsb
                  (λ ext,
                     PyText.endswith (PyStr.chars ext) (PyStr.lower l)
                     || PyStr.contains (PyStr.chars ext ++ ["?"%char])
                                       (PyStr.lower l))
                  valid_extensions)
        then Raise (ValueError "URL must point to an image file")
        else Ok v
  end.

(** The class [[a-zA-Z\s\-']]. *)
Definition name_char (c : ascii) : bool :=
  PyText.is_ascii_letter c || PyStr.isspace c
  || bool_decide (c = "-"%char) || bool_decide (c = "'"%char).

(** [OrderCreate.validate_name]: [re.match(r"^[a-zA-Z\s\-']+$", v)], then
    [' '.join(v.split())]. *)
Definition validate_name (v : string) : result string :=
  let l := PyStr.chars v in
  if negb (match l with [] => false | _ => forallb name_char l end)
  then Raise (ValueError
         "Name can only contain letters, spaces, hyphens, and apostrophes")
  else Ok (PyStr.of_chars (PyText.normalize_spaces l)).

Definition blocked_domains : list string :=
  [ "tempmail.com"; "throwaway.email"; "guerrillamail.com" ]%string.

(** [OrderCreate.validate_email_domain]. [v.split('@')[1]] raises
    [IndexError] on a value without [@], which [EmailStr] has rejected
    before; the error is written as a plain exception. *)
Definition validate_email_domain (v : string) : result string :=
  match PyText.split_on "@"%char [] (PyStr.chars v) with
  | _ :: domain :: _ =>
      let domain := PyStr.of_chars (PyStr.lower domain) in
      if decide (domain ∈ blocked_domains)
      then Raise (ValueError "Disposable email addresses are not allowed")
      else Ok (PyStr.of_chars (PyStr.lower (PyStr.chars v)))
  | _ => Raise (PyException "list index out of range")
  end.

(** ** Vocabulary for the validators *)

(** The list holds a match of [<[^>]+>]. *)
Definition has_tag (l : list ascii) : Prop :=
  ∃ pre mid post,
    l = pre ++ "<"%char :: mid ++ ">"%char :: post
    ∧ mid ≠ [] ∧ ">"%char ∉ mid.

(** [l'] is [l] with some whitespace characters left out and the others
    replaced by a space. *)
Inductive squeezed : list ascii → list ascii → Prop :=
| squeezed_nil : squeezed [] []
| squeezed_keep c l l' :
    PyStr.isspace c = false → squeezed l l' → squeezed (c :: l) (c :: l')
| squeezed_drop c l l' :
    PyStr.isspace c = true → squeezed l l' → squeezed (c :: l) l'
| squeezed_space c l l' :
    PyStr.isspace c = true → squeezed l l' →
    squeezed (c :: l) (" "%char :: l').

(** A word: not empty, no whitespace. *)
Definition is_word (w : list ascii) : Prop :=
  w ≠ [] ∧ Forall (λ c, PyStr.isspace c = false) w.

(** No match of [<[^>]+>] starts at any position of the list. *)
Fixpoint tag_free (l : list ascii) : Prop :=
  match l with
  | [] => True
  | c :: l' => (c = "<"%char → PyText.tag_length l' = None) ∧ tag_free l'
  end.

(** ** Lemmas on Python strings *)

Section PyStrFacts.
Import PyStr.

Lemma chars_of_chars l : chars (of_chars l) = l.
Proof. apply list_ascii_of_string_of_list_ascii. Qed.

Lemma of_chars_chars s : of_chars (chars s) = s.
Proof. apply string_of_list_ascii_of_string. Qed.

Lemma length_chars s : length (chars s) = String.length s.
Proof. induction s as [|c s IH]; simpl; [done | by rewrite IH]. Qed.

Lemma dropwhile_length {A} (p : A → bool) l :
  (length (dropwhile p l) ≤ length l)%nat.
Proof. induction l as [|x l IH]; simpl; [lia|]. destruct (p x); simpl; lia. Qed.

Lemma dropwhile_sublist {A} (p : A → bool) l x :
  x ∈ dropwhile p l → x ∈ l.
Proof.
  induction l as [|y l IH]; simpl; [done|].
  destruct (p y); [|done]. intros H. right. by apply IH.
Qed.

Lemma dropwhile_head {A} (p : A → bool) l x rest :
  dropwhile p l = x :: rest → p x = false.
Proof.
  induction l as [|y l IH]; simpl; [done|].
  destruct (p y) eqn:E; [done|]. intros [= -> _]. done.
Qed.

Lemma dropwhile_id {A} (p : A → bool) l :
  (∀ x rest, l = x :: rest → p x = false) → dropwhile p l = l.
Proof.
  destruct l as [|y l]; simpl; [done|].
  intros H. by rewrite (H y l eq_refl).
Qed.

Lemma elem_of_rev {A} (l : list A) x : x ∈ rev l ↔ x ∈ l.
Proof. rewrite !list_elem_of_In. symmetry. apply in_rev. Qed.

Lemma strip_length l : (length (strip l) ≤ length l)%nat.
Proof.
  unfold strip, rstrip, lstrip. rewrite length_rev.
  etrans; [apply dropwhile_length|]. rewrite length_rev.
  apply dropwhile_length.
Qed.

Lemma strip_elem l x : x ∈ strip l → x ∈ l.
Proof.
  unfold strip, rstrip, lstrip. rewrite elem_of_rev. intros H.
  apply dropwhile_sublist in H. rewrite elem_of_rev in H.
  by apply dropwhile_sublist in H.
Qed.

Lemma rstrip_last l c init : rstrip l = init ++ [c] → isspace c = false.
Proof.
  unfold rstrip. intros H.
  assert (E : dropwhile isspace (rev l) = c :: rev init).
  { rewrite <- (rev_involutive (dropwhile _ _)), H, rev_app_distr. done. }
  by apply dropwhile_head in E.
Qed.

(** Dropping a suffix keeps the head of what is left. *)
Lemma rstrip_head l x rest :
  rstrip l = x :: rest → ∃ rest', l = x :: rest'.
Proof.
  unfold rstrip.
  assert (G : ∀ m, ∃ pre, m = pre ++ dropwhile isspace m).
  { induction m as [|y m [pre IH]]; simpl; [by exists []|].
    destruct (isspace y); [|by exists []].
    exists (y :: pre). simpl. by rewrite <- IH. }
  intros H. destruct (G (rev l)) as [pre E].
  apply (f_equal (@rev ascii)) in E.
  rewrite rev_involutive, rev_app_distr, H in E.
  rewrite E. simpl. eauto.
Qed.

Lemma strip_first l c rest : strip l = c :: rest → isspace c = false.
Proof.
  unfold strip. intros H. apply rstrip_head in H as [rest' H].
  by apply dropwhile_head in H.
Qed.

Lemma strip_last l c init : strip l = init ++ [c] → isspace c = false.
Proof. unfold strip. apply rstrip_last. Qed.

Lemma strip_id l :
  (∀ c rest, l = c :: rest → isspace c = false) →
  (∀ c init, l = init ++ [c] → isspace c = false) →
  strip l = l.
Proof.
  intros Hf Hl. unfold strip, lstrip, rstrip.
  rewrite (dropwhile_id _ l Hf).
  rewrite dropwhile_id; [apply rev_involutive|].
  intros c rest E. apply (Hl c (rev rest)).
  rewrite <- (rev_involutive l), E. done.
Qed.

Lemma replace_null_free l : null ∉ replace_null l.
Proof. unfold replace_null. rewrite list_elem_of_filter. by intros [? _]. Qed.

Lemma replace_null_id l : null ∉ l → replace_null l = l.
Proof.
  unfold replace_null. induction l as [|x l IH]; [done|].
  rewrite not_elem_of_cons. intros [Hx Hl].
  rewrite filter_cons_True by done. by rewrite IH.
Qed.

Lemma slice_to_length n l : 0 ≤ n → (Z.of_nat (length (slice_to n l)) ≤ n).
Proof.
  intros Hn. unfold slice_to. destruct (Z.leb_spec 0 n); [|lia].
  rewrite length_take. lia.
Qed.

Lemma slice_to_elem n l x : x ∈ slice_to n l → x ∈ l.
Proof.
  unfold slice_to. destruct (0 <=? n); intros H;
    by apply (subseteq_take _ l) in H.
Qed.

Lemma slice_to_id n l : Z.of_nat (length l) ≤ n → slice_to n l = l.
Proof.
  intros H. unfold slice_to. destruct (Z.leb_spec 0 n); [|lia].
  apply take_ge. lia.
Qed.

Lemma contains_spec p l :
  contains p l = true ↔ ∃ pre post, l = pre ++ p ++ post.
Proof.
  assert (P : ∀ p l, is_prefix p l = true ↔ ∃ post, l = p ++ post).
  { clear. induction p as [|a p IH]; intros l; simpl.
    - split; eauto.
    - destruct l as [|b l]; [split; [done | intros [? [=]]]|].
      case_decide as E.
      + subst b. rewrite IH. split; intros [post H]; exists post; congruence.
      + split; [done | intros [? [=]]; congruence]. }
  induction l as [|b l IH]; simpl.
  - rewrite orb_false_r, P. split.
    + intros [post H]. by exists [], post.
    + intros (pre & post & H). symmetry in H.
      apply app_eq_nil in H as [-> H]. exists post. by simpl in H.
  - rewrite orb_true_iff, P, IH. split.
    + intros [[post H] | (pre & post & H)].
      * by exists [], post.
      * exists (b :: pre), post. by rewrite H.
    + intros (pre & post & H). destruct pre as [|c pre]; simpl in H.
      * left; eauto.
      * right. injection H as -> ->. eauto.
Qed.

End PyStrFacts.

(** ** Properties of [sanitize_string] *)

(** C10. For every input string, [sanitize_string] with [max_length] 255
    returns a string of at most 255 characters, without null bytes, without
    leading or trailing whitespace, and applying it a second time changes
    nothing. *)
Theorem sanitize_string_255 (value : string) :
  let r := sanitize_string value 255 in
  ((Z.of_nat (String.length r) ≤ 255)
   ∧ (PyStr.null ∉ PyStr.chars r)
   ∧ (∀ c rest, PyStr.chars r = c :: rest → PyStr.isspace c = false)
   ∧ (∀ c init, PyStr.chars r = init ++ [c] → PyStr.isspace c = false)
   ∧ sanitize_string r 255 = r).
Proof.
  intros r.
  assert (Hlen : Z.of_nat (String.length r) ≤ 255).
  { subst r. unfold sanitize_string. case_decide; [simpl; lia|].
    rewrite <- length_chars, chars_of_chars.
    pose proof (strip_length
      (PyStr.slice_to 255 (PyStr.replace_null (PyStr.chars value)))).
    pose proof (slice_to_length 255
      (PyStr.replace_null (PyStr.chars value))). lia. }
  assert (Hnull : PyStr.null ∉ PyStr.chars r).
  { subst r. unfold sanitize_string. case_decide as E; [simpl; apply not_elem_of_nil|].
    rewrite chars_of_chars. intros H.
    apply strip_elem, slice_to_elem in H. by apply replace_null_free in H. }
  assert (Hfirst : ∀ c rest, PyStr.chars r = c :: rest → PyStr.isspace c = false).
  { subst r. unfold sanitize_string. case_decide; [done|].
    rewrite chars_of_chars. apply strip_first. }
  assert (Hlast : ∀ c init, PyStr.chars r = init ++ [c] → PyStr.isspace c = false).
  { subst r. unfold sanitize_string. case_decide as E.
    - intros c init H. simpl in H. by destruct init.
    - rewrite chars_of_chars. apply strip_last. }
  repeat split; try done.
  unfold sanitize_string at 1. case_decide as E; [done|].
  rewrite replace_null_id by done.
  rewrite slice_to_id by (rewrite length_chars; lia).
  rewrite strip_id by done. apply of_chars_chars.
Qed.

(** ** [OrderCreate.validate_items] *)

Section ValidateItems.

Lemma size_list_to_set_le (l : list string) :
  (size (list_to_set l : gset string) ≤ length l)%nat.
Proof.
  induction l as [|x l IH].
  - rewrite list_to_set_nil, size_empty. done.
  - rewrite list_to_set_cons, size_union_alt, size_singleton.
    rewrite length_cons.
    pose proof (subseteq_size (list_to_set l ∖ {[x]}) (list_to_set l : gset string)
                  (subseteq_difference_l _ _ _ (reflexivity _))). lia.
Qed.

Lemma list_to_set_size_NoDup (l : list string) :
  size (list_to_set l : gset string) = length l → NoDup l.
Proof.
  induction l as [|x l IH]; [constructor|].
  rewrite list_to_set_cons, length_cons.
  intros Hsz. destruct (decide (x ∈ l)) as [Hin|Hnin].
  - exfalso.
    assert (E : ({[x]} ∪ list_to_set l : gset string) = list_to_set l).
    { apply subseteq_union_1_L, singleton_subseteq_l, elem_of_list_to_set, Hin. }
    rewrite E in Hsz. pose proof (size_list_to_set_le l). lia.
  - rewrite size_union in Hsz
      by (apply disjoint_singleton_l; by rewrite elem_of_list_to_set).
    rewrite size_singleton in Hsz.
    constructor; [done|]. apply IH. lia.
Qed.

Lemma validate_items_Ok (v : list OrderItemCreate) :
  NoDup (map item_id v) ↔ validate_items v = Ok v.
Proof.
  unfold validate_items. case_decide as E; split; try done.
  - intros Hnd. destruct E. by rewrite size_list_to_set.
  - intros _. apply list_to_set_size_NoDup.
    destruct (decide (size (list_to_set (map item_id v) : gset string)
                      = length (map item_id v))); [done|].
    destruct E. congruence.
Qed.

End ValidateItems.

(** C2. An items list with two lines (at different positions) carrying the
    same menu-item ID is rejected with the duplication error, whatever the
    names, prices and quantities of the two lines; and a list that
    [validate_items] accepts is returned as it is and has no two lines with
    the same ID. *)
Theorem validate_items_unique (v : list OrderItemCreate) :
  (∀ i j a b, i ≠ j → v !! i = Some a → v !! j = Some b →
              item_id a = item_id b →
              validate_items v = Raise (ValueError duplicate_items_msg))
  ∧ mentions_duplication (ValueError duplicate_items_msg) = true
  ∧ (∀ v', validate_items v = Ok v' → v' = v ∧ NoDup (map item_id v')).
Proof.
  split; [|split; [reflexivity|]].
  - intros i j a b Hij Ha Hb Hid.
    unfold validate_items. case_decide as E; [done|]. exfalso.
    assert (Hnd : NoDup (map item_id v)).
    { apply list_to_set_size_NoDup.
      destruct (decide (size (list_to_set (map item_id v) : gset string)
                        = length (map item_id v))); [done|].
      destruct E. congruence. }
    apply Hij. eapply NoDup_lookup; [exact Hnd| |].
    + rewrite list_lookup_fmap, Ha. reflexivity.
    + rewrite list_lookup_fmap, Hb. simpl. by rewrite Hid.
  - intros v' H. unfold validate_items in H. case_decide as E; [done|].
    injection H as <-. split; [done|]. apply list_to_set_size_NoDup.
    destruct (decide (size (list_to_set (map item_id v) : gset string)
                      = length (map item_id v))); [done|].
    destruct E. congruence.
Qed.

Lemma validate_items_unique_witness :
  let kabob := {| item_id := "6f1c0a52-4d3e-4b8a-9a51-0c2d7e9b1f10";
                  item_name := "Beef Kabob"; item_price := 14.99%Q;
                  item_quantity := 1 |} in
  let again := {| item_id := "6f1c0a52-4d3e-4b8a-9a51-0c2d7e9b1f10";
                  item_name := "Beef"; item_price := 1.50%Q;
                  item_quantity := 7 |} in
  validate_items [kabob; again] = Raise (ValueError duplicate_items_msg)
  ∧ NoDup (map item_id [kabob]).
Proof.
  intros kabob again. split.
  - apply (proj1 (validate_items_unique [kabob; again]) 0%nat 1%nat kabob again);
      [discriminate | reflexivity | reflexivity | reflexivity].
  - apply (proj2 (proj2 (validate_items_unique [kabob])) [kabob]). reflexivity.
Defined.

(** ** [MenuItemCreate.validate_price] *)

Section ValidatePrice.
Open Scope Q_scope.

Lemma round_half_even_bounds (x : Q) :
  (Qfloor x ≤ round_half_even x ≤ Qfloor x + 1)%Z.
Proof.
  unfold round_half_even.
  destruct (x - inject_Z (Qfloor x) ?= 1 # 2); [destruct (Z.even _)| |]; lia.
Qed.

Lemma round_half_even_integer (n : Z) : round_half_even (inject_Z n) = n.
Proof.
  unfold round_half_even. rewrite Qfloor_Z.
  assert (E : inject_Z n - inject_Z n == 0) by ring.
  rewrite E. reflexivity.
Qed.

Lemma round_half_even_le (x : Q) (n : Z) :
  x <= inject_Z n → (round_half_even x ≤ n)%Z.
Proof.
  intros Hx. pose proof (round_half_even_bounds x) as [_ Hub].
  pose proof (Qfloor_resp_le _ _ Hx) as Hf. rewrite Qfloor_Z in Hf.
  destruct (decide (Qfloor x = n)) as [E|NE]; [|lia].
  (* the floor is already n: x = n, an integer *)
  assert (Hxn : x == inject_Z n).
  { apply Qle_antisym; [done|]. rewrite <- E. apply Qfloor_le. }
  rewrite (Qfloor_comp _ _ Hxn) in E.
  unfold round_half_even. rewrite (Qfloor_comp _ _ Hxn), Qfloor_Z.
  assert (E0 : x - inject_Z n == 0) by (rewrite Hxn; ring).
  rewrite E0. simpl. lia.
Qed.

(** What the validator does establish: the result is a multiple of 1/100
    between 0 and 10000, both included. *)
Lemma validate_price_accepted (v r : Q) :
  validate_price v = Ok r →
  0 < v ∧ v <= 10000 ∧
  ∃ n : Z, r = inject_Z n / 100 ∧ (0 ≤ n ≤ 1000000)%Z.
Proof.
  unfold validate_price.
  destruct (Qle_bool v 0) eqn:E0; [done|].
  destruct (Qle_bool v 10000) eqn:E1; [|done]. simpl.
  intros [= <-].
  assert (H0 : 0 < v).
  { apply Qnot_le_lt. intros H. apply Qle_bool_iff in H. congruence. }
  apply Qle_bool_iff in E1.
  repeat split; try done.
  exists (round_half_even (v * 100)). split; [reflexivity|]. split.
  - pose proof (round_half_even_bounds (v * 100)) as [Hlb _].
    assert (0 <= v * 100) by (apply Qmult_le_0_compat; [by apply Qlt_le_weak | done]).
    pose proof (Qfloor_resp_le _ _ H) as Hf.
    change (Qfloor 0) with 0%Z in Hf. lia.
  - apply round_half_even_le.
    assert (E : inject_Z 1000000 == 10000 * 100) by reflexivity.
    rewrite E. apply Qmult_le_compat_r; done.
Qed.

Lemma validate_price_rejected (v : Q) :
  ¬ (0 < v ∧ v <= 10000) → ∃ msg, validate_price v = Raise (ValueError msg).
Proof.
  intros H. unfold validate_price.
  destruct (Qle_bool v 0) eqn:E0; [eauto|].
  destruct (Qle_bool v 10000) eqn:E1; simpl; [|eauto].
  destruct H. split; [|by apply Qle_bool_iff].
  apply Qnot_le_lt. intros H. apply Qle_bool_iff in H. congruence.
Qed.

End ValidatePrice.

(** C5 (the input on which the code departs from the claim). The price
    1/1024 = 0.0009765625 is positive and below the maximum, so
    [validate_price] accepts it; the value it returns is [round(v, 2)],
    which is zero, not a positive price. *)
Theorem validate_price_small_price_becomes_zero :
  ∃ r : Q, validate_price (1 # 1024) = Ok r ∧ (r == 0)%Q ∧ ¬ (0 < r)%Q.
Proof.
  exists (inject_Z 0 / 100)%Q. split; [reflexivity|]. split; [reflexivity|].
  intros H. discriminate H.
Qed.

(** ** The request middleware *)

Section ValidateRequest.

Lemma scan_patterns_spec (u : string) :
  existsb (λ pattern,
     PyStr.contains (PyStr.lower (PyStr.chars pattern))
                    (PyStr.lower (PyStr.chars u)))
    suspicious_patterns = true
  ↔ url_has_signature u.
Proof.
  rewrite existsb_exists. unfold url_has_signature. split.
  - intros (p & Hin & Hc). apply contains_spec in Hc as (pre & post & E).
    exists p, pre, post. by rewrite list_elem_of_In.
  - intros (p & pre & post & Hin & E). exists p.
    rewrite <- list_elem_of_In. split; [done|].
    apply contains_spec. eauto.
Qed.

Lemma declares_oversize_spec (request : Request) :
  declares_oversize request ↔
  ∃ cl size, content_length request = Some cl ∧ cl ≠ ""%string
             ∧ py_int cl = Some size ∧ (max_request_size <? size) = true.
Proof.
  unfold declares_oversize, max_request_size. split.
  - intros (cl & size & Hcl & Hint & Hsz). exists cl, size.
    repeat split; try done.
    + intros ->. discriminate Hint.
    + by apply Z.ltb_lt.
  - intros (cl & size & Hcl & _ & Hint & Hsz). exists cl, size.
    repeat split; try done. by apply Z.ltb_lt.
Qed.

End ValidateRequest.




(** ** Running programs *)

Section Run.
Context {W : Type} (D : Driver W).

Lemma events_between_app (s s' : state W) evs :
  trace s' = trace s ++ evs → events_between s s' = evs.
Proof. unfold events_between. intros ->. by rewrite drop_app_length. Qed.

End Run.

(** Unfold one layer of the monad. *)
Ltac unfold_monad :=
  unfold mbind, mret, M_bind, M_ret, raise, try_except, try_finally,
    get_manager, set_manager, lift, datetime_now, conn_closed in *.

(** Unfold the driver calls down to the driver's own functions. *)
Ltac unfold_prims :=
  unfold generate_token, connect, conn_close, get_transaction_status,
    conn_rollback, conn_commit, conn_cursor, execute, fetchone, fetchall,
    cursor_close, uuid4, prim in *.

Ltac norm :=
  cbn [world dsql_manager trace fst snd connection token token_expires_at] in *.

Ltac destruct_call op :=
  let r := fresh "r" in let w := fresh "w" in let E := fresh "E" in
  destruct op as [r w] eqn:E; destruct r; norm.

(** Case analysis on the reply to the next driver call of the run [H]. *)
Ltac driver_step H D :=
  match type of H with
  | context [drv_generate_token D ?w] => destruct_call (drv_generate_token D w)
  | context [drv_connect D ?p ?w] => destruct_call (drv_connect D p w)
  | context [drv_close D ?c ?w] => destruct_call (drv_close D c w)
  | context [drv_get_transaction_status D ?c ?w] =>
      destruct_call (drv_get_transaction_status D c w)
  | context [drv_rollback D ?c ?w] => destruct_call (drv_rollback D c w)
  | context [drv_commit D ?c ?w] => destruct_call (drv_commit D c w)
  | context [drv_cursor D ?c ?w] => destruct_call (drv_cursor D c w)
  | context [drv_execute D ?c ?q ?w] => destruct_call (drv_execute D c q w)
  | context [drv_fetchone D ?c ?w] => destruct_call (drv_fetchone D c w)
  | context [drv_fetchall D ?c ?w] => destruct_call (drv_fetchall D c w)
  | context [drv_cursor_close D ?c ?w] => destruct_call (drv_cursor_close D c w)
  | context [drv_uuid4 D ?w] =>
      let u := fresh "u" in let w' := fresh "w" in let E := fresh "E" in
      destruct (drv_uuid4 D w) as [u w'] eqn:E; norm
  end.

(** Bring the events between two states to a literal list. *)
Ltac simpl_events :=
  unfold events_between in *; norm;
  rewrite <- ?app_assoc; rewrite ?drop_app_length; cbn [app].

(** ** The session manager *)

Section SessionManager.
Context {W : Type} (D : Driver W).

(** The test at the head of [get_connection] changes nothing and never
    raises; it finds the connection usable exactly when no refresh is
    needed. *)
Lemma usable_connection_spec (s : state W) :
  manager_wf (dsql_manager s) →
  ∃ o, usable_connection D s = (Ok o, s)
       ∧ match o with
         | None => needs_refresh D s
         | Some c =>
             ¬ needs_refresh D s
             ∧ connection (dsql_manager s) = Some c
             ∧ ∃ expires, token_expires_at (dsql_manager s) = Some expires
                          ∧ drv_now D (world s) < expires
         end.
Proof.
  intros Hwf. destruct s as [w [cn tk ex] t].
  unfold manager_wf, needs_refresh, usable_connection in *.
  unfold_monad. norm.
  destruct tk as [tok0|]; [|exists None; auto].
  destruct ex as [ex0|]; [|by destruct Hwf as [_ Hwf]; specialize (Hwf eq_refl)].
  norm.
  destruct (Z.leb_spec ex0 (drv_now D w)) as [Hle|Hlt].
  { exists None. split; [done|]. right; left. eauto. }
  destruct cn as [c|]; [|exists None; auto]. norm.
  case_decide as Hcl.
  { exists None. split; [done|]. do 3 right. eauto. }
  exists (Some c). split; [done|]. split; [|split; [done|eauto]].
  intros [?|[(e & [= <-] & ?)|[?|(c' & [= <-] & ?)]]]; try done. lia.
Qed.

End SessionManager.

(** Run [H] to its end, splitting on every driver reply and test. *)
Ltac exec H D :=
  repeat (norm;
          first [ driver_step H D
                | match type of H with
                  | context [decide ?P] => destruct (decide P)
                  end ]); norm.

(** C3, as the code has it. On every call of [get_connection] that starts
    from a well-formed manager: when a refresh is needed the first driver
    call asks for a fresh token and, if the call returns, the driver calls
    were the token request, the closing of the existing connection if it was
    open, and the opening of a connection with the new token as password,
    and the manager holds the new connection, the new token and an expiry
    [token_lifetime] after the clock reading taken with the token; when no
    refresh is needed the call returns the existing connection, the manager
    is unchanged, its expiry is later than the clock reading of the call,
    the only driver calls are the status check and rollbacks of that
    connection, and a rollback is issued exactly when the connection reports
    the in-error state or the status check raises. *)
Theorem get_connection_decision {W} (D : Driver W)
    (s : state W) (r : result conn) (s' : state W) :
  manager_wf (dsql_manager s) →
  get_connection D s = (r, s') →
  let evs := events_between s s' in
  trace s' = trace s ++ evs
  ∧ (needs_refresh D s →
       (∃ rep, evs !! 0%nat = Some (GenerateToken, rep))
       ∧ (∀ c', r = Ok c' → ∃ tok w1,
            drv_generate_token D (world s) = (Ok tok, w1)
            ∧ calls evs
              = [GenerateToken]
                ++ match connection (dsql_manager s) with
                   | Some c => if decide (drv_closed D c w1 = 0)
                               then [ConnClose c] else []
                   | None => []
                   end
                ++ [Connect tok]
            ∧ dsql_manager s'
              = {| connection := Some c'; token := Some tok;
                   token_expires_at := Some (drv_now D w1 + token_lifetime) |}
            ∧ drv_now D w1 < drv_now D w1 + token_lifetime))
  ∧ (¬ needs_refresh D s →
       ∃ c expires,
         connection (dsql_manager s) = Some c ∧ r = Ok c
         ∧ dsql_manager s' = dsql_manager s
         ∧ token_expires_at (dsql_manager s') = Some expires
         ∧ drv_now D (world s) < expires
         ∧ (∃ rep, evs !! 0%nat = Some (GetTransactionStatus c, rep))
         ∧ (∀ ev, ev ∈ evs →
              fst ev = GetTransactionStatus c ∨ fst ev = Rollback c)
         ∧ (Rollback c ∈ calls evs
            ↔ reports_in_error evs c ∨ status_check_raised evs c)).
Proof.
  intros Hwf H evs. subst evs.
  destruct (usable_connection_spec D s Hwf) as (o & Hu & Ho).
  unfold get_connection in H. unfold mbind at 1, M_bind at 1 in H.
  rewrite Hu in H. destruct s as [w mgr t].
  unfold reports_in_error, status_check_raised.
  destruct o as [c|].
  - (* the connection in use is returned *)
    destruct Ho as (Hno & Hc & expires & Hex & Hlt).
    unfold_monad. unfold_prims. norm.
    assert (G : ∀ P Q : Prop, (¬ needs_refresh D {| world := w; dsql_manager := mgr; trace := t |} → Q) →
                (needs_refresh D {| world := w; dsql_manager := mgr; trace := t |} → P) ∧
                (¬ needs_refresh D {| world := w; dsql_manager := mgr; trace := t |} → Q))
      by (intros P Q HQ; split; [intros ?; done | done]).
    exec H D; injection H as <- <-; simpl_events.
    all: split; [reflexivity|]; apply G; intros _; exists c, expires.
    all: cbn [calls map fst]; subst; repeat split; try done; eauto.
    all: set_solver.
  - (* a new token and a new connection *)
    unfold get_fresh_token in H. unfold_monad. unfold_prims. norm.
    assert (G : ∀ P Q : Prop, P →
                (needs_refresh D {| world := w; dsql_manager := mgr; trace := t |} → P) ∧
                (¬ needs_refresh D {| world := w; dsql_manager := mgr; trace := t |} → Q))
      by (intros P Q HP; split; [done | intros ?; done]).
    destruct mgr as [[c|] tk ex]; exec H D; injection H as <- <-; simpl_events.
    all: split; [reflexivity|]; apply G; split; [eauto|]; intros c' [= <-].
    all: eexists _, _; split; [reflexivity|].
    all: cbn [calls map fst app]; try case_decide; try done.
    all: repeat split; unfold token_lifetime; lia.
Qed.

Lemma get_connection_decision_witness :
  let s := Pg.boot (Pg.fresh 1000) in
  let run := get_connection Pg.driver s in
  trace run.2 = trace s ++ events_between s run.2
  ∧ run.1 = Ok 1%nat.
Proof.
  intros s run. split; [|reflexivity].
  apply (get_connection_decision Pg.driver s run.1 run.2).
  - split; reflexivity.
  - reflexivity.
Defined.

(** Well-formedness of the manager is an invariant of [get_connection], and
    holds at start-up. *)
Lemma get_connection_wf {W} (D : Driver W) (s : state W) r s' :
  manager_wf (dsql_manager s) → get_connection D s = (r, s') →
  manager_wf (dsql_manager s').
Proof.
  intros Hwf H.
  destruct (usable_connection_spec D s Hwf) as (o & Hu & Ho).
  unfold get_connection in H. unfold mbind at 1, M_bind at 1 in H.
  rewrite Hu in H. destruct s as [w [cn tk ex] t].
  destruct o as [c|].
  - unfold_monad. unfold_prims. exec H D; by injection H as <- <-.
  - unfold get_fresh_token in H. unfold_monad. unfold_prims.
    destruct cn; exec H D; injection H as <- <-; try done.
    all: split; intros [=].
Qed.

Lemma dsql_manager_init_wf : manager_wf dsql_manager_init.
Proof. split; reflexivity. Qed.

(** C3 (counterexample). A connected process whose driver raises on the
    status check: no refresh is needed, the existing connection is returned,
    and a rollback was issued although the connection did not report the
    in-error state. *)
Lemma get_connection_rollback_without_in_error :
  let s := Scenario.connected_status_unknown in
  ∃ c s', get_connection Pg.driver s = (Ok c, s')
          ∧ manager_wf (dsql_manager s)
          ∧ ¬ needs_refresh Pg.driver s
          ∧ Rollback c ∈ calls (events_between s s')
          ∧ ¬ reports_in_error (events_between s s') c.
Proof.
  intros s. exists 1%nat, (get_connection Pg.driver s).2.
  split; [reflexivity|]. split; [split; intros [=]|]. split; [|split].
  - intros [H|[(e & H & Hle)|[H|(c & H & Hcl)]]].
    + discriminate H.
    + injection H as <-. vm_compute in Hle. by apply Hle.
    + discriminate H.
    + injection H as <-. by apply Hcl.
  - vm_compute. set_solver.
  - unfold reports_in_error. vm_compute. set_solver.
Qed.
(** Split a literal list of events into what came before its last two. *)
Ltac split_failing_tail rest :=
  let try_with pre := (pre; rest; (split; [reflexivity|])) in
  first [ try_with ltac:(exists [])
        | try_with ltac:(eexists [_])
        | try_with ltac:(eexists [_; _])
        | try_with ltac:(eexists [_; _; _])
        | try_with ltac:(eexists [_; _; _; _])
        | try_with ltac:(eexists [_; _; _; _; _])
        | try_with ltac:(eexists [_; _; _; _; _; _])
        | try_with ltac:(eexists [_; _; _; _; _; _; _]) ].

Section SessionCalls.
Context {W : Type} (D : Driver W).

(** Whatever its outcome, [get_connection] only adds session calls to
    the trace. *)
Lemma get_connection_calls (s : state W) r s' :
  get_connection D s = (r, s') →
  ∃ evs, trace s' = trace s ++ evs
         ∧ forallb is_session_call (calls evs) = true.
Proof.
  intros H. destruct s as [w [cn tk ex] t].
  unfold get_connection, usable_connection, get_fresh_token in H.
  unfold_monad. unfold_prims. norm.
  destruct tk, ex, cn; norm;
    try destruct (Z.leb_spec z (drv_now D w)); exec H D;
    injection H as <- <-; norm; rewrite <- ?app_assoc;
    try (eexists; split; [reflexivity|reflexivity]).
  all: exists []; by rewrite app_nil_r.
Qed.

Lemma drop_extended (t t1 evs l : list event) :
  t1 = t ++ evs → drop (length t) (t1 ++ l) = evs ++ l.
Proof. intros ->. by rewrite <- app_assoc, drop_app_length. Qed.

Lemma ddl_discipline_session_calls cs rest n :
  forallb is_session_call cs = true →
  ddl_discipline n rest = true → ddl_discipline 0 rest = true →
  ddl_discipline n (cs ++ rest) = true.
Proof.
  revert n. induction cs as [|c cs IH]; intros n Hcs Hn H0; simpl; [done|].
  simpl in Hcs. apply andb_prop in Hcs as [Hc Hcs].
  destruct c; try discriminate Hc; auto.
Qed.

End SessionCalls.

(** C7. In every run of [ensure_tables_exist]: no transaction holds more
    than one schema-change statement; a run that returns has made, after
    obtaining the connection, exactly the calls create menu_items, commit,
    create orders, commit, none of which raised; and when one of those calls
    raises, the next and last call is the rollback of the connection, after
    which the error of the failing call is raised again (the rollback's own
    error, should the rollback raise). A failure to obtain the connection is
    raised as it is. *)
Theorem ensure_tables_exist_transactions {W} (D : Driver W)
    (s : state W) (r : result bool) (s' : state W) :
  ensure_tables_exist D s = (r, s') →
  let evs := events_between s s' in
  trace s' = trace s ++ evs
  ∧ ddl_discipline 0 (calls evs) = true
  ∧ match get_connection D s with
    | (Raise e, s1) => r = Raise e ∧ s' = s1
    | (Ok conn, s1) =>
        let body := events_between s1 s' in
        trace s' = trace s1 ++ body
        ∧ (∀ b, r = Ok b →
             b = true
             ∧ existsb raised body = false
             ∧ ∃ cur1 cur2, calls body = ensure_tables_calls conn cur1 cur2)
        ∧ (∀ e, r = Raise e →
             ∃ done failing e0 rb cur1 cur2,
               body = done ++ [(failing, RRaise e0); (Rollback conn, rb)]
               ∧ existsb raised done = false
               ∧ calls done ++ [failing]
                 `prefix_of` ensure_tables_calls conn cur1 cur2
               ∧ match rb with RRaise e' => e = e' | _ => e = e0 end)
    end.
Proof.
  intros H evs. subst evs.
  unfold ensure_tables_exist in H. unfold mbind at 1, M_bind at 1 in H.
  destruct (get_connection D s) as [[conn|e] s1] eqn:Hgc.
  2:{ injection H as <- <-.
      apply get_connection_calls in Hgc as (evs & Ht & Hcalls).
      rewrite (events_between_app s s1 evs Ht). repeat split; try done.
      rewrite <- (app_nil_r (calls evs)).
      by apply ddl_discipline_session_calls. }
  apply get_connection_calls in Hgc as (evs & Ht & Hcalls).
  destruct s as [w m t], s1 as [w1 m1 t1]. norm.
  unfold_monad. unfold_prims.
  exec H D; injection H as <- <-; simpl_events.
  all: rewrite (drop_extended t t1 evs _ Ht).
  all: split; [by rewrite Ht, <- app_assoc|].
  all: split; [unfold calls; rewrite map_app;
               by apply ddl_discipline_session_calls|].
  all: split; [reflexivity|]; split; [intros b [=]|intros e' [=]]; subst.
  { repeat split; eauto. }
  all: split_failing_tail ltac:(eexists _, _, _, _, _).
  all: split; [reflexivity|]; split; [|reflexivity].
  all: eexists; unfold ensure_tables_calls; cbn [calls map fst app]; reflexivity.
  Unshelve.
  all: exact {| cursor_connection := 0%nat; cursor_serial := 0%nat |}.
Qed.

Lemma ensure_tables_exist_transactions_witness :
  let s := Pg.boot (Pg.fresh 1000) in
  let run := ensure_tables_exist Pg.driver s in
  ddl_discipline 0 (calls (events_between s run.2)) = true ∧ run.1 = Ok true.
Proof.
  intros s run. split; [|reflexivity].
  exact (proj1 (proj2
    (ensure_tables_exist_transactions Pg.driver s run.1 run.2 eq_refl))).
Defined.

(** ** The read paths *)

Section ReadPaths.
Context {W : Type} (D : Driver W).

Lemma run_bind {A B} (m : M W A) (k : A → M W B) (s : state W) :
  (m ≫= k) s = match m s with
               | (Ok a, s') => k a s'
               | (Raise e, s') => (Raise e, s')
               end.
Proof. reflexivity. Qed.

Lemma collect_lift {A} (f : row → result A) (rows : list row) (s : state W) :
  collect (W:=W) rows (λ row s, (f row, s)) s = (convert_rows f rows, s).
Proof.
  induction rows as [|r rows IH]; [done|].
  cbn [collect convert_rows]. unfold_monad.
  destruct (f r); [|done]. rewrite IH.
  by destruct (convert_rows f rows).
Qed.

(** The fallback list never fails: it only draws identifiers. *)
Lemma get_sample_menu_items_spec (s : state W) :
  ∃ items evs w',
    get_sample_menu_items D s
    = (Ok items, {| world := w'; dsql_manager := dsql_manager s;
                    trace := trace s ++ evs |})
    ∧ is_sample_menu items
    ∧ calls evs = replicate 6 Uuid4.
Proof.
  destruct s as [w m t].
  unfold get_sample_menu_items, sample_items. cbn [collect].
  unfold_monad. unfold_prims. norm.
  repeat match goal with
         | |- context [drv_uuid4 D ?w] =>
             let u := fresh "u" in let w' := fresh "w" in
             destruct (drv_uuid4 D w) as [u w']; norm
         end.
  eexists _, _, _. rewrite <- !app_assoc. cbn [app].
  split; [reflexivity|]. split; [|reflexivity].
  split; [reflexivity|]. repeat constructor.
Qed.

End ReadPaths.

(** C4, as the code has it. A failure to obtain the connection or the cursor
    is raised by [get_menu_items] and [get_all_orders] as it is. Once both
    are obtained: every failure of a driver call or of a row conversion in
    the guarded part is followed by a rollback; a result returned after a
    rollback is the sample list ([get_menu_items]) or the empty list
    ([get_all_orders]); a result returned without rollback is the converted
    rows of a run in which nothing raised; and the only errors raised are
    those of the rollback and of the closing of the cursor in the handler. *)
Theorem read_paths_degrade {W} (D : Driver W) (s : state W) :
  match get_connection D s with
  | (Raise e, s1) =>
      get_menu_items D s = (Raise e, s1) ∧ get_all_orders D s = (Raise e, s1)
  | (Ok conn, s1) =>
      match conn_cursor D conn s1 with
      | (Raise e, s2) =>
          get_menu_items D s = (Raise e, s2)
          ∧ get_all_orders D s = (Raise e, s2)
      | (Ok cur, s2) =>
          (∀ r s', get_menu_items D s = (r, s') →
             let body := events_between s2 s' in
             (existsb raised body = true → Rollback conn ∈ calls body)
             ∧ (∀ rows e, (FetchAll cur, RRows rows) ∈ body →
                  convert_rows menu_item_of_row rows = Raise e →
                  Rollback conn ∈ calls body)
             ∧ match r with
               | Ok items =>
                   (Rollback conn ∈ calls body → is_sample_menu items)
                   ∧ (Rollback conn ∉ calls body →
                        existsb raised body = false
                        ∧ ∃ rows, (FetchAll cur, RRows rows) ∈ body
                          ∧ convert_rows menu_item_of_row rows = Ok items)
               | Raise e =>
                   Rollback conn ∈ calls body
                   ∧ (last body = Some (Rollback conn, RRaise e)
                      ∨ last body = Some (CursorClose cur, RRaise e))
               end)
          ∧ (∀ r s', get_all_orders D s = (r, s') →
               let body := events_between s2 s' in
               (existsb raised body = true → Rollback conn ∈ calls body)
               ∧ (∀ rows e, (FetchAll cur, RRows rows) ∈ body →
                    convert_rows order_of_row rows = Raise e →
                    Rollback conn ∈ calls body)
               ∧ match r with
                 | Ok orders =>
                     (Rollback conn ∈ calls body → orders = [])
                     ∧ (Rollback conn ∉ calls body →
                          existsb raised body = false
                          ∧ ∃ rows, (FetchAll cur, RRows rows) ∈ body
                            ∧ convert_rows order_of_row rows = Ok orders)
                 | Raise e =>
                     Rollback conn ∈ calls body
                     ∧ (last body = Some (Rollback conn, RRaise e)
                        ∨ last body = Some (CursorClose cur, RRaise e))
                 end)
      end
  end.
Proof.
  destruct (get_connection D s) as [[conn|e] s1] eqn:Hgc.
  2:{ unfold get_menu_items, get_all_orders. by rewrite !run_bind, Hgc. }
  destruct s1 as [w1 m1 t1]. unfold conn_cursor, prim. norm.
  destruct (drv_cursor D conn w1) as [[cur|e] w2] eqn:Hcur.
  2:{ unfold get_menu_items, get_all_orders. rewrite !run_bind, Hgc, !run_bind.
      unfold conn_cursor, prim. norm. by rewrite Hcur. }
  remember (t1 ++ [(Cursor conn, RCursor cur)]) as t2 eqn:Ht2.
  split; intros r s' H.
  - unfold get_menu_items in H. rewrite run_bind, Hgc in H.
    unfold_monad. unfold_prims. norm.
    rewrite Hcur, <- Ht2 in H. clear Hgc Hcur Ht2.
    exec H D; rewrite ?collect_lift in H;
      try (destruct (convert_rows menu_item_of_row _) eqn:Hconv); exec H D.
    all: try match type of H with
             | get_sample_menu_items ?D' ?st = _ =>
                 destruct (get_sample_menu_items_spec D' st)
                   as (items & evs & w' & Hs & Hsm & Hc);
                 rewrite Hs in H
             end.
    all: injection H as <- <-; simpl_events.
    all: cbn [calls map fst existsb raised snd orb last].
    all: split; [try done; intros _; set_solver|].
    all: split; [intros rows e' Hin Hc';
                 first [ set_solver
                       | assert (rows = a0) by set_solver; congruence ]|].
    all: split; [try done; try set_solver|].
    all: try (by auto).
    all: intros Hn;
      first [ by (exfalso; apply Hn; set_solver)
            | split; [done|]; eexists; split; [|eassumption]; set_solver ].
  - unfold get_all_orders in H. rewrite run_bind, Hgc in H.
    unfold_monad. unfold_prims. norm.
    rewrite Hcur, <- Ht2 in H. clear Hgc Hcur Ht2.
    exec H D; rewrite ?collect_lift in H;
      try (destruct (convert_rows order_of_row _) eqn:Hconv); exec H D.
    all: injection H as <- <-; simpl_events.
    all: cbn [calls map fst existsb raised snd orb last].
    all: split; [try done; intros _; set_solver|].
    all: split; [intros rows e' Hin Hc';
                 first [ set_solver
                       | assert (rows = a0) by set_solver; congruence ]|].
    all: split; [try done; try set_solver|].
    all: try (by auto).
    all: intros Hn;
      first [ by (exfalso; apply Hn; set_solver)
            | split; [done|]; eexists; split; [|eassumption]; set_solver ].
Qed.

(** C4 (counterexample). With the token service down the connection cannot
    be obtained: both read paths raise, and the menu endpoint answers with
    an HTTP 500 error instead of the sample list. *)
Lemma read_paths_raise_without_connection :
  let s := Scenario.no_token_service in
  (get_menu_items Pg.driver s).1 = Raise (DriverError "driver call failed")
  ∧ (get_all_orders Pg.driver s).1 = Raise (DriverError "driver call failed")
  ∧ (get_menu Pg.driver s).1
    = Raise (HTTPException 500 "Database error: driver call failed")
  ∧ (get_orders_endpoint Pg.driver s).1
    = Raise (HTTPException 500 "Failed to retrieve orders: driver call failed").
Proof. repeat split; vm_compute; reflexivity. Qed.

Lemma read_paths_degrade_witness :
  let s := Pg.boot (Pg.fresh 1000) in
  ∃ items, (get_menu_items Pg.driver s).1 = Ok items ∧ is_sample_menu items.
Proof.
  intros s. pose proof (read_paths_degrade Pg.driver s) as H.
  vm_compute in H. destruct H as [H _].
  specialize (H _ _ eq_refl). destruct H as (_ & _ & H & _).
  eexists. split; [vm_compute; reflexivity|].
  apply H. set_solver.
Defined.

(** ** The order workflow *)

(** Run [H] to its end, also splitting on the rows that came back. *)
Ltac exec_rows H D :=
  repeat (norm;
          first [ driver_step H D
                | match type of H with
                  | context [decide ?P] => destruct (decide P)
                  | context [match ?x with _ => _ end] => is_var x; destruct x
                  end ]); norm.

Section OrderWorkflow.
Context {W : Type} (D : Driver W).

Lemma order_total_sum (l : list OrderItemCreate) :
  (order_total l == sum_price_times_quantity l)%Q.
Proof.
  unfold order_total.
  assert (G : ∀ acc,
    (fold_left (λ acc item, acc + item_price item * inject_Z (item_quantity item))
               l acc == acc + sum_price_times_quantity l)%Q).
  { induction l as [|x l IH]; intros acc; simpl; [ring|].
    rewrite IH. ring. }
  rewrite G. ring.
Qed.

(** A state that only gained events cannot precede an older one. *)
Lemma events_between_older (s s2 : state W) evs :
  trace s2 = trace s ++ evs → events_between s2 s = [].
Proof.
  intros E. unfold events_between. rewrite E. apply drop_ge.
  rewrite length_app. lia.
Qed.

End OrderWorkflow.

(** C6, as the code has it. In a run of [create_order] that has its
    connection and cursor, when the re-query by the generated ID (the
    seventh and eighth driver calls) returns no row, the next call queries
    the most recent order; if that query returns a row, an order that
    [create_order] returns is the record of that row, whatever its customer
    and total, and it is returned unless a later call raises; if it returns
    no row either, [create_order] rolls back and raises, with the error
    that the order could not be retrieved unless the cleanup itself
    raises. *)
Theorem create_order_fallback {W} (D : Driver W)
    (name email : string) (items : list ItemDict.t) (total : Q)
    (s s1 s2 s' : state W) (conn : conn) (cur : cursor)
    (r : result Order.t) (id : string) :
  get_connection D s = (Ok conn, s1) →
  conn_cursor D conn s1 = (Ok cur, s2) →
  create_order D name email items total s = (r, s') →
  let body := events_between s2 s' in
  body !! 6%nat = Some (Execute cur (SelectOrderById id), RNone) →
  body !! 7%nat = Some (FetchOne cur, RRow None) →
  (∃ rep, body !! 8%nat = Some (Execute cur SelectLatestOrder, rep))
  ∧ (∀ row, body !! 9%nat = Some (FetchOne cur, RRow (Some row)) →
       (∀ o, r = Ok o → order_of_row row = Ok o)
       ∧ (∀ o, order_of_row row = Ok o →
            existsb raised (drop 10 body) = false → r = Ok o))
  ∧ (body !! 9%nat = Some (FetchOne cur, RRow None) →
       (∃ rb, body !! 10%nat = Some (Rollback conn, rb))
       ∧ (∃ e, r = Raise e)
       ∧ (existsb raised (drop 10 body) = false →
          r = Raise (PyException
            "Order was created but could not be retrieved - no orders in database"))).
Proof.
  intros Hgc Hcur H.
  destruct (get_connection_calls D s _ _ Hgc) as (evs0 & Ht1 & _).
  destruct s1 as [w1 m1 t1]. unfold conn_cursor, prim in Hcur. norm.
  destruct (drv_cursor D conn w1) as [[cur'|e] w2] eqn:Hcur'; [|done].
  injection Hcur as -> <-.
  assert (Hold : events_between
            {| world := w2; dsql_manager := m1;
               trace := t1 ++ [(Cursor conn, RCursor cur)] |} s = []).
  { apply (events_between_older _ _ (evs0 ++ [(Cursor conn, RCursor cur)])).
    norm. by rewrite Ht1, app_assoc. }
  remember (t1 ++ [(Cursor conn, RCursor cur)]) as t2 eqn:Ht2.
  unfold create_order in H.
  repeat match type of H with
         | context [decide ?P] => destruct (decide P)
         | context [Qle_bool ?a ?b || ?c] => destruct (Qle_bool a b || c)
         end;
    try (injection H as <- <-; rewrite Hold; done).
  rewrite run_bind, Hgc in H. unfold_monad. unfold_prims. norm.
  rewrite Hcur', <- Ht2 in H. clear Hgc Hcur' Ht2 Hold Ht1.
  unfold row_count, order_of_row in H.
  exec_rows H D.
  all: injection H as <- <-; simpl_events.
  all: intros H6 H7; try discriminate H6; try discriminate H7.
  all: split; [by eexists|].
  all: split; [intros row H9 | intros H9]; try discriminate H9.
  all: try (injection H9 as <-); cbn [drop existsb raised snd orb].
  all: repeat split; eauto; try done; try (by intros ? [= <-]).
Qed.

Lemma create_order_fallback_witness :
  let s := Scenario.stale_reads in
  let run := create_order Pg.driver "Bob Jones" "bob@example.org"
                          Scenario.bob_items 9.99%Q s in
  let s1 := (get_connection Pg.driver s).2 in
  let cur := {| cursor_connection := 1%nat; cursor_serial := 5%nat |} in
  let s2 := (conn_cursor Pg.driver 1%nat s1).2 in
  ∃ rep, events_between s2 run.2 !! 8%nat
         = Some (Execute cur SelectLatestOrder, rep).
Proof.
  intros s run s1 cur s2.
  refine (proj1 (create_order_fallback Pg.driver "Bob Jones" "bob@example.org"
            Scenario.bob_items 9.99%Q s s1 s2 run.2 1%nat cur run.1
            "00000000-0000-4000-8000-9" _ _ _ _ _)).
  all: vm_compute; reflexivity.
Defined.

(** C6 (counterexample). Alice's order is committed; Bob's order is then
    created while queries do not see the rows of the open transaction. The
    re-query by Bob's order ID finds no row, the most recent order that the
    fallback query sees is Alice's, and [create_order] returns her record:
    name, email and total are not those of the order just inserted. *)
Lemma create_order_fallback_other_customer :
  let s := Scenario.stale_reads in
  let run := create_order Pg.driver "Bob Jones" "bob@example.org"
                          Scenario.bob_items 9.99%Q s in
  ∃ cur id o,
    events_between s run.2 !! 8%nat
      = Some (Execute cur (SelectOrderById id), RNone)
    ∧ events_between s run.2 !! 9%nat = Some (FetchOne cur, RRow None)
    ∧ run.1 = Ok o
    ∧ Order.customer_name o ≠ sanitize_string "Bob Jones" 255
    ∧ Order.customer_email o ≠ sanitize_string "bob@example.org" 255
    ∧ ¬ (Order.total_amount o == 9.99)%Q.
Proof.
  intros s run.
  exists {| cursor_connection := 1%nat; cursor_serial := 5%nat |},
         "00000000-0000-4000-8000-9"%string,
         {| Order.id := "00000000-0000-4000-8000-8";
            Order.customer_name := "Alice Smith";
            Order.customer_email := "alice@example.org";
            Order.items :=
              [ {| ItemDict.id := "3b241101-e2bb-4255-8caf-4136c566a962";
                   ItemDict.name := "Lamb Kabob"; ItemDict.price := 16.99%Q;
                   ItemDict.quantity := 2 |} ];
            Order.total_amount := (inject_Z 3398 / 100)%Q;
            Order.status := "pending";
            Order.created_at := Some 1000 |}.
  split; [vm_compute; reflexivity|]. split; [vm_compute; reflexivity|].
  split; [vm_compute; reflexivity|].
  split; [|split]; vm_compute; discriminate.
Qed.




(** ** Schema and seed data *)

Section Seeding.
Context {W : Type} (D : Driver W).

Lemma session_calls_quiet cs :
  forallb is_session_call cs = true → forallb is_quiet_call cs = true.
Proof.
  induction cs as [|c cs IH]; [done|]. simpl.
  intros [Hc Hcs]%andb_prop. rewrite IH by done.
  by destruct c.
Qed.

Lemma fetched_count_quiet (pre rest : list event) :
  forallb is_quiet_call (calls pre) = true →
  fetched_count (pre ++ rest) = fetched_count rest.
Proof.
  induction pre as [|[c rep] pre IH]; [done|]. simpl.
  intros [Hc Hpre]%andb_prop. rewrite <- IH by done.
  destruct c; try done.
Qed.

Lemma menu_dml_quiet cs :
  forallb is_quiet_call cs = true → existsb is_menu_dml_call cs = false.
Proof.
  induction cs as [|c cs IH]; [done|]. simpl.
  intros [Hc Hcs]%andb_prop. rewrite IH by done.
  destruct c; try done. simpl in *. by destruct (is_menu_dml q).
Qed.

Lemma get_connection_quiet (s : state W) r s' :
  get_connection D s = (r, s') →
  ∃ evs, trace s' = trace s ++ evs
         ∧ forallb is_quiet_call (calls evs) = true.
Proof.
  intros (evs & Ht & Hc)%get_connection_calls.
  exists evs. split; [done|]. by apply session_calls_quiet.
Qed.

(** [ensure_tables_exist] neither fetches nor writes to [menu_items]. *)
Lemma ensure_tables_exist_quiet (s : state W) r s' :
  ensure_tables_exist D s = (r, s') →
  ∃ evs, trace s' = trace s ++ evs
         ∧ forallb is_quiet_call (calls evs) = true.
Proof.
  intros H. unfold ensure_tables_exist in H. rewrite run_bind in H.
  destruct (get_connection D s) as [[conn|e] [w1 m1 t1]] eqn:Hgc.
  2:{ injection H as <- <-. by apply get_connection_quiet in Hgc. }
  apply get_connection_quiet in Hgc as (evs0 & Ht & Hq). norm.
  unfold_monad. unfold_prims.
  exec H D; injection H as <- <-; norm; rewrite <- ?app_assoc; cbn [app].
  all: rewrite Ht, <- app_assoc; eexists; split; [reflexivity|].
  all: unfold calls in *; rewrite map_app, forallb_app.
  all: apply andb_true_intro; split; [exact Hq | reflexivity].
Qed.

Lemma fetched_count_None_quiet (evs : list event) :
  forallb is_quiet_call (calls evs) = true → fetched_count evs = None.
Proof.
  intros H. rewrite <- (app_nil_r evs). by rewrite fetched_count_quiet.
Qed.

(** [create_sample_menu_items] fetches nothing; a run that returns has
    executed, on one cursor, the seed statements and then one commit. *)
Lemma create_sample_menu_items_events (s : state W) r s' :
  create_sample_menu_items D s = (r, s') →
  ∃ evs, trace s' = trace s ++ evs
         ∧ fetched_count evs = None
         ∧ (r = Ok tt →
              ∃ pre conn cur ids,
                calls evs = pre ++ Cursor conn :: seed_statements cur ids
                                ++ [Commit conn; CursorClose cur]
                ∧ forallb is_quiet_call pre = true
                ∧ length ids = 6%nat).
Proof.
  intros H. unfold create_sample_menu_items in H. rewrite run_bind in H.
  destruct (get_connection D s) as [[conn|e] [w1 m1 t1]] eqn:Hgc.
  2:{ injection H as <- <-. apply get_connection_quiet in Hgc as (evs & ? & ?).
      exists evs. split; [done|]. split; [|done].
      by apply fetched_count_None_quiet. }
  apply get_connection_quiet in Hgc as (evs0 & Ht & Hq). norm.
  unfold sample_items in H. cbn [for_each] in H.
  unfold_monad. unfold_prims.
  exec H D; injection H as <- <-; norm; rewrite <- ?app_assoc; cbn [app].
  all: rewrite Ht, <- app_assoc; eexists; split; [reflexivity|].
  all: split; [by rewrite fetched_count_quiet|]; try done.
  intros _. exists (calls evs0), conn, a, [u; u0; u1; u2; u3; u4].
  split; [|done]. unfold calls. by rewrite map_app.
Qed.

End Seeding.

Section SeedTrace.
Context {W : Type} (D : Driver W).

Lemma fetched_count_app_None (a b : list event) :
  fetched_count a = None → fetched_count (a ++ b) = fetched_count b.
Proof.
  induction a as [|[c rep] a IH]; [done|]. simpl.
  destruct c; try done. destruct rep; try done.
  destruct r as [[]|]; done.
Qed.

Lemma menu_dml_app_quiet (pre rest : list event) :
  forallb is_quiet_call (calls pre) = true →
  existsb is_menu_dml_call (calls (pre ++ rest))
  = existsb is_menu_dml_call (calls rest).
Proof.
  induction pre as [|[c rep] pre IH]; [done|]. simpl.
  intros [Hc Hpre]%andb_prop. rewrite (IH Hpre).
  destruct c; try done. simpl in *. by destruct (is_menu_dml q).
Qed.

Lemma menu_dml_calls_app_quiet (pre rest : list call) :
  forallb is_quiet_call pre = true →
  existsb is_menu_dml_call (pre ++ rest) = existsb is_menu_dml_call rest.
Proof. intros H. by rewrite existsb_app, (menu_dml_quiet _ H). Qed.

Lemma calls_app (a b : list event) : calls (a ++ b) = calls a ++ calls b.
Proof. apply map_app. Qed.

Lemma calls_cons (ev : event) (b : list event) :
  calls (ev :: b) = ev.1 :: calls b.
Proof. reflexivity. Qed.

Lemma initialize_seed_trace (s : state W) r s' :
  initialize_database_with_sample_data D s = (r, s') →
  let evs := events_between s s' in
  trace s' = trace s ++ evs
  ∧ (∀ n, fetched_count evs = Some n → n ≠ 0 →
          existsb is_menu_dml_call (calls evs) = false)
  ∧ (existsb is_menu_dml_call (calls evs) = true →
     fetched_count evs = Some 0)
  ∧ (r = Ok tt → fetched_count evs = Some 0 →
       ∃ pre conn cur cur0 ids,
         calls evs = pre ++ Cursor conn :: seed_statements cur ids
                         ++ [Commit conn; CursorClose cur; CursorClose cur0]
         ∧ existsb is_menu_dml_call pre = false
         ∧ length ids = 6%nat).
Proof.
  intros H. destruct s as [wi mi ti].
  unfold initialize_database_with_sample_data in H.
  unfold try_except at 1 in H. rewrite run_bind in H.
  destruct (ensure_tables_exist D _) as [[b|e] [wa ma ta]] eqn:He;
    apply ensure_tables_exist_quiet in He as (evsE & HtE & HqE); norm.
  2:{ injection H as <- <-. simpl. rewrite HtE. simpl_events.
      rewrite (fetched_count_None_quiet evsE HqE), (menu_dml_quiet _ HqE).
      done. }
  rewrite run_bind in H.
  destruct (get_connection D _) as [[conn|e] [wb mb tb]] eqn:Hg;
    apply get_connection_quiet in Hg as (evsG & HtG & HqG); norm.
  2:{ injection H as <- <-. simpl. rewrite HtG, HtE, <- app_assoc.
      simpl_events.
      assert (Hq : forallb is_quiet_call (calls (evsE ++ evsG)) = true).
      { unfold calls in *. rewrite map_app, forallb_app.
        apply andb_true_intro; split; [exact HqE | exact HqG]. }
      rewrite (fetched_count_None_quiet _ Hq), (menu_dml_quiet _ Hq).
      done. }
  unfold_monad. unfold_prims. unfold row_count in H.
  exec_rows H D.
  all: try match type of H with
           | context [create_sample_menu_items ?D' ?st] =>
               let Hcs := fresh "Hcs" in
               destruct (create_sample_menu_items D' st)
                 as [[[]|ecs] [wc mc tc]] eqn:Hcs;
               apply create_sample_menu_items_events in Hcs
                 as (evsC & HtC & HfC & HokC); norm
           end.
  all: exec_rows H D.
  all: injection H as <- <-; norm; subst.
  all: simpl_events.
  all: split; [reflexivity|].
  all: rewrite !fetched_count_quiet by done; cbn [fetched_count].
  all: rewrite !menu_dml_app_quiet by done.
  all: cbn [calls map fst existsb is_menu_dml_call is_menu_dml orb negb].
  all: split; [try (intros n' [= <-]; done); try done|].
  all: split; [try done|].
  all: try (intros [= ]; fail).
  all: try (intros _ [= ?]; done).
  all: try done.
  intros _ _.
  destruct (HokC eq_refl) as (pre2 & conn2 & cur2 & ids & Hc & Hq2 & Hlen).
  exists (calls evsE ++ calls evsG
          ++ [Cursor conn; Execute a CountMenuItems; FetchOne a; Commit conn]
          ++ pre2), conn2, cur2, a, ids.
  split; [|split; [|done]].
  - rewrite !calls_app, !calls_cons, calls_app, Hc.
    rewrite <- !app_assoc. cbn [app fst calls map].
    rewrite <- !app_assoc. reflexivity.
  - rewrite !menu_dml_calls_app_quiet by done.
    cbn [app existsb is_menu_dml_call is_menu_dml orb].
    by apply menu_dml_quiet.
Qed.
End SeedTrace.

(** ** Properties of the world kept by programs *)

Section Preservation.
Context {W : Type} (D : Driver W) (P : W → Prop) (allowed : stmt → bool).
Context (HD : respects D P allowed).

Lemma preserves_ret {A} (a : A) : preserves P (mret a : M W A).
Proof. by intros s. Qed.

Lemma preserves_raise {A} e : preserves P (raise e : M W A).
Proof. by intros s. Qed.

Lemma preserves_lift {A} (r : result A) : preserves P (lift r : M W A).
Proof. by intros s. Qed.

Lemma preserves_bind {A B} (m : M W A) (k : A → M W B) :
  preserves P m → (∀ a, preserves P (k a)) → preserves P (m ≫= k).
Proof.
  intros Hm Hk s Hs. rewrite run_bind. specialize (Hm s Hs).
  destruct (m s) as [[a|e] s1]; [by apply Hk | done].
Qed.

Lemma preserves_try_except {A} (m : M W A) (h : exn → M W A) :
  preserves P m → (∀ e, preserves P (h e)) → preserves P (try_except m h).
Proof.
  intros Hm Hh s Hs. unfold try_except. specialize (Hm s Hs).
  destruct (m s) as [[a|e] s1]; [done | by apply Hh].
Qed.

Lemma preserves_try_finally {A} (m : M W A) (c : M W unit) :
  preserves P m → preserves P c → preserves P (try_finally m c).
Proof.
  intros Hm Hc s Hs. unfold try_finally. specialize (Hm s Hs).
  destruct (m s) as [r s1]. specialize (Hc s1 Hm).
  by destruct (c s1) as [[|] s2].
Qed.

Lemma preserves_prim {R} (c : call) (enc : R → reply) op :
  (∀ w, P w → P (op w).2) → preserves P (prim c enc op).
Proof.
  intros Hop s Hs. unfold prim. specialize (Hop _ Hs).
  by destruct (op (world s)).
Qed.

Lemma preserves_get_manager : preserves P (get_manager (W:=W)).
Proof. by intros s. Qed.

Lemma preserves_set_manager m : preserves P (set_manager (W:=W) m).
Proof. by intros s. Qed.

Lemma preserves_datetime_now : preserves P (datetime_now D).
Proof. by intros s. Qed.

Lemma preserves_conn_closed c : preserves P (conn_closed D c).
Proof. by intros s. Qed.

Lemma preserves_generate_token : preserves P (generate_token D).
Proof. apply preserves_prim, HD. Qed.
Lemma preserves_connect p : preserves P (connect D p).
Proof. apply preserves_prim, HD. Qed.
Lemma preserves_conn_close c : preserves P (conn_close D c).
Proof. apply preserves_prim, HD. Qed.
Lemma preserves_get_transaction_status c :
  preserves P (get_transaction_status D c).
Proof. apply preserves_prim, HD. Qed.
Lemma preserves_conn_rollback c : preserves P (conn_rollback D c).
Proof. apply preserves_prim, HD. Qed.
Lemma preserves_conn_commit c : preserves P (conn_commit D c).
Proof. apply preserves_prim, HD. Qed.
Lemma preserves_conn_cursor c : preserves P (conn_cursor D c).
Proof. apply preserves_prim, HD. Qed.
Lemma preserves_execute cur q :
  allowed q = true → preserves P (execute D cur q).
Proof. intros Hq. apply preserves_prim. intros w. by apply HD. Qed.
Lemma preserves_fetchone cur : preserves P (fetchone D cur).
Proof. apply preserves_prim, HD. Qed.
Lemma preserves_fetchall cur : preserves P (fetchall D cur).
Proof. apply preserves_prim, HD. Qed.
Lemma preserves_cursor_close cur : preserves P (cursor_close D cur).
Proof. apply preserves_prim, HD. Qed.
Lemma preserves_uuid4 : preserves P (uuid4 D).
Proof.
  apply preserves_prim. intros w Hw.
  pose proof (respects_uuid4 D P allowed HD w Hw). by destruct (drv_uuid4 D w).
Qed.

Lemma preserves_run {A} (m : M W A) s r s' :
  preserves P m → m s = (r, s') → P (world s) → P (world s').
Proof. intros Hm E Hs. specialize (Hm s Hs). by rewrite E in Hm. Qed.

Lemma respects_cursor_run c w r w' :
  drv_cursor D c w = (r, w') → P w → P w'.
Proof.
  intros E Hw. pose proof (respects_cursor D P allowed HD c w Hw) as H.
  by rewrite E in H.
Qed.

Lemma respects_commit_run c w r w' :
  drv_commit D c w = (r, w') → P w → P w'.
Proof.
  intros E Hw. pose proof (respects_commit D P allowed HD c w Hw) as H.
  by rewrite E in H.
Qed.

Lemma respects_rollback_run c w r w' :
  drv_rollback D c w = (r, w') → P w → P w'.
Proof.
  intros E Hw. pose proof (respects_rollback D P allowed HD c w Hw) as H.
  by rewrite E in H.
Qed.

Lemma respects_fetchone_run c w r w' :
  drv_fetchone D c w = (r, w') → P w → P w'.
Proof.
  intros E Hw. pose proof (respects_fetchone D P allowed HD c w Hw) as H.
  by rewrite E in H.
Qed.

Lemma respects_cursor_close_run c w r w' :
  drv_cursor_close D c w = (r, w') → P w → P w'.
Proof.
  intros E Hw. pose proof (respects_cursor_close D P allowed HD c w Hw) as H.
  by rewrite E in H.
Qed.

Lemma respects_execute_run c q w r w' :
  allowed q = true → drv_execute D c q w = (r, w') → P w → P w'.
Proof.
  intros Hq E Hw. pose proof (respects_execute D P allowed HD c q w Hq Hw) as H.
  by rewrite E in H.
Qed.

Lemma preserves_get_connection : preserves P (get_connection D).
Proof.
  unfold get_connection, usable_connection, get_fresh_token.
  repeat first
    [ apply preserves_ret | apply preserves_raise
    | apply preserves_get_manager | apply preserves_set_manager
    | apply preserves_datetime_now | apply preserves_conn_closed
    | apply preserves_generate_token | apply preserves_connect
    | apply preserves_conn_close | apply preserves_get_transaction_status
    | apply preserves_conn_rollback
    | apply preserves_bind; [|intros ?]
    | apply preserves_try_except; [|intros ?]
    | match goal with
      | |- preserves _ (match ?x with _ => _ end) => destruct x
      | |- preserves _ (if ?x then _ else _) => destruct x
      | |- preserves _ (let '(_, _) := ?x in _) => destruct x
      end ].
Qed.

Lemma preserves_ensure_tables_exist :
  allowed CreateTableMenuItems = true → allowed CreateTableOrders = true →
  preserves P (ensure_tables_exist D).
Proof.
  intros H1 H2. unfold ensure_tables_exist.
  repeat first
    [ apply preserves_ret | apply preserves_raise
    | apply preserves_get_connection
    | apply preserves_conn_cursor | apply preserves_conn_commit
    | apply preserves_cursor_close | apply preserves_conn_rollback
    | by apply preserves_execute
    | apply preserves_bind; [|intros ?]
    | apply preserves_try_except; [|intros ?] ].
Qed.

End Preservation.

(** ** The reference driver *)

Section PgFacts.

Ltac pg_unfold :=
  unfold Pg.generate_token, Pg.connect, Pg.close,
    Pg.get_transaction_status, Pg.rollback, Pg.commit, Pg.new_cursor,
    Pg.execute, Pg.fetchone, Pg.fetchall, Pg.cursor_close, Pg.uuid4,
    Pg.guarded, Pg.fail, Pg.bump, Pg.set_session, Pg.set_committed,
    Pg.with_status in *.

Ltac pg_cases :=
  repeat match goal with
         | |- context [if ?b then _ else _] => destruct b eqn:?
         | |- context [match ?x with _ => _ end] => destruct x eqn:?
         end.

Ltac pg_cases_in H :=
  repeat match type of H with
         | context [if ?b then _ else _] => destruct b eqn:?
         | context [match ?x with _ => _ end] => destruct x eqn:?
         end; try discriminate H.

Lemma open_session_session c w sess :
  Pg.open_session c w = Some sess → Pg.session w = Some sess.
Proof.
  unfold Pg.open_session. destruct (Pg.session w) as [s0|]; [|done].
  case_decide; [|done]. destruct (Pg.closed s0); [done|]. by intros [= ->].
Qed.

(** Statements other than the inserts and deletes on [menu_items] keep
    the rows of the table. *)
Lemma exec_stmt_menu now read t q t' res R :
  is_menu_dml q = false →
  Pg.menu_items t = Some R →
  Pg.exec_stmt now read t q = inr (t', res) →
  Pg.menu_items t' = Some R.
Proof.
  intros Hq HR H. destruct q; try discriminate Hq; simpl in H.
  all: repeat match type of H with
              | context [match ?x with _ => _ end] => destruct x eqn:?
              end; try discriminate H.
  all: injection H as <- <-; simpl; try done.
  by rewrite HR.
Qed.

Lemma pg_respects_menu (R : list MenuItem.t) :
  respects Pg.driver (menu_is R) (λ q, negb (is_menu_dml q)).
Proof.
  split; simpl; unfold menu_is.
  - intros w [Hc Hs]. pg_unfold. pg_cases; simpl; auto.
  - intros p w [Hc Hs]. pg_unfold. pg_cases; simpl; auto.
    split; [done|]. by intros sess [= <-].
  - intros c w [Hc Hs]. pg_unfold. pg_cases; simpl; auto.
    split; [done|]. by intros sess [= <-].
  - intros c w [Hc Hs]. pg_unfold. pg_cases; simpl; auto.
  - intros c w [Hc Hs]. pg_unfold. pg_cases; simpl; auto.
    split; [done|]. by intros sess [= <-].
  - intros c w [Hc Hs]. pg_unfold.
    destruct (Pg.faulty w (Commit c)); [by simpl|].
    destruct (Pg.open_session c w) as [s0|] eqn:Ho; [|by simpl].
    apply open_session_session in Ho. pose proof (Hs _ Ho) as Hs0.
    case_decide; simpl; (split; [done|]); by intros sess [= <-].
  - intros c w [Hc Hs]. pg_unfold.
    destruct (Pg.faulty w (Cursor c)); [by simpl|].
    destruct (Pg.open_session c w) as [s0|] eqn:Ho; [|by simpl].
    apply open_session_session in Ho. pose proof (Hs _ Ho) as Hs0.
    simpl. split; [done|]. by intros sess [= <-].
  - intros cur q w Hq [Hc Hs]. apply negb_true_iff in Hq. pg_unfold.
    destruct (Pg.faulty w (Execute cur q)); [by simpl|].
    destruct (Pg.open_session _ w) as [s0|] eqn:Ho; [|by simpl].
    apply open_session_session in Ho. pose proof (Hs _ Ho) as Hs0.
    case_decide; [by simpl; auto|].
    destruct (is_ddl q && _); simpl.
    { split; [done|]. by intros sess [= <-]. }
    destruct (Pg.exec_stmt _ _ _ q) as [msg|[t' res]] eqn:Hx; simpl.
    { split; [done|]. by intros sess [= <-]. }
    split; [done|]. intros sess [= <-]. simpl.
    eapply exec_stmt_menu; eauto.
  - intros cur w [Hc Hs]. pg_unfold.
    destruct (Pg.faulty w (FetchOne cur)); [by simpl|].
    destruct (Pg.open_session _ w) as [s0|] eqn:Ho; [|by simpl].
    apply open_session_session in Ho. pose proof (Hs _ Ho) as Hs0.
    pg_cases; simpl; auto. split; [done|]. by intros sess [= <-].
  - intros cur w [Hc Hs]. pg_unfold.
    destruct (Pg.faulty w (FetchAll cur)); [by simpl|].
    destruct (Pg.open_session _ w) as [s0|] eqn:Ho; [|by simpl].
    apply open_session_session in Ho. pose proof (Hs _ Ho) as Hs0.
    pg_cases; simpl; auto. split; [done|]. by intros sess [= <-].
  - intros cur w [Hc Hs]. pg_unfold. pg_cases; simpl; auto.
  - intros w [Hc Hs]. pg_unfold. simpl. auto.
Qed.

Lemma pg_respects_stale (b : bool) :
  respects Pg.driver (λ w, Pg.stale_reads w = b) (λ _, true).
Proof.
  split; simpl; intros; pg_unfold; pg_cases; simpl; congruence.
Qed.

Lemma open_session_inv c w sess :
  Pg.open_session c w = Some sess →
  Pg.session w = Some sess ∧ Pg.sid sess = c ∧ Pg.closed sess = false.
Proof.
  unfold Pg.open_session. destruct (Pg.session w) as [s0|]; [|done].
  case_decide; [|done]. destruct (Pg.closed s0) eqn:?; [done|].
  by intros [= <-].
Qed.

Lemma open_session_put c w sess :
  Pg.sid sess = c → Pg.closed sess = false →
  Pg.open_session c (Pg.set_session w (Some sess)) = Some sess.
Proof.
  intros Hs Hc. unfold Pg.open_session, Pg.set_session. simpl.
  rewrite decide_True by done. by rewrite Hc.
Qed.

Lemma pg_cursor_connection c w cur w' :
  Pg.new_cursor c w = (Ok cur, w') → cursor_connection cur = c.
Proof. pg_unfold. intros H. pg_cases_in H; by injection H as <- <-. Qed.

Lemma pg_cursor_close_world cur w r w' :
  Pg.cursor_close cur w = (r, w') → w' = w.
Proof. pg_unfold. intros H. pg_cases_in H; by injection H as <- <-. Qed.

Lemma pg_execute_ok cur q w u w' :
  Pg.execute cur q w = (Ok u, w') →
  ∃ sess t res,
    Pg.open_session (cursor_connection cur) w = Some sess
    ∧ Pg.exec_stmt (Pg.clock w)
        (if Pg.stale_reads w then Pg.committed w else Pg.working sess)
        (Pg.working sess) q = inr (t, res)
    ∧ Pg.committed w' = Pg.committed w
    ∧ Pg.stale_reads w' = Pg.stale_reads w
    ∧ ∃ sess', Pg.open_session (cursor_connection cur) w' = Some sess'
               ∧ Pg.tx_status sess' = TRANSACTION_STATUS_INTRANS
               ∧ Pg.working sess' = t
               ∧ Pg.results sess'
                 = <[cursor_serial cur := res]> (Pg.results sess).
Proof.
  pg_unfold. intros H.
  destruct (Pg.faulty w _); [done|].
  destruct (Pg.open_session _ w) as [sess|] eqn:Ho; [|done].
  destruct (decide _); [done|]. destruct (is_ddl q && _); [done|].
  destruct (Pg.exec_stmt _ _ _ q) as [msg|[t res]] eqn:Hx; [done|].
  injection H as <- <-. exists sess, t, res.
  split; [done|]. split; [exact Hx|]. do 2 (split; [done|]).
  apply open_session_inv in Ho as (_ & Hsid & _).
  eexists. split; [by apply (open_session_put _ w)|done].
Qed.

Lemma pg_execute_delete cur w u w' :
  Pg.execute cur DeleteMenuItems w = (Ok u, w') →
  tx_menu (cursor_connection cur) w' [].
Proof.
  intros (sess & t & res & Ho & Hx & _ & _ & sess' & Ho' & Hst & Hw & _)
    %pg_execute_ok.
  exists sess'. split; [done|]. split; [by rewrite Hst|].
  simpl in Hx. destruct (Pg.menu_items (Pg.working sess)); [|done].
  injection Hx as <- <-. by rewrite Hw.
Qed.

Lemma pg_execute_insert cur id name description price category image_url
    available w u w' R :
  tx_menu (cursor_connection cur) w R →
  Pg.execute cur (InsertMenuItem id name description price category
                                 image_url available) w = (Ok u, w') →
  ∃ row, tx_menu (cursor_connection cur) w' (R ++ [row]).
Proof.
  intros (sess0 & Ho0 & _ & HR)
    (sess & t & res & Ho & Hx & _ & _ & sess' & Ho' & Hst & Hw & _)
    %pg_execute_ok.
  rewrite Ho0 in Ho. injection Ho as <-.
  simpl in Hx. rewrite HR in Hx.
  destruct (Pg.numeric_10_2 price); [|done].
  case_decide; [done|]. injection Hx as <- <-.
  eexists. exists sess'. split; [done|]. split; [by rewrite Hst|].
  by rewrite Hw.
Qed.

Lemma pg_uuid4_tx c w R u w' :
  tx_menu c w R → Pg.uuid4 w = (u, w') → tx_menu c w' R.
Proof. intros H [= <- <-]. exact H. Qed.

Lemma pg_execute_count cur w u w' :
  Pg.stale_reads w = false →
  Pg.execute cur CountMenuItems w = (Ok u, w') →
  ∃ R, tx_count cur w' R (Z.of_nat (length R)).
Proof.
  intros Hst
    (sess & t & res & Ho & Hx & _ & _ & sess' & Ho' & Hs' & Hw & Hres)
    %pg_execute_ok.
  rewrite Hst in Hx. simpl in Hx.
  destruct (Pg.menu_items (Pg.working sess)) as [R|] eqn:HR; [|done].
  injection Hx as <- <-. exists R, sess'.
  split; [done|]. split; [by rewrite Hs'|]. split; [by rewrite Hw|].
  intros rows Hl. rewrite Hres in Hl.
  destruct (decide (cursor_serial cur < length (Pg.results sess))%nat).
  - rewrite list_lookup_insert_eq in Hl by done. by injection Hl as <-.
  - rewrite list_insert_ge in Hl by lia.
    apply lookup_lt_Some in Hl. lia.
Qed.

Lemma pg_execute_count_known cur w u w' R :
  menu_is R w →
  Pg.execute cur CountMenuItems w = (Ok u, w') →
  tx_count cur w' R (Z.of_nat (length R)).
Proof.
  intros [Hc Hs]
    (sess & t & res & Ho & Hx & _ & _ & sess' & Ho' & Hs' & Hw & Hres)
    %pg_execute_ok.
  apply open_session_inv in Ho as (Ho & _). specialize (Hs _ Ho).
  assert (Hread : Pg.menu_items
            (if Pg.stale_reads w then Pg.committed w else Pg.working sess)
          = Some R) by by destruct (Pg.stale_reads w).
  simpl in Hx. rewrite Hread in Hx. injection Hx as <- <-.
  exists sess'. split; [done|]. split; [by rewrite Hs'|].
  split; [by rewrite Hw|].
  intros rows Hl. rewrite Hres in Hl.
  destruct (decide (cursor_serial cur < length (Pg.results sess))%nat).
  - rewrite list_lookup_insert_eq in Hl by done. by injection Hl as <-.
  - rewrite list_insert_ge in Hl by lia.
    apply lookup_lt_Some in Hl. lia.
Qed.

Lemma pg_fetchone_count cur w R n x w' :
  tx_count cur w R n →
  Pg.fetchone cur w = (Ok x, w') →
  x = Some (CountRow n) ∧ tx_menu (cursor_connection cur) w' R.
Proof.
  intros (sess & Ho & Hst & HR & Hres). pg_unfold. intros H.
  destruct (Pg.faulty w _); [done|]. rewrite Ho in H.
  destruct (Pg.results sess !! cursor_serial cur) as [[rows|]|] eqn:Hl;
    [|done..].
  rewrite (Hres _ eq_refl) in H. injection H as <- <-.
  split; [done|].
  apply open_session_inv in Ho as (_ & Hsid & _).
  eexists. split; [by apply (open_session_put _ w)|done].
Qed.

Lemma pg_commit_menu c w R u w' :
  tx_menu c w R → Pg.commit c w = (Ok u, w') → menu_is R w'.
Proof.
  intros (sess & Ho & Hst & HR). pg_unfold. intros H.
  destruct (Pg.faulty w _); [done|]. rewrite Ho in H.
  rewrite decide_False in H by done. injection H as <- <-.
  split; [done|]. by intros ? [= <-].
Qed.

End PgFacts.

Section PgSeeding.

(** On the reference driver, a run of [create_sample_menu_items] that
    returns leaves a committed, non-empty menu. *)
Lemma create_sample_menu_items_seeds (s s' : state Pg.World) :
  create_sample_menu_items Pg.driver s = (Ok tt, s') →
  ∃ R, R ≠ [] ∧ menu_is R (world s').
Proof.
  intros H. unfold create_sample_menu_items in H. rewrite run_bind in H.
  destruct (get_connection Pg.driver s) as [[conn|e] [w1 m1 t1]]; [|done].
  unfold sample_items in H. cbn [for_each] in H.
  unfold_monad. unfold_prims.
  exec H Pg.driver; try discriminate H.
  apply (f_equal snd) in H. simpl in H. subst s'. simpl in *.
  apply pg_cursor_connection in E as Hcur.
  apply pg_execute_delete in E0 as T.
  apply (pg_uuid4_tx _ _ _ _ _ T) in E1. clear T.
  apply (pg_execute_insert _ _ _ _ _ _ _ _ _ _ _ _ E1) in E2 as [r1 T].
  apply (pg_uuid4_tx _ _ _ _ _ T) in E3. clear T.
  apply (pg_execute_insert _ _ _ _ _ _ _ _ _ _ _ _ E3) in E4 as [r2 T].
  apply (pg_uuid4_tx _ _ _ _ _ T) in E5. clear T.
  apply (pg_execute_insert _ _ _ _ _ _ _ _ _ _ _ _ E5) in E6 as [r3 T].
  apply (pg_uuid4_tx _ _ _ _ _ T) in E7. clear T.
  apply (pg_execute_insert _ _ _ _ _ _ _ _ _ _ _ _ E7) in E8 as [r4 T].
  apply (pg_uuid4_tx _ _ _ _ _ T) in E9. clear T.
  apply (pg_execute_insert _ _ _ _ _ _ _ _ _ _ _ _ E9) in E10 as [r5 T].
  apply (pg_uuid4_tx _ _ _ _ _ T) in E11. clear T.
  apply (pg_execute_insert _ _ _ _ _ _ _ _ _ _ _ _ E11) in E12 as [r6 T].
  rewrite Hcur in T. apply (pg_commit_menu _ _ _ _ _ T) in E13.
  apply pg_cursor_close_world in E14 as ->.
  eexists. split; [|exact E13]. done.
Qed.

Lemma stale_ensure_tables_exist b (s : state Pg.World) r s' :
  ensure_tables_exist Pg.driver s = (r, s') →
  Pg.stale_reads (world s) = b → Pg.stale_reads (world s') = b.
Proof.
  apply (preserves_run (λ w, Pg.stale_reads w = b)).
  by apply (preserves_ensure_tables_exist _ _ _ (pg_respects_stale b)).
Qed.

Lemma stale_get_connection b (s : state Pg.World) r s' :
  get_connection Pg.driver s = (r, s') →
  Pg.stale_reads (world s) = b → Pg.stale_reads (world s') = b.
Proof.
  apply (preserves_run (λ w, Pg.stale_reads w = b)).
  by apply (preserves_get_connection _ _ _ (pg_respects_stale b)).
Qed.

Lemma menu_ensure_tables_exist R (s : state Pg.World) r s' :
  ensure_tables_exist Pg.driver s = (r, s') →
  menu_is R (world s) → menu_is R (world s').
Proof.
  apply (preserves_run (menu_is R)).
  by apply (preserves_ensure_tables_exist _ _ _ (pg_respects_menu R)).
Qed.

Lemma menu_get_connection R (s : state Pg.World) r s' :
  get_connection Pg.driver s = (r, s') →
  menu_is R (world s) → menu_is R (world s').
Proof.
  apply (preserves_run (menu_is R)).
  by apply (preserves_get_connection _ _ _ (pg_respects_menu R)).
Qed.

(** On the reference driver without stale reads, a run of the
    initialisation that returns leaves a committed, non-empty menu. *)
Lemma initialize_seeds (s s' : state Pg.World) :
  Pg.stale_reads (world s) = false →
  initialize_database_with_sample_data Pg.driver s = (Ok tt, s') →
  ∃ R, R ≠ [] ∧ menu_is R (world s').
Proof.
  intros Hst H. destruct s as [wi mi ti].
  unfold initialize_database_with_sample_data in H.
  unfold try_except at 1 in H. rewrite run_bind in H.
  destruct (ensure_tables_exist Pg.driver _) as [[b|e] sa] eqn:He; [|done].
  apply (stale_ensure_tables_exist false) in He; [|done].
  rewrite run_bind in H.
  destruct (get_connection Pg.driver sa) as [[conn|e] [wb mb tb]] eqn:Hg;
    [|done].
  apply (stale_get_connection false) in Hg; [|done].
  simpl in Hg.
  unfold_monad. unfold_prims. unfold row_count in H.
  exec_rows H Pg.driver; try discriminate H.
  all: pose proof (respects_cursor_run _ _ _ (pg_respects_stale false)
                     _ _ _ _ E Hg) as HstC; simpl in HstC.
  all: simpl in E, E0, E1, E2.
  all: apply pg_cursor_connection in E as Hcur.
  all: apply (pg_execute_count _ _ _ _ HstC) in E0 as [R T].
  all: apply (pg_fetchone_count _ _ _ _ _ _ T) in E1 as [[= Hn] T'].
  all: rewrite Hcur in T'; apply (pg_commit_menu _ _ _ _ _ T') in E2.
  - (* the menu was empty: the seed set is written *)
    destruct (create_sample_menu_items Pg.driver _) as [[[]|ecs] sc] eqn:Hcs.
    + apply create_sample_menu_items_seeds in Hcs as (R' & HR' & HM).
      exec_rows H Pg.driver; try discriminate H.
      apply (f_equal snd) in H. simpl in H. subst s'. simpl in *.
      apply pg_cursor_close_world in E0 as ->. eauto.
    + exec_rows H Pg.driver; discriminate H.
  - (* the menu had rows *)
    apply (f_equal snd) in H. simpl in H. subst s'. simpl in *.
    apply pg_cursor_close_world in E3 as ->.
    exists R. split; [|done]. intros ->. simpl in Hn. done.
Qed.

(** On the reference driver, a run of the initialisation that starts
    from a committed, non-empty menu leaves it as it was, whatever the
    run returns or raises. *)
Lemma initialize_keeps_menu (R : list MenuItem.t) (s : state Pg.World)
    (r : result unit) (s' : state Pg.World) :
  R ≠ [] → menu_is R (world s) →
  initialize_database_with_sample_data Pg.driver s = (r, s') →
  menu_is R (world s').
Proof.
  intros HR HM H. destruct s as [wi mi ti].
  unfold initialize_database_with_sample_data in H.
  unfold try_except at 1 in H. rewrite run_bind in H.
  destruct (ensure_tables_exist Pg.driver _) as [[b|e] sa] eqn:He.
  2: { injection H as <- <-. by apply (menu_ensure_tables_exist R) in He. }
  apply (menu_ensure_tables_exist R) in He; [|done].
  rewrite run_bind in H.
  destruct (get_connection Pg.driver sa) as [[conn|e] [wb mb tb]] eqn:Hg.
  2: { injection H as <- <-. by apply (menu_get_connection R) in Hg. }
  apply (menu_get_connection R) in Hg; [|done].
  simpl in Hg. clear He HM.
  unfold_monad. unfold_prims. unfold row_count in H.
  exec_rows H Pg.driver.
  all: pose proof (respects_cursor_run _ _ _ (pg_respects_menu R)
                     _ _ _ _ E Hg) as HM.
  all: try match type of H with
       | context [create_sample_menu_items] =>
           exfalso;
           apply (pg_execute_count_known _ _ _ _ _ HM) in E0;
           apply (pg_fetchone_count _ _ _ _ _ _ E0) in E1 as [[= ->] _];
           by destruct R
       end.
  all: apply (f_equal snd) in H; simpl in H; subst s'; simpl.
  all: repeat match goal with
       | E : ?op = (_, ?w'), HM : menu_is ?R0 ?w |- _ =>
           lazymatch goal with
           | _ : menu_is R0 w' |- _ => fail
           | _ => idtac
           end;
           lazymatch op with
           | drv_execute Pg.driver _ _ w =>
               assert (menu_is R0 w')
                 by (eapply (respects_execute_run _ _ _
                               (pg_respects_menu R0));
                     [|exact E|exact HM]; reflexivity)
           | drv_fetchone Pg.driver _ w =>
               pose proof (respects_fetchone_run _ _ _
                             (pg_respects_menu R0) _ _ _ _ E HM)
           | drv_commit Pg.driver _ w =>
               pose proof (respects_commit_run _ _ _
                             (pg_respects_menu R0) _ _ _ _ E HM)
           | drv_rollback Pg.driver _ w =>
               pose proof (respects_rollback_run _ _ _
                             (pg_respects_menu R0) _ _ _ _ E HM)
           | drv_cursor_close Pg.driver _ w =>
               pose proof (respects_cursor_close_run _ _ _
                             (pg_respects_menu R0) _ _ _ _ E HM)
           end
       end.
  all: assumption.
Qed.

End PgSeeding.

(** C9, as the code has it. In every run of
    [initialize_database_with_sample_data], on any driver: a count that
    came back nonzero, or no count at all, means that no DELETE or INSERT
    on [menu_items] was issued; such a statement is issued only after the
    count came back zero; and a run that returns after a zero count issued,
    on one cursor and with no commit or rollback in between, the DELETE of
    all menu rows and the INSERTs of the six sample items, each with a fresh
    UUID, followed by one commit. On the reference driver, where queries see
    the transaction in progress, a run that returns leaves a committed,
    non-empty menu, and a second run right after it leaves exactly these
    rows, whatever the second run returns or raises. *)
Theorem initialize_database_idempotent {W} (D : Driver W)
    (s : state W) (r : result unit) (s' : state W)
    (p p1 p2 : state Pg.World) (r2 : result unit) :
  initialize_database_with_sample_data D s = (r, s') →
  Pg.stale_reads (world p) = false →
  initialize_database_with_sample_data Pg.driver p = (Ok tt, p1) →
  initialize_database_with_sample_data Pg.driver p1 = (r2, p2) →
  let evs := events_between s s' in
  trace s' = trace s ++ evs
  ∧ (∀ n, fetched_count evs = Some n → n ≠ 0 →
          existsb is_menu_dml_call (calls evs) = false)
  ∧ (existsb is_menu_dml_call (calls evs) = true →
     fetched_count evs = Some 0)
  ∧ (r = Ok tt → fetched_count evs = Some 0 →
       ∃ pre conn cur cur0 ids,
         calls evs = pre ++ Cursor conn :: seed_statements cur ids
                         ++ [Commit conn; CursorClose cur; CursorClose cur0]
         ∧ existsb is_menu_dml_call pre = false
         ∧ length ids = 6%nat)
  ∧ (∃ R, R ≠ []
          ∧ menu_is R (world p1)
          ∧ menu_is R (world p2)).
Proof.
  intros H Hst H1 H2 evs.
  destruct (initialize_seed_trace D s r s' H) as (Ht & Hn & Hd & Hz).
  do 4 (split; [assumption|]).
  destruct (initialize_seeds p p1 Hst H1) as (R & HR & HM).
  exists R. split; [exact HR|]. split; [exact HM|].
  exact (initialize_keeps_menu R p1 r2 p2 HR HM H2).
Qed.

Lemma initialize_database_idempotent_witness :
  let s := Pg.boot (Pg.fresh 1000) in
  let again := initialize_database_with_sample_data Pg.driver
                 Scenario.initialized in
  ∃ R, R ≠ []
       ∧ menu_is R (world Scenario.initialized)
       ∧ menu_is R (world again.2).
Proof.
  intros s again.
  refine (proj2 (proj2 (proj2 (proj2
    (initialize_database_idempotent Pg.driver s (Ok tt) Scenario.initialized
       s Scenario.initialized again.2 (Ok tt) _ _ _ _))))).
  all: vm_compute; reflexivity.
Defined.

(** ** What a program adds to the trace *)

Section Emits.
Context {W : Type} (D : Driver W) (Q : call → bool).

Lemma emits_silent {A} (m : M W A) :
  (∀ s, trace (m s).2 = trace s) → emits Q m.
Proof. intros H s. exists []. by rewrite app_nil_r, H. Qed.

Lemma emits_ret {A} (a : A) : emits Q (mret a : M W A).
Proof. by apply emits_silent. Qed.

Lemma emits_raise {A} (e : exn) : emits Q (raise e : M W A).
Proof. by apply emits_silent. Qed.

Lemma emits_lift {A} (r : result A) : emits Q (lift r : M W A).
Proof. by apply emits_silent. Qed.

Lemma emits_get_manager : emits Q (get_manager : M W _).
Proof. by apply emits_silent. Qed.

Lemma emits_set_manager m : emits Q (set_manager m : M W _).
Proof. by apply emits_silent. Qed.

Lemma emits_datetime_now : emits Q (datetime_now D).
Proof. by apply emits_silent. Qed.

Lemma emits_conn_closed c : emits Q (conn_closed D c).
Proof. by apply emits_silent. Qed.

Lemma emits_prim {R} (c : call) (enc : R → reply) op :
  Q c = true → emits Q (prim c enc op : M W R).
Proof.
  intros Hc s. unfold prim. destruct (op (world s)) as [r w'].
  eexists [_]. split; [reflexivity|]. simpl. by rewrite Hc.
Qed.

Lemma emits_then {A} (m : M W A) s (P : state W → Prop) :
  emits Q m →
  (∀ s1 evs, trace s1 = trace s ++ evs → forallb Q (calls evs) = true →
             P s1) →
  P (m s).2.
Proof. intros Hm HP. destruct (Hm s) as (evs & Ht & Hq). eauto. Qed.

Lemma emits_bind {A B} (m : M W A) (f : A → M W B) :
  emits Q m → (∀ a, emits Q (f a)) → emits Q (m ≫= f).
Proof.
  intros Hm Hf s. unfold mbind, M_bind.
  destruct (Hm s) as (evs & Ht & Hq).
  destruct (m s) as [[a|e] s1]; simpl in Ht.
  - destruct (Hf a s1) as (evs' & Ht' & Hq').
    exists (evs ++ evs'). rewrite Ht', Ht, app_assoc. split; [done|].
    unfold calls in *. rewrite map_app, forallb_app.
    apply andb_true_intro; split; [exact Hq | exact Hq'].
  - by exists evs.
Qed.

Lemma emits_try_except {A} (m : M W A) (h : exn → M W A) :
  emits Q m → (∀ e, emits Q (h e)) → emits Q (try_except m h).
Proof.
  intros Hm Hh s. unfold try_except.
  destruct (Hm s) as (evs & Ht & Hq).
  destruct (m s) as [[a|e] s1]; simpl in Ht.
  - by exists evs.
  - destruct (Hh e s1) as (evs' & Ht' & Hq').
    exists (evs ++ evs'). rewrite Ht', Ht, app_assoc. split; [done|].
    unfold calls in *. rewrite map_app, forallb_app.
    apply andb_true_intro; split; [exact Hq | exact Hq'].
Qed.

Lemma emits_try_finally {A} (m : M W A) (c : M W unit) :
  emits Q m → emits Q c → emits Q (try_finally m c).
Proof.
  intros Hm Hc s. unfold try_finally.
  destruct (Hm s) as (evs & Ht & Hq).
  destruct (m s) as [r s1]; simpl in Ht.
  destruct (Hc s1) as (evs' & Ht' & Hq').
  exists (evs ++ evs').
  destruct (c s1) as [[u|e] s2]; simpl in *;
    rewrite Ht', Ht, app_assoc; (split; [done|]);
    unfold calls in *; rewrite map_app, forallb_app;
    apply andb_true_intro; (split; [exact Hq | exact Hq']).
Qed.

Lemma emits_for_each {A} (l : list A) (body : A → M W unit) :
  (∀ x, emits Q (body x)) → emits Q (for_each l body).
Proof.
  intros Hb. induction l as [|x l IH]; simpl.
  - apply emits_ret.
  - apply emits_bind; [apply Hb | intros _; exact IH].
Qed.

Lemma emits_collect {A B} (l : list A) (body : A → M W B) :
  (∀ x, emits Q (body x)) → emits Q (collect l body).
Proof.
  intros Hb. induction l as [|x l IH]; simpl.
  - apply emits_ret.
  - apply emits_bind; [apply Hb | intros y].
    apply emits_bind; [exact IH | intros ys; apply emits_ret].
Qed.

End Emits.

Lemma emits_weaken {W A} (Q Q' : call → bool) (m : M W A) :
  (∀ c, Q c = true → Q' c = true) → emits Q m → emits Q' m.
Proof.
  intros HQ Hm s. destruct (Hm s) as (evs & Ht & Hq).
  exists evs. split; [done|].
  apply forallb_forall. intros c Hc.
  apply HQ. by eapply forallb_forall in Hq.
Qed.

Ltac unfold_calls :=
  unfold generate_token, connect, conn_close, get_transaction_status,
    conn_rollback, conn_commit, conn_cursor, execute, fetchone, fetchall,
    cursor_close, uuid4.

(** Decompose a program along its structure. *)
Ltac emits_go :=
  unfold_calls;
  repeat first
    [ apply emits_ret | apply emits_raise | apply emits_lift
    | apply emits_get_manager | apply emits_set_manager
    | apply emits_datetime_now | apply emits_conn_closed
    | assumption
    | apply emits_prim; reflexivity
    | apply emits_bind; [|intros ?]
    | apply emits_try_except; [|intros ?]
    | apply emits_try_finally
    | apply emits_for_each; intros ?
    | apply emits_collect; intros ?
    | match goal with
      | |- emits _ (match ?x with _ => _ end) => destruct x
      | |- emits _ (if ?x then _ else _) => destruct x
      | |- emits _ (let '(_, _) := ?x in _) => destruct x
      end ].

Section EmitsPrograms.
Context {W : Type} (D : Driver W).

Lemma emits_get_connection : emits is_session_call (get_connection D).
Proof. unfold get_connection, usable_connection, get_fresh_token. emits_go. Qed.

Lemma emits_get_connection_weak (Q : call → bool) :
  (∀ c, is_session_call c = true → Q c = true) →
  emits Q (get_connection D).
Proof. intros H. eapply emits_weaken; [exact H | apply emits_get_connection]. Qed.

Lemma emits_get_sample_menu_items (Q : call → bool) :
  Q Uuid4 = true → emits Q (get_sample_menu_items D).
Proof.
  intros H. unfold get_sample_menu_items.
  apply emits_collect. intros [[[[name description] price] category] image_url].
  unfold uuid4. apply emits_bind; [by apply emits_prim|intros ?].
  emits_go.
Qed.

Lemma emits_get_menu_items : emits is_read_call (get_menu_items D).
Proof.
  pose proof (emits_get_sample_menu_items is_read_call eq_refl) as Hs.
  unfold get_menu_items. emits_go.
Qed.

Lemma emits_get_all_orders : emits is_read_call (get_all_orders D).
Proof.
  unfold get_all_orders. emits_go.
Qed.

Lemma emits_create_order name email items total :
  emits is_order_call (create_order D name email items total).
Proof.
  unfold create_order. emits_go.
Qed.

Lemma emits_ensure_tables_exist : emits is_init_call (ensure_tables_exist D).
Proof.
  unfold ensure_tables_exist. emits_go.
Qed.

Lemma emits_create_sample_menu_items :
  emits is_init_call (create_sample_menu_items D).
Proof.
  unfold create_sample_menu_items. emits_go.
Qed.

Lemma emits_initialize :
  emits is_init_call (initialize_database_with_sample_data D).
Proof.
  pose proof emits_ensure_tables_exist as He.
  pose proof emits_create_sample_menu_items as Hc.
  unfold initialize_database_with_sample_data. emits_go.
Qed.

End EmitsPrograms.

(** X1. Whatever the driver answers, [GET /api/menu] and [GET /api/orders]
    (and with them [get_menu_items], [get_all_orders] and the fallback
    [get_sample_menu_items]) only add calls to the trace, and none of these
    calls executes a statement other than a query: the read paths never
    insert, delete or change the schema. *)
Theorem read_paths_execute_only_queries {W} (D : Driver W) :
  emits is_read_call (get_menu D)
  ∧ emits is_read_call (get_orders_endpoint D).
Proof.
  pose proof (emits_get_menu_items D) as Hm.
  pose proof (emits_get_all_orders D) as Ho.
  split; [unfold get_menu | unfold get_orders_endpoint]; emits_go.
Qed.

(** X2. Whatever the driver answers and whatever the order, the only
    statements that [POST /api/orders] executes are queries and the INSERT
    into [orders]: it never writes to [menu_items], never deletes and never
    changes the schema. *)
Theorem create_order_endpoint_statements {W} (D : Driver W)
    (order : OrderCreate) :
  emits is_order_call (create_order_endpoint D order).
Proof.
  unfold create_order_endpoint.
  apply emits_try_except; [|intros e; destruct e; emits_go].
  cbv zeta. apply emits_bind; [apply emits_create_order|intros ?].
  apply emits_ret.
Qed.

(** X3. Whatever the driver answers, the only statement that
    [DELETE /api/orders/clear] executes is the DELETE of all orders: the
    menu is never written. *)
Theorem clear_all_orders_statements {W} (D : Driver W) :
  emits is_clear_call (clear_all_orders D).
Proof. unfold clear_all_orders. emits_go. Qed.

(** X4. Whatever the driver answers, the initialisation, run by the
    start-up hook or by [POST /api/initialize], executes only queries, the
    two CREATE TABLE statements and the seeding of [menu_items]: it never
    inserts or deletes an order. *)
Theorem initialization_statements {W} (D : Driver W) :
  emits is_init_call (startup_event D)
  ∧ emits is_init_call (initialize_database_endpoint D).
Proof.
  pose proof (emits_initialize D) as Hi.
  split; [unfold startup_event | unfold initialize_database_endpoint];
    emits_go.
Qed.

(** ** Errors of the endpoints *)

Section EndpointErrors.
Context {W : Type} (D : Driver W).

(** Every call of [get_connection] asks something of the driver. *)
Lemma get_connection_calls_first (s : state W) r s' :
  get_connection D s = (r, s') →
  ∃ ev evs, trace s' = trace s ++ ev :: evs.
Proof.
  intros H. destruct s as [w [cn tk ex] t].
  unfold get_connection, usable_connection, get_fresh_token in H.
  unfold_monad. unfold_prims. norm.
  destruct tk, ex, cn; norm;
    try destruct (Z.leb_spec z (drv_now D w)); exec H D;
    injection H as <- <-; norm; rewrite <- ?app_assoc;
    eexists _, _; reflexivity.
Qed.

Lemma order_input_valid_dec name email (items : list ItemDict.t) total :
  order_input_valid name email items total
  ∨ ¬ order_input_valid name email items total.
Proof.
  unfold order_input_valid.
  destruct (decide (sanitize_string name 255 = ""%string)); [right; tauto|].
  destruct (decide (sanitize_string email 255 = ""%string)); [right; tauto|].
  destruct items as [|i items]; [right; tauto|].
  destruct (Qlt_le_dec 0 total) as [H0|H0].
  - destruct (Qlt_le_dec 100000 total) as [H1|H1].
    + right. intros (_ & _ & _ & _ & H). by apply Qle_not_lt in H.
    + left. done.
  - right. intros (_ & _ & _ & H & _). by apply Qle_not_lt in H0.
Qed.

Lemma create_order_invalid name email items total (s : state W) :
  ¬ order_input_valid name email items total →
  ∃ msg, create_order D name email items total s = (Raise (ValueError msg), s)
         ∧ msg ∈ validation_messages.
Proof.
  intros Hv. unfold create_order, validation_messages.
  case_decide as H1; [eexists; split; [done|set_solver]|].
  case_decide as H2; [eexists; split; [done|set_solver]|].
  destruct (Qle_bool total 0 || negb (Qle_bool total 100000)) eqn:E;
    [eexists; split; [done|set_solver]|].
  apply orb_false_elim in E as [E0 E1].
  apply negb_false_iff, Qle_bool_iff in E1.
  destruct Hv. unfold order_input_valid.
  split; [tauto|]. split; [tauto|].
  split; [by destruct items|]. split; [|done].
  apply Qnot_le_lt. intros H. apply Qle_bool_iff in H. congruence.
Qed.

Lemma create_order_valid name email items total (s : state W) :
  order_input_valid name email items total →
  ∃ ev evs,
    trace (create_order D name email items total s).2 = trace s ++ ev :: evs.
Proof.
  intros (Hn & He & Hi & H0 & H1). unfold create_order.
  rewrite decide_False by tauto.
  rewrite decide_False by (by destruct items).
  assert (Qle_bool total 0 = false) as ->.
  { apply not_true_is_false. intros H%Qle_bool_iff. by apply Qle_not_lt in H. }
  apply Qle_bool_iff in H1. rewrite H1. simpl.
  rewrite run_bind.
  destruct (get_connection D s) as [rg s1] eqn:Hg.
  apply get_connection_calls_first in Hg as (ev & evs & Ht).
  destruct rg as [conn|e]; [|by eexists _, _].
  match goal with
  | |- context [trace (?m s1).2] =>
      assert (Hm : emits (λ _, true) m);
        [|destruct (Hm s1) as (evs' & Ht' & _)]
  end.
  { emits_go. }
  rewrite Ht', Ht, <- app_assoc. by eexists _, _.
Qed.

End EndpointErrors.



(** X6. Whatever the driver answers, an error that leaves [GET /api/menu]
    or [GET /api/orders] is an HTTP 500 error, and an error that leaves
    [POST /api/orders] is an HTTP 422 or an HTTP 500 error: no other
    exception escapes these endpoints. *)
Theorem endpoints_raise_http_errors {W} (D : Driver W) (s : state W) :
  (∀ e s', get_menu D s = (Raise e, s') → ∃ d, e = HTTPException 500 d)
  ∧ (∀ e s', get_orders_endpoint D s = (Raise e, s') →
             ∃ d, e = HTTPException 500 d)
  ∧ (∀ order e s', create_order_endpoint D order s = (Raise e, s') →
                   ∃ d, e = HTTPException 422 d ∨ e = HTTPException 500 d).
Proof.
  split; [|split].
  - intros e s'. unfold get_menu, try_except, raise.
    destruct (get_menu_items D s) as [[a|e0] s1]; intros [= <- <-]. eauto.
  - intros e s'. unfold get_orders_endpoint, try_except, raise.
    destruct (get_all_orders D s) as [[a|e0] s1]; intros [= <- <-]. eauto.
  - intros order e s'. unfold create_order_endpoint, try_except.
    cbv zeta. rewrite run_bind.
    destruct (create_order D _ _ _ _ s) as [[a|e0] s1]; [done|].
    destruct e0; intros [= <- <-]; eauto.
Qed.

(** X7. Whatever the driver answers, the start-up hook returns: a failure
    of the initialisation does not stop the application from starting, and
    the state it leaves is the one the initialisation left. *)
Theorem startup_event_never_raises {W} (D : Driver W) (s : state W) :
  startup_event D s
  = (Ok tt, (initialize_database_with_sample_data D s).2).
Proof.
  unfold startup_event, try_except.
  by destruct (initialize_database_with_sample_data D s) as [[[]|e] s1].
Qed.

(** ** The connection manager across the endpoints *)

Section KeepsManager.
Context {W : Type} (D : Driver W) (I : DSQLConnectionManager → Prop).

Lemma keeps_same {A} (m : M W A) :
  (∀ s, dsql_manager (m s).2 = dsql_manager s) → keeps_manager I m.
Proof. intros H s Hs. by rewrite H. Qed.

Lemma keeps_ret {A} (a : A) : keeps_manager I (mret a : M W A).
Proof. by apply keeps_same. Qed.

Lemma keeps_raise {A} (e : exn) : keeps_manager I (raise e : M W A).
Proof. by apply keeps_same. Qed.

Lemma keeps_lift {A} (r : result A) : keeps_manager I (lift r : M W A).
Proof. by apply keeps_same. Qed.

Lemma keeps_prim {R} (c : call) (enc : R → reply) op :
  keeps_manager I (prim c enc op : M W R).
Proof.
  apply keeps_same. intros s. unfold prim. by destruct (op (world s)).
Qed.

Lemma keeps_datetime_now : keeps_manager I (datetime_now D).
Proof. by apply keeps_same. Qed.

Lemma keeps_bind {A B} (m : M W A) (f : A → M W B) :
  keeps_manager I m → (∀ a, keeps_manager I (f a)) →
  keeps_manager I (m ≫= f).
Proof.
  intros Hm Hf s Hs. unfold mbind, M_bind. specialize (Hm s Hs).
  destruct (m s) as [[a|e] s1]; [by apply Hf | done].
Qed.

Lemma keeps_try_except {A} (m : M W A) (h : exn → M W A) :
  keeps_manager I m → (∀ e, keeps_manager I (h e)) →
  keeps_manager I (try_except m h).
Proof.
  intros Hm Hh s Hs. unfold try_except. specialize (Hm s Hs).
  destruct (m s) as [[a|e] s1]; [done | by apply Hh].
Qed.

Lemma keeps_try_finally {A} (m : M W A) (c : M W unit) :
  keeps_manager I m → keeps_manager I c → keeps_manager I (try_finally m c).
Proof.
  intros Hm Hc s Hs. unfold try_finally. specialize (Hm s Hs).
  destruct (m s) as [r s1]. specialize (Hc s1 Hm).
  by destruct (c s1) as [[u|e] s2].
Qed.

Lemma keeps_for_each {A} (l : list A) (body : A → M W unit) :
  (∀ x, keeps_manager I (body x)) → keeps_manager I (for_each l body).
Proof.
  intros Hb. induction l as [|x l IH]; simpl.
  - apply keeps_ret.
  - apply keeps_bind; [apply Hb | intros _; exact IH].
Qed.

Lemma keeps_collect {A B} (l : list A) (body : A → M W B) :
  (∀ x, keeps_manager I (body x)) → keeps_manager I (collect l body).
Proof.
  intros Hb. induction l as [|x l IH]; simpl.
  - apply keeps_ret.
  - apply keeps_bind; [apply Hb | intros y].
    apply keeps_bind; [exact IH | intros ys; apply keeps_ret].
Qed.

End KeepsManager.

Ltac keeps_go :=
  unfold_calls;
  repeat first
    [ apply keeps_ret | apply keeps_raise | apply keeps_lift
    | apply keeps_prim | apply keeps_datetime_now
    | assumption
    | apply keeps_bind; [|intros ?]
    | apply keeps_try_except; [|intros ?]
    | apply keeps_try_finally
    | apply keeps_for_each; intros ?
    | apply keeps_collect; intros ?
    | match goal with
      | |- keeps_manager _ (match ?x with _ => _ end) => destruct x
      | |- keeps_manager _ (if ?x then _ else _) => destruct x
      | |- keeps_manager _ (let '(_, _) := ?x in _) => destruct x
      end ].

Section ManagerInvariant.
Context {W : Type} (D : Driver W).

Lemma get_connection_ok (s : state W) r s' :
  manager_ok (dsql_manager s) → get_connection D s = (r, s') →
  manager_ok (dsql_manager s').
Proof.
  intros [Hwf Hc] H. split; [by eapply get_connection_wf|].
  destruct (usable_connection_spec D s Hwf) as (o & Hu & Ho).
  unfold get_connection in H. unfold mbind at 1, M_bind at 1 in H.
  rewrite Hu in H. destruct s as [w [cn tk ex] t].
  destruct o as [c|].
  - unfold_monad. unfold_prims. exec H D; by injection H as <- <-.
  - unfold get_fresh_token in H. unfold_monad. unfold_prims.
    destruct cn; exec H D; injection H as <- <-; try done.
Qed.

Lemma keeps_get_connection : keeps_manager manager_ok (get_connection D).
Proof.
  intros s Hs. destruct (get_connection D s) as [r s'] eqn:H.
  by eapply get_connection_ok.
Qed.

End ManagerInvariant.

(** X8. The connection manager is well formed in every state the
    application reaches: it is at start-up ([DSQLConnectionManager.__init__]),
    and the start-up hook and every endpoint keep it so, whatever the
    driver answers and whether they return or raise. Well formed: the
    manager holds a token exactly when it holds the token's expiry, and it
    holds a connection only when it holds a token. *)
Theorem manager_ok_invariant {W} (D : Driver W) :
  manager_ok dsql_manager_init
  ∧ keeps_manager manager_ok (startup_event D)
  ∧ keeps_manager manager_ok (get_menu D)
  ∧ (∀ order, keeps_manager manager_ok (create_order_endpoint D order))
  ∧ keeps_manager manager_ok (get_orders_endpoint D)
  ∧ keeps_manager manager_ok (clear_all_orders D)
  ∧ keeps_manager manager_ok (initialize_database_endpoint D).
Proof.
  pose proof (keeps_get_connection D) as Hg.
  split; [by split|].
  refine (conj _ (conj _ (conj _ (conj _ (conj _ _))))); try intros order.
  - unfold startup_event, initialize_database_with_sample_data,
      ensure_tables_exist, create_sample_menu_items. keeps_go.
  - unfold get_menu, get_menu_items, get_sample_menu_items. keeps_go.
  - unfold create_order_endpoint, create_order. cbv zeta. keeps_go.
  - unfold get_orders_endpoint, get_all_orders. keeps_go.
  - unfold clear_all_orders. keeps_go.
  - unfold initialize_database_endpoint,
      initialize_database_with_sample_data,
      ensure_tables_exist, create_sample_menu_items. keeps_go.
Qed.

(** X9. When [get_connection] returns a connection, the manager holds that
    connection together with a token and the token's expiry, whatever the
    state it was called in and whatever path it took. *)
Theorem get_connection_establishes {W} (D : Driver W)
    (s : state W) (c : conn) (s' : state W) :
  get_connection D s = (Ok c, s') →
  connection (dsql_manager s') = Some c
  ∧ (∃ tok, token (dsql_manager s') = Some tok)
  ∧ (∃ expires, token_expires_at (dsql_manager s') = Some expires).
Proof.
  intros H. destruct s as [w [cn tk ex] t].
  unfold get_connection, usable_connection, get_fresh_token in H.
  unfold_monad. unfold_prims. norm.
  destruct tk, ex, cn; norm;
    try destruct (Z.leb_spec z (drv_now D w)); exec H D;
    try discriminate H; injection H as <- <-; norm; eauto.
Qed.

Lemma get_connection_establishes_witness :
  connection (dsql_manager Scenario.connected) = Some 1%nat
  ∧ (∃ tok, token (dsql_manager Scenario.connected) = Some tok)
  ∧ (∃ expires,
       token_expires_at (dsql_manager Scenario.connected) = Some expires).
Proof.
  refine (get_connection_establishes Pg.driver (Pg.boot (Pg.fresh 1000))
            1%nat Scenario.connected _).
  vm_compute. reflexivity.
Defined.

(** ** Frames on the reference driver *)

Ltac pg_open :=
  unfold Pg.generate_token, Pg.connect, Pg.close,
    Pg.get_transaction_status, Pg.rollback, Pg.commit, Pg.new_cursor,
    Pg.execute, Pg.fetchone, Pg.fetchall, Pg.cursor_close, Pg.uuid4,
    Pg.guarded, Pg.fail, Pg.bump, Pg.set_session, Pg.set_committed,
    Pg.with_status in *.

Ltac pg_split :=
  repeat match goal with
         | |- context [if ?b then _ else _] => destruct b eqn:?
         | |- context [match ?x with _ => _ end] => destruct x eqn:?
         end.

Section PgFrames.

(** A part of the tables that the allowed statements keep is kept by
    every call of the reference driver. *)
Lemma pg_respects_view {A} (f : Pg.Tables → A) (v : A)
    (allowed : stmt → bool) :
  (∀ now read t q t' res,
     allowed q = true → f t = v →
     Pg.exec_stmt now read t q = inr (t', res) → f t' = v) →
  respects Pg.driver (view_is f v) allowed.
Proof.
  intros Hexec. split; simpl; unfold view_is.
  - intros w [Hc Hs]. pg_open. pg_split; simpl; auto.
  - intros p w [Hc Hs]. pg_open. pg_split; simpl; auto.
    split; [done|]. by intros sess [= <-].
  - intros c w [Hc Hs]. pg_open. pg_split; simpl; auto.
    split; [done|]. by intros sess [= <-].
  - intros c w [Hc Hs]. pg_open. pg_split; simpl; auto.
  - intros c w [Hc Hs]. pg_open. pg_split; simpl; auto.
    split; [done|]. by intros sess [= <-].
  - intros c w [Hc Hs]. pg_open.
    destruct (Pg.faulty w (Commit c)); [by simpl|].
    destruct (Pg.open_session c w) as [s0|] eqn:Ho; [|by simpl].
    apply open_session_session in Ho. pose proof (Hs _ Ho) as Hs0.
    case_decide; simpl; (split; [done|]); by intros sess [= <-].
  - intros c w [Hc Hs]. pg_open.
    destruct (Pg.faulty w (Cursor c)); [by simpl|].
    destruct (Pg.open_session c w) as [s0|] eqn:Ho; [|by simpl].
    apply open_session_session in Ho. pose proof (Hs _ Ho) as Hs0.
    simpl. split; [done|]. by intros sess [= <-].
  - intros cur q w Hq [Hc Hs]. pg_open.
    destruct (Pg.faulty w (Execute cur q)); [by simpl|].
    destruct (Pg.open_session _ w) as [s0|] eqn:Ho; [|by simpl].
    apply open_session_session in Ho. pose proof (Hs _ Ho) as Hs0.
    case_decide; [by simpl; auto|].
    destruct (is_ddl q && _); simpl.
    { split; [done|]. by intros sess [= <-]. }
    destruct (Pg.exec_stmt _ _ _ q) as [msg|[t' res]] eqn:Hx; simpl.
    { split; [done|]. by intros sess [= <-]. }
    split; [done|]. intros sess [= <-]. simpl.
    eapply Hexec; eauto.
  - intros cur w [Hc Hs]. pg_open.
    destruct (Pg.faulty w (FetchOne cur)); [by simpl|].
    destruct (Pg.open_session _ w) as [s0|] eqn:Ho; [|by simpl].
    apply open_session_session in Ho. pose proof (Hs _ Ho) as Hs0.
    pg_split; simpl; auto. split; [done|]. by intros sess [= <-].
  - intros cur w [Hc Hs]. pg_open.
    destruct (Pg.faulty w (FetchAll cur)); [by simpl|].
    destruct (Pg.open_session _ w) as [s0|] eqn:Ho; [|by simpl].
    apply open_session_session in Ho. pose proof (Hs _ Ho) as Hs0.
    pg_split; simpl; auto. split; [done|]. by intros sess [= <-].
  - intros cur w [Hc Hs]. pg_open. pg_split; simpl; auto.
  - intros w [Hc Hs]. pg_open. simpl. auto.
Qed.

Ltac exec_stmt_cases H :=
  simpl in H;
  repeat match type of H with
         | context [match ?x with _ => _ end] => destruct x eqn:?
         end; try discriminate H.

(** Queries keep both tables. *)
Lemma pg_respects_tables (T : Pg.Tables) :
  respects Pg.driver (tables_are T) is_select.
Proof.
  apply pg_respects_view. intros now read t q t' res Hq Ht H.
  destruct q; try discriminate Hq; exec_stmt_cases H;
    by injection H as <- <-.
Qed.

(** Queries and CREATE TABLE IF NOT EXISTS keep both tables once both
    exist. *)
Lemma pg_respects_schema (M : list MenuItem.t) (O : list Order.t) :
  respects Pg.driver
    (tables_are {| Pg.menu_items := Some M; Pg.orders := Some O |})
    (λ q, is_select q || is_ddl q).
Proof.
  apply pg_respects_view. intros now read t q t' res Hq Ht H.
  unfold id in *. subst t.
  destruct q; try discriminate Hq; exec_stmt_cases H;
    by injection H as <- <-.
Qed.

(** Statements other than the inserts and deletes on [orders] keep the
    rows of the table. *)
Lemma pg_respects_orders (O : list Order.t) :
  respects Pg.driver (orders_are O) (λ q, negb (is_orders_dml q)).
Proof.
  apply pg_respects_view. intros now read t q t' res Hq Ht H.
  destruct q; try discriminate Hq; exec_stmt_cases H;
    injection H as <- <-; simpl; try done.
  by rewrite Ht.
Qed.

End PgFrames.

Section PreservationLoops.
Context {W : Type} (P : W → Prop).

Lemma preserves_for_each {A} (l : list A) (body : A → M W unit) :
  (∀ x, preserves P (body x)) → preserves P (for_each l body).
Proof.
  intros Hb. induction l as [|x l IH]; simpl.
  - apply preserves_ret.
  - apply preserves_bind; [apply Hb | intros _; exact IH].
Qed.

Lemma preserves_collect {A B} (l : list A) (body : A → M W B) :
  (∀ x, preserves P (body x)) → preserves P (collect l body).
Proof.
  intros Hb. induction l as [|x l IH]; simpl.
  - apply preserves_ret.
  - apply preserves_bind; [apply Hb | intros y].
    apply preserves_bind; [exact IH | intros ys; apply preserves_ret].
Qed.

End PreservationLoops.

Lemma respects_weaken {W} (D : Driver W) (P : W → Prop)
    (allowed allowed' : stmt → bool) :
  (∀ q, allowed' q = true → allowed q = true) →
  respects D P allowed → respects D P allowed'.
Proof. intros H []. split; auto. Qed.

(** Decompose a program along its structure, for a property that the
    driver respects. *)
Ltac preserves_go :=
  repeat first
    [ apply preserves_ret | apply preserves_raise | apply preserves_lift
    | apply preserves_get_manager | apply preserves_set_manager
    | apply preserves_datetime_now | apply preserves_conn_closed
    | assumption
    | eapply preserves_get_connection; eassumption
    | eapply preserves_generate_token; eassumption
    | eapply preserves_connect; eassumption
    | eapply preserves_conn_close; eassumption
    | eapply preserves_get_transaction_status; eassumption
    | eapply preserves_conn_rollback; eassumption
    | eapply preserves_conn_commit; eassumption
    | eapply preserves_conn_cursor; eassumption
    | eapply preserves_fetchone; eassumption
    | eapply preserves_fetchall; eassumption
    | eapply preserves_cursor_close; eassumption
    | eapply preserves_uuid4; eassumption
    | eapply preserves_execute; [eassumption | reflexivity]
    | apply preserves_bind; [|intros ?]
    | apply preserves_try_except; [|intros ?]
    | apply preserves_try_finally
    | apply preserves_for_each; intros ?
    | apply preserves_collect; intros ?
    | match goal with
      | |- preserves _ (match ?x with _ => _ end) => destruct x
      | |- preserves _ (if ?x then _ else _) => destruct x
      | |- preserves _ (let '(_, _) := ?x in _) => destruct x
      end ].

(** X10. On any driver, a property of the world that every driver call
    keeps, the execution of a statement at least when the statement is a
    query, is kept by [GET /api/menu] and [GET /api/orders], whether they
    return or raise. On the reference driver: when no transaction holds
    uncommitted changes, the read paths leave both tables, committed and
    working copy, exactly as they were. *)
Theorem read_paths_frame {W} (D : Driver W) (P : W → Prop) :
  respects D P is_select →
  preserves P (get_menu D) ∧ preserves P (get_orders_endpoint D).
Proof.
  intros HD. split.
  - unfold get_menu, get_menu_items, get_sample_menu_items. preserves_go.
  - unfold get_orders_endpoint, get_all_orders. preserves_go.
Qed.

Lemma read_paths_frame_witness :
  let s := Scenario.with_alice_order in
  let T := Pg.committed (world s) in
  tables_are T (world (get_menu Pg.driver s).2)
  ∧ tables_are T (world (get_orders_endpoint Pg.driver s).2).
Proof.
  intros s T.
  assert (HT : tables_are T (world s)).
  { split; [reflexivity|]. intros sess H. vm_compute in H.
    injection H as <-. vm_compute. reflexivity. }
  destruct (read_paths_frame Pg.driver (tables_are T) (pg_respects_tables T))
    as [Hm Ho].
  split; [exact (Hm s HT) | exact (Ho s HT)].
Defined.

(** X11. On any driver, a property of the world that every driver call
    keeps, the execution of a statement at least when it does not insert
    into or delete from [menu_items], is kept by [POST /api/orders] and
    [DELETE /api/orders/clear], whether they return or raise. On the
    reference driver: creating an order and clearing the orders leave the
    rows of [menu_items] as they were. *)
Theorem order_paths_frame {W} (D : Driver W) (P : W → Prop) :
  respects D P (λ q, negb (is_menu_dml q)) →
  (∀ order, preserves P (create_order_endpoint D order))
  ∧ preserves P (clear_all_orders D).
Proof.
  intros HD. split; [intros order|].
  - unfold create_order_endpoint, create_order. cbv zeta. preserves_go.
  - unfold clear_all_orders. preserves_go.
Qed.

Lemma order_paths_frame_witness :
  ∃ R, R ≠ []
       ∧ menu_is R (world Scenario.initialized)
       ∧ menu_is R (world (create_order_endpoint Pg.driver
                             Scenario.alice_order Scenario.initialized).2)
       ∧ menu_is R (world (clear_all_orders Pg.driver
                             Scenario.initialized).2).
Proof.
  destruct (initialize_seeds (Pg.boot (Pg.fresh 1000)) Scenario.initialized)
    as (R & HR & HM); [reflexivity | by vm_compute |].
  exists R. split; [exact HR|]. split; [exact HM|].
  pose proof (order_paths_frame Pg.driver (menu_is R) (pg_respects_menu R))
    as [Hc Hd].
  split; [exact (Hc _ _ HM) | exact (Hd _ HM)].
Defined.

Lemma preserves_initialize {W} (D : Driver W) (P : W → Prop) :
  respects D P (λ q, negb (is_orders_dml q)) →
  preserves P (initialize_database_with_sample_data D).
Proof.
  intros HD.
  unfold initialize_database_with_sample_data,
    ensure_tables_exist, create_sample_menu_items. preserves_go.
Qed.

(** X12. On any driver, a property of the world that every driver call
    keeps, the execution of a statement at least when it does not insert
    into or delete from [orders], is kept by the start-up hook and by
    [POST /api/initialize], whether they return or raise. On the reference
    driver: the initialisation leaves the rows of [orders] as they were. *)
Theorem initialization_frame {W} (D : Driver W) (P : W → Prop) :
  respects D P (λ q, negb (is_orders_dml q)) →
  preserves P (startup_event D)
  ∧ preserves P (initialize_database_endpoint D).
Proof.
  intros HD. pose proof (preserves_initialize D P HD) as Hi. split.
  - unfold startup_event. preserves_go.
  - unfold initialize_database_endpoint. preserves_go.
Qed.

Lemma initialization_frame_witness :
  let s := Scenario.with_alice_order in
  let O := default [] (Pg.orders (Pg.committed (world s))) in
  length O = 1%nat
  ∧ orders_are O (world (startup_event Pg.driver s).2)
  ∧ orders_are O (world (initialize_database_endpoint Pg.driver s).2).
Proof.
  intros s O.
  assert (HO : orders_are O (world s)).
  { split; [vm_compute; reflexivity|]. intros sess H. vm_compute in H.
    injection H as <-. vm_compute. reflexivity. }
  split; [vm_compute; reflexivity|].
  destruct (initialization_frame Pg.driver (orders_are O)
              (pg_respects_orders O)) as [Hs He].
  split; [exact (Hs s HO) | exact (He s HO)].
Defined.

(** ** Transactions on the reference driver *)

Ltac pg_split_in H :=
  repeat match type of H with
         | context [if ?b then _ else _] => destruct b eqn:?
         | context [match ?x with _ => _ end] => destruct x eqn:?
         end; try discriminate H.

Section PgTransactions.

Lemma pg_execute_tx cur q w u w' :
  Pg.execute cur q w = (Ok u, w') →
  ∃ sess t res,
    Pg.open_session (cursor_connection cur) w = Some sess
    ∧ Pg.exec_stmt (Pg.clock w)
        (if Pg.stale_reads w then Pg.committed w else Pg.working sess)
        (Pg.working sess) q = inr (t, res)
    ∧ tx cur w' t res
    ∧ Pg.committed w' = Pg.committed w
    ∧ Pg.stale_reads w' = Pg.stale_reads w.
Proof.
  intros (sess & t & res & Ho & Hx & Hc & Hst & sess' & Ho' & Hs' & Hw & Hres)
    %pg_execute_ok.
  exists sess, t, res. do 2 (split; [done|]). split; [|done].
  exists sess'. split; [done|]. split; [by rewrite Hs'|]. split; [done|].
  intros rows Hl. rewrite Hres in Hl.
  destruct (decide (cursor_serial cur < length (Pg.results sess))%nat).
  - rewrite list_lookup_insert_eq in Hl by done. by injection Hl as <-.
  - rewrite list_insert_ge in Hl by lia.
    apply lookup_lt_Some in Hl. lia.
Qed.

Lemma tx_working cur w t res sess :
  tx cur w t res →
  Pg.open_session (cursor_connection cur) w = Some sess →
  Pg.working sess = t.
Proof. intros (sess0 & Ho & _ & Hw & _) Ho'. congruence. Qed.

Lemma pg_fetchone_tx cur w t res x w' :
  tx cur w t res →
  Pg.fetchone cur w = (Ok x, w') →
  ∃ rows, res = Some rows ∧ x = head rows
          ∧ tx cur w' t (Some (tail rows))
          ∧ Pg.committed w' = Pg.committed w
          ∧ Pg.stale_reads w' = Pg.stale_reads w.
Proof.
  intros (sess & Ho & Hst & Hw & Hres). pg_open. intros H.
  destruct (Pg.faulty w _); [done|]. rewrite Ho in H.
  destruct (Pg.results sess !! cursor_serial cur) as [[rows|]|] eqn:Hl;
    [|done..].
  specialize (Hres _ eq_refl). exists rows. split; [done|].
  pose proof (open_session_inv _ _ _ Ho) as (_ & Hsid & _).
  destruct rows as [|r rest]; injection H as <- <-.
  - split; [done|]. split; [|done].
    exists sess. do 3 (split; [done|]). simpl. intros rows Hr. congruence.
  - split; [done|]. split; [|done].
    eexists. split; [by apply (open_session_put _ w)|].
    do 2 (split; [done|]). simpl. intros rows Hr.
    apply lookup_lt_Some in Hl.
    rewrite list_lookup_insert_eq in Hr by done. by injection Hr as <-.
Qed.

Lemma pg_fetchall_tx cur w t res rows w' :
  tx cur w t res →
  Pg.fetchall cur w = (Ok rows, w') →
  res = Some rows
  ∧ tx cur w' t (Some [])
  ∧ Pg.committed w' = Pg.committed w
  ∧ Pg.stale_reads w' = Pg.stale_reads w.
Proof.
  intros (sess & Ho & Hst & Hw & Hres). pg_open. intros H.
  destruct (Pg.faulty w _); [done|]. rewrite Ho in H.
  destruct (Pg.results sess !! cursor_serial cur) as [[rows0|]|] eqn:Hl;
    [|done..].
  specialize (Hres _ eq_refl). injection H as <- <-.
  split; [done|]. split; [|done].
  pose proof (open_session_inv _ _ _ Ho) as (_ & Hsid & _).
  eexists. split; [by apply (open_session_put _ w)|].
  do 2 (split; [done|]). simpl. intros rows Hr.
  apply lookup_lt_Some in Hl.
  rewrite list_lookup_insert_eq in Hr by done. by injection Hr as <-.
Qed.

Lemma pg_commit_tx cur w t res u w' :
  tx cur w t res →
  Pg.commit (cursor_connection cur) w = (Ok u, w') →
  tables_are t w' ∧ Pg.stale_reads w' = Pg.stale_reads w.
Proof.
  intros (sess & Ho & Hst & Hw & _). pg_open. intros H.
  destruct (Pg.faulty w _); [done|]. rewrite Ho in H.
  rewrite decide_False in H by done. injection H as <- <-.
  split; [|done]. split; [done|]. by intros ? [= <-].
Qed.

Lemma pg_uuid4_world w u w' :
  Pg.uuid4 w = (u, w') →
  Pg.committed w' = Pg.committed w ∧ Pg.session w' = Pg.session w
  ∧ Pg.stale_reads w' = Pg.stale_reads w.
Proof. by intros [= <- <-]. Qed.

Lemma tx_session cur w w' t res :
  Pg.session w' = Pg.session w → tx cur w t res → tx cur w' t res.
Proof.
  intros Hs (sess & Ho & H). exists sess. split; [|done].
  unfold Pg.open_session in *. by rewrite Hs.
Qed.

Lemma pg_cursor_world c w cur w' :
  Pg.new_cursor c w = (Ok cur, w') →
  cursor_connection cur = c
  ∧ Pg.committed w' = Pg.committed w
  ∧ Pg.stale_reads w' = Pg.stale_reads w.
Proof. pg_open. intros H. pg_split_in H; by injection H as <- <-. Qed.

End PgTransactions.

(** X13. On the reference driver, when [DELETE /api/orders/clear] returns,
    the [orders] table is empty, in the committed tables and in the
    session's working copy, and [menu_items] is what the transaction saw:
    the deletion was committed. *)
Theorem clear_all_orders_empties (s : state Pg.World) (msg : string)
    (s' : state Pg.World) :
  clear_all_orders Pg.driver s = (Ok msg, s') →
  orders_are [] (world s')
  ∧ msg = "All orders deleted from the database"%string.
Proof.
  intros H. unfold clear_all_orders in H. rewrite run_bind in H.
  destruct (get_connection Pg.driver s) as [[conn|e] [w1 m1 t1]]; [|done].
  unfold_monad. unfold_prims.
  exec H Pg.driver; try discriminate H.
  injection H as <- <-. simpl in *.
  apply pg_cursor_world in E as (Hcur & _).
  apply pg_execute_tx in E0 as (sess & t & res & Ho & Hx & Htx & _).
  simpl in Hx. destruct (Pg.orders (Pg.working sess)); [|done].
  injection Hx as <- <-. rewrite <- Hcur in E1.
  apply (pg_commit_tx _ _ _ _ _ _ Htx) in E1 as [[Hc Hs] _].
  apply pg_cursor_close_world in E2 as ->.
  split; [|done]. split.
  - unfold id in Hc. by rewrite Hc.
  - intros sess' Hs'. specialize (Hs _ Hs'). unfold id in Hs. by rewrite Hs.
Qed.

Lemma clear_all_orders_empties_witness :
  let run := clear_all_orders Pg.driver Scenario.with_alice_order in
  orders_are [] (world run.2)
  ∧ Pg.orders (Pg.committed (world Scenario.with_alice_order)) ≠ Some [].
Proof.
  intros run. split; [|by vm_compute].
  refine (proj1 (clear_all_orders_empties Scenario.with_alice_order
                   "All orders deleted from the database" run.2 _)).
  vm_compute. reflexivity.
Defined.

Lemma view_is_working {A} (f : Pg.Tables → A) v w c sess :
  view_is f v w → Pg.open_session c w = Some sess → f (Pg.working sess) = v.
Proof. intros [_ Hs] Ho. by apply Hs, (open_session_session c). Qed.

(** X14. On the reference driver, when [ensure_tables_exist] returns, it
    returns [True] and both tables exist, committed; and when both tables
    exist already and no transaction holds uncommitted changes, a run of
    [ensure_tables_exist] leaves their rows exactly as they were, whether
    it returns or raises: CREATE TABLE IF NOT EXISTS is safe to repeat. *)
Theorem ensure_tables_exist_creates_once (s : state Pg.World)
    (r : result bool) (s' : state Pg.World) :
  ensure_tables_exist Pg.driver s = (r, s') →
  (∀ b, r = Ok b →
        b = true
        ∧ ∃ M O, tables_are {| Pg.menu_items := Some M; Pg.orders := Some O |}
                            (world s'))
  ∧ (∀ M O,
       tables_are {| Pg.menu_items := Some M; Pg.orders := Some O |} (world s) →
       tables_are {| Pg.menu_items := Some M; Pg.orders := Some O |} (world s')).
Proof.
  intros H. split.
  - intros b ->. unfold ensure_tables_exist in H. rewrite run_bind in H.
    destruct (get_connection Pg.driver s) as [[conn|e] [w1 m1 t1]]; [|done].
    unfold_monad. unfold_prims.
    exec H Pg.driver; try discriminate H.
    injection H as <- <-. simpl in *. split; [done|].
    apply pg_cursor_world in E as (Hcur & _).
    apply pg_execute_tx in E0 as (sess & t & res & Ho & Hx & Htx & _).
    simpl in Hx. injection Hx as <- <-.
    apply pg_cursor_close_world in E1 as ->.
    rewrite <- Hcur in E2.
    apply (pg_commit_tx _ _ _ _ _ _ Htx) in E2 as [HT _].
    pose proof (respects_cursor_run _ _ _ (pg_respects_tables _)
                  _ _ _ _ E3 HT) as HT3.
    apply pg_cursor_world in E3 as (Hcur0 & _).
    apply pg_execute_tx in E4 as (sess4 & t4 & res4 & Ho4 & Hx4 & Htx4 & _).
    pose proof (view_is_working _ _ _ _ _ HT3 Ho4) as Hw4. unfold id in Hw4.
    rewrite Hw4 in Hx4. simpl in Hx4. injection Hx4 as <- <-.
    apply pg_cursor_close_world in E5 as ->.
    rewrite <- Hcur0 in E6.
    apply (pg_commit_tx _ _ _ _ _ _ Htx4) in E6 as [HT6 _].
    eexists _, _. exact HT6.
  - intros M O HT.
    refine (preserves_run _ _ _ _ _ _ H HT).
    by apply (preserves_ensure_tables_exist _ _ _ (pg_respects_schema M O)).
Qed.

Lemma ensure_tables_exist_creates_once_witness :
  let s := Pg.boot (Pg.fresh 1000) in
  let first := ensure_tables_exist Pg.driver s in
  let again := ensure_tables_exist Pg.driver first.2 in
  tables_are {| Pg.menu_items := Some []; Pg.orders := Some [] |}
             (world first.2)
  ∧ tables_are {| Pg.menu_items := Some []; Pg.orders := Some [] |}
               (world again.2).
Proof.
  intros s first again.
  assert (H1 : tables_are {| Pg.menu_items := Some []; Pg.orders := Some [] |}
                 (world first.2)).
  { split; [vm_compute; reflexivity|]. intros sess H. vm_compute in H.
    injection H as <-. vm_compute. reflexivity. }
  split; [exact H1|].
  refine (proj2 (ensure_tables_exist_creates_once first.2 again.1 again.2 _)
            [] [] H1).
  vm_compute. reflexivity.
Defined.

Section PgReads.

Lemma insert_sorted_perm {A} (le : A → A → bool) x l :
  Pg.insert_sorted le x l ≡ₚ x :: l.
Proof.
  induction l as [|y l IH]; simpl; [done|].
  destruct (le x y); [done|]. rewrite IH. apply Permutation_swap.
Qed.

Lemma sort_by_perm {A} (le : A → A → bool) l : Pg.sort_by le l ≡ₚ l.
Proof.
  induction l as [|x l IH]; simpl; [done|].
  rewrite insert_sorted_perm. by rewrite IH.
Qed.

Lemma convert_menu_rows l :
  convert_rows menu_item_of_row (map MenuItemRow l) = Ok l.
Proof. induction l as [|x l IH]; simpl; [done|]. by rewrite IH. Qed.

Lemma convert_order_rows l :
  convert_rows order_of_row (map OrderRow l) = Ok l.
Proof. induction l as [|x l IH]; simpl; [done|]. by rewrite IH. Qed.

End PgReads.

(** X15. On the reference driver, when no transaction holds uncommitted
    changes: a list that [get_menu_items] returns is either the available
    rows of [menu_items], each once and no other, or the in-memory sample
    list; a list that [get_all_orders] returns is either the rows of
    [orders], each once and no other, or the empty list. *)
Theorem read_paths_return_rows (R : list MenuItem.t) (O : list Order.t)
    (s : state Pg.World) :
  menu_is R (world s) → orders_are O (world s) →
  (∀ items s', get_menu_items Pg.driver s = (Ok items, s') →
     items ≡ₚ filter (λ r, MenuItem.available r = true) R
     ∨ is_sample_menu items)
  ∧ (∀ orders s', get_all_orders Pg.driver s = (Ok orders, s') →
       orders ≡ₚ O ∨ orders = []).
Proof.
  intros HM HO.
  destruct (get_connection Pg.driver s) as [[conn|e] [w1 m1 t1]] eqn:Hgc.
  2:{ unfold get_menu_items, get_all_orders. rewrite !run_bind, Hgc.
      by split. }
  pose proof (preserves_run _ _ _ _ _
                (preserves_get_connection _ _ _ (pg_respects_menu R))
                Hgc HM) as HM1.
  pose proof (preserves_run _ _ _ _ _
                (preserves_get_connection _ _ _ (pg_respects_orders O))
                Hgc HO) as HO1.
  simpl in HM1, HO1. clear HM HO.
  split.
  - intros items s' H.
    unfold get_menu_items in H. rewrite run_bind, Hgc in H.
    unfold_monad. unfold_prims. norm.
    exec H Pg.driver; rewrite ?collect_lift in H;
      try (destruct (convert_rows menu_item_of_row _) eqn:Hconv);
      exec H Pg.driver; try discriminate H.
    all: try match type of H with
             | get_sample_menu_items ?D' ?st = _ =>
                 destruct (get_sample_menu_items_spec D' st)
                   as (items0 & evs & w' & Hs & Hsm & Hc);
                 rewrite Hs in H; injection H as <- <-; by right
             end.
    injection H as <- <-. left.
    pose proof (respects_cursor_run _ _ _ (pg_respects_menu R)
                  _ _ _ _ E HM1) as HM2.
    apply pg_execute_tx in E0 as (sess & t & res & Ho & Hx & Htx & _).
    pose proof (view_is_working _ _ _ _ _ HM2 Ho) as Hw.
    destruct HM2 as [Hc _]. simpl in Hx.
    assert (Hread : Pg.menu_items
              (if Pg.stale_reads w then Pg.committed w else Pg.working sess)
            = Some R) by by destruct (Pg.stale_reads w).
    rewrite Hread in Hx. injection Hx as <- <-.
    apply (pg_fetchall_tx _ _ _ _ _ _ Htx) in E1 as ([= <-] & _).
    rewrite convert_menu_rows in Hconv. injection Hconv as <-.
    apply sort_by_perm.
  - intros orders s' H.
    unfold get_all_orders in H. rewrite run_bind, Hgc in H.
    unfold_monad. unfold_prims. norm.
    exec H Pg.driver; rewrite ?collect_lift in H;
      try (destruct (convert_rows order_of_row _) eqn:Hconv);
      exec H Pg.driver; try discriminate H.
    all: injection H as <- <-; try by right.
    left.
    pose proof (respects_cursor_run _ _ _ (pg_respects_orders O)
                  _ _ _ _ E HO1) as HO2.
    apply pg_execute_tx in E0 as (sess & t & res & Ho & Hx & Htx & _).
    pose proof (view_is_working _ _ _ _ _ HO2 Ho) as Hw.
    destruct HO2 as [Hc _]. simpl in Hx.
    assert (Hread : Pg.orders
              (if Pg.stale_reads w then Pg.committed w else Pg.working sess)
            = Some O) by by destruct (Pg.stale_reads w).
    rewrite Hread in Hx. injection Hx as <- <-.
    apply (pg_fetchall_tx _ _ _ _ _ _ Htx) in E1 as ([= <-] & _).
    rewrite convert_order_rows in Hconv. injection Hconv as <-.
    apply sort_by_perm.
Qed.

Lemma read_paths_return_rows_witness :
  let s := Scenario.with_alice_order in
  let R := default [] (Pg.menu_items (Pg.committed (world s))) in
  let O := default [] (Pg.orders (Pg.committed (world s))) in
  let items := returned (get_menu_items Pg.driver s).1 in
  let orders := returned (get_all_orders Pg.driver s).1 in
  (length R = 6%nat ∧ length O = 1%nat)
  ∧ (items ≡ₚ filter (λ r, MenuItem.available r = true) R
     ∨ is_sample_menu items)
  ∧ (orders ≡ₚ O ∨ orders = []).
Proof.
  intros s R O items orders.
  split; [by vm_compute|].
  assert (HM : menu_is R (world s)).
  { split; [vm_compute; reflexivity|]. intros sess H. vm_compute in H.
    injection H as <-. vm_compute. reflexivity. }
  assert (HO : orders_are O (world s)).
  { split; [vm_compute; reflexivity|]. intros sess H. vm_compute in H.
    injection H as <-. vm_compute. reflexivity. }
  destruct (read_paths_return_rows R O s HM HO) as [Hm Ho].
  split.
  - apply (Hm items (get_menu_items Pg.driver s).2).
    vm_compute. reflexivity.
  - apply (Ho orders (get_all_orders Pg.driver s).2).
    vm_compute. reflexivity.
Defined.

Lemma filter_order_id_fresh (u : string) (O : list Order.t) :
  u ∉ map Order.id O → filter (λ r, Order.id r = u) O = [].
Proof.
  induction O as [|x O IH]; [done|]. simpl. intros Hn.
  apply not_elem_of_cons in Hn as [Hx Hn].
  rewrite filter_cons_False by (intros E; by rewrite E in Hx). by apply IH.
Qed.



(** X17. On the reference driver, where queries see the transaction in
    progress: when [POST /api/initialize] returns, the menu is not empty,
    the two counts of the answer are the numbers of rows of [menu_items]
    and of [orders], and these rows are committed. *)
Theorem initialize_database_endpoint_counts (s : state Pg.World)
    (resp : InitializeResponse) (s' : state Pg.World) :
  Pg.stale_reads (world s) = false →
  initialize_database_endpoint Pg.driver s = (Ok resp, s') →
  ∃ R O, R ≠ []
         ∧ menu_is R (world s') ∧ orders_are O (world s')
         ∧ menu_items_count resp = Z.of_nat (length R)
         ∧ orders_count resp = Z.of_nat (length O).
Proof.
  intros Hst H. unfold initialize_database_endpoint in H.
  rewrite run_bind in H.
  destruct (get_connection Pg.driver s) as [[conn|e] [w1 m1 t1]] eqn:Hgc;
    [|done].
  pose proof (preserves_run _ _ _ _ _
                (preserves_get_connection _ _ _ (pg_respects_stale false))
                Hgc Hst) as Hst1.
  simpl in Hst1. clear Hgc Hst.
  unfold_monad. unfold_prims. unfold row_count in H.
  exec_rows H Pg.driver; try discriminate H.
  destruct (initialize_database_with_sample_data Pg.driver _)
    as [[[]|e] [w3 m3 t3]] eqn:Hinit.
  2:{ exec_rows H Pg.driver; discriminate H. }
  apply pg_cursor_world in E as (Hcur & _ & HstE).
  assert (Hst2 : Pg.stale_reads w = false) by congruence.
  pose proof (preserves_run _ _ _ _ _
                (preserves_initialize _ _
                   (respects_weaken _ _ _ _ (λ _ _, eq_refl)
                      (pg_respects_stale false)))
                Hinit Hst2) as Hst3.
  apply initialize_seeds in Hinit as (R & HR & HM); [|exact Hst2].
  simpl in Hst3, HM.
  exec_rows H Pg.driver; try discriminate H.
  injection H as <- <-. simpl.
  simpl in E, E0, E1, E2, E3, E4.
  apply pg_execute_tx in E as (sess & tb & res & Ho & Hx & Htx & _ & HstX).
  pose proof (view_is_working _ _ _ _ _ HM Ho) as Hw.
  rewrite Hst3 in Hx. simpl in Hx. rewrite Hw in Hx. injection Hx as <- <-.
  apply (pg_fetchone_tx _ _ _ _ _ _ Htx) in E0
    as (rows & [= <-] & [= ->] & Htx0 & _ & HstF).
  apply pg_execute_tx in E1 as (sess1 & tb1 & res1 & Ho1 & Hx1 & Htx1 & _ & _).
  assert (Hs1 : Pg.stale_reads w2 = false) by congruence.
  rewrite Hs1, (tx_working _ _ _ _ _ Htx0 Ho1) in Hx1. simpl in Hx1.
  destruct (Pg.orders (Pg.working sess)) as [O|] eqn:HO; [|done].
  injection Hx1 as <- <-.
  apply (pg_fetchone_tx _ _ _ _ _ _ Htx1) in E2
    as (rows1 & [= <-] & [= ->] & Htx2 & _).
  rewrite <- Hcur in E3.
  apply (pg_commit_tx _ _ _ _ _ _ Htx2) in E3 as [[Hc Hs] _].
  apply pg_cursor_close_world in E4 as ->.
  exists R, O. split; [exact HR|]. unfold id in *.
  split; [|split; [|done]].
  - split; [by rewrite Hc|]. intros sess' Hs'. by rewrite (Hs _ Hs').
  - split; [by rewrite Hc|]. intros sess' Hs'. by rewrite (Hs _ Hs').
Qed.

Lemma initialize_database_endpoint_counts_witness :
  let run := initialize_database_endpoint Pg.driver
               Scenario.with_alice_order in
  ∃ resp, run.1 = Ok resp
          ∧ menu_items_count resp = 6 ∧ orders_count resp = 1.
Proof.
  intros run.
  pose (resp := match run.1 with
                | Ok resp => resp
                | Raise _ => {| message := ""; menu_items_count := 0;
                                orders_count := 0 |}
                end).
  exists resp. split; [vm_compute; reflexivity|].
  assert (Hrun : initialize_database_endpoint Pg.driver
                   Scenario.with_alice_order = (Ok resp, run.2))
    by (vm_compute; reflexivity).
  assert (Hst : Pg.stale_reads (world Scenario.with_alice_order) = false)
    by (vm_compute; reflexivity).
  destruct (initialize_database_endpoint_counts _ _ _ Hst Hrun)
    as (R & O & _ & [HR _] & [HO _] & -> & ->).
  vm_compute in HR, HO. injection HR as <-. injection HO as <-.
  split; reflexivity.
Defined.

(** ** More on the validators *)

From Stdlib Require Import Lqa.

Section ValidatorsMore.
Open Scope Q_scope.

(** Rounding moves a number by a half at most. *)
Lemma round_half_even_near (x : Q) :
  x - (1 # 2) <= inject_Z (round_half_even x)
  ∧ inject_Z (round_half_even x) <= x + (1 # 2).
Proof.
  unfold round_half_even.
  pose proof (Qfloor_le x) as Hlo. pose proof (Qlt_floor x) as Hhi.
  rewrite inject_Z_plus in Hhi. change (inject_Z 1) with 1 in Hhi.
  destruct (x - inject_Z (Qfloor x) ?= 1 # 2) eqn:E.
  - apply Qeq_alt in E.
    destruct (Z.even (Qfloor x)); rewrite ?inject_Z_plus;
      change (inject_Z 1) with 1; split; lra.
  - apply Qlt_alt in E. split; lra.
  - apply Qgt_alt in E. rewrite inject_Z_plus.
    change (inject_Z 1) with 1. split; lra.
Qed.

Lemma py_round2_near (v : Q) :
  v - (1 # 200) <= py_round2 v ∧ py_round2 v <= v + (1 # 200).
Proof.
  unfold py_round2. pose proof (round_half_even_near (v * 100)) as [H1 H2].
  set (r := inject_Z (round_half_even (v * 100))) in *.
  unfold Qdiv. change (/ 100) with (1 # 100). split; lra.
Qed.

Lemma py_round2_positive (v : Q) : 1 # 200 < v → 0 < py_round2 v.
Proof.
  intros Hv. unfold py_round2.
  assert (H : (1 ≤ round_half_even (v * 100))%Z).
  { pose proof (round_half_even_near (v * 100)) as [H1 _].
    assert (H0 : 0 < inject_Z (round_half_even (v * 100))) by lra.
    change 0 with (inject_Z 0) in H0. rewrite <- Zlt_Qlt in H0. lia. }
  rewrite Zle_Qle in H. change (inject_Z 1) with 1 in H.
  unfold Qdiv. change (/ 100) with (1 # 100). lra.
Qed.

End ValidatorsMore.


Section OrderTotal.
Open Scope Q_scope.

Lemma line_amount_bounds (item : OrderItemCreate) :
  line_in_range item →
  0 < item_price item * inject_Z (item_quantity item)
  ∧ item_price item * inject_Z (item_quantity item) <= 1000000.
Proof.
  intros (H0 & H1 & Hq1 & Hq2).
  rewrite Zle_Qle in Hq1, Hq2.
  change (inject_Z 1) with 1 in Hq1. change (inject_Z 100) with 100 in Hq2.
  set (p := item_price item) in *. set (q := inject_Z _) in *.
  split; nra.
Qed.

Lemma sum_price_times_quantity_bounds (l : list OrderItemCreate) :
  Forall line_in_range l →
  0 <= sum_price_times_quantity l
  ∧ sum_price_times_quantity l
    <= 1000000 * inject_Z (Z.of_nat (length l)).
Proof.
  induction 1 as [|item l Hi Hl [IH0 IH1]]; simpl length; simpl sum_price_times_quantity.
  - change (inject_Z (Z.of_nat 0)) with 0. split; lra.
  - apply line_amount_bounds in Hi as [Ha Hb].
    rewrite Nat2Z.inj_succ, <- Z.add_1_r, inject_Z_plus.
    change (inject_Z 1) with 1. split; lra.
Qed.

End OrderTotal.



Lemma sanitize_string_clean (v : string) (n : Z) :
  0 ≤ n →
  (Z.of_nat (String.length (sanitize_string v n)) ≤ n)
  ∧ (PyStr.null ∉ PyStr.chars (sanitize_string v n))
  ∧ (∀ c rest, PyStr.chars (sanitize_string v n) = c :: rest →
               PyStr.isspace c = false)
  ∧ (∀ c init, PyStr.chars (sanitize_string v n) = init ++ [c] →
               PyStr.isspace c = false).
Proof.
  intros Hn. unfold sanitize_string. case_decide as E.
  { simpl. repeat split; try lia; try done.
    - apply not_elem_of_nil.
    - intros c init Hi. by destruct init. }
  rewrite <- length_chars, !chars_of_chars.
  split; [|split; [|split]].
  - pose proof (strip_length
      (PyStr.slice_to n (PyStr.replace_null (PyStr.chars v)))).
    pose proof (slice_to_length n
      (PyStr.replace_null (PyStr.chars v)) Hn). lia.
  - intros Hx. apply strip_elem, slice_to_elem in Hx.
    by apply replace_null_free in Hx.
  - apply strip_first.
  - apply strip_last.
Qed.

Lemma sanitize_string_id (v : string) (n : Z) :
  (Z.of_nat (String.length v) ≤ n) →
  (PyStr.null ∉ PyStr.chars v) →
  (∀ c rest, PyStr.chars v = c :: rest → PyStr.isspace c = false) →
  (∀ c init, PyStr.chars v = init ++ [c] → PyStr.isspace c = false) →
  sanitize_string v n = v.
Proof.
  intros Hlen Hnull Hfirst Hlast.
  unfold sanitize_string. case_decide as E; [done|].
  rewrite replace_null_id by done.
  rewrite slice_to_id by (rewrite length_chars; lia).
  rewrite strip_id by done. apply of_chars_chars.
Qed.

(** X20. For every bound [max_length] that is not negative, the strings
    that [sanitize_string] leaves as they are are exactly the clean ones:
    at most [max_length] characters, no null byte, no whitespace at either
    end. *)
Theorem sanitize_string_fixpoints (v : string) (n : Z) :
  0 ≤ n →
  sanitize_string v n = v
  ↔ (Z.of_nat (String.length v) ≤ n)
    ∧ (PyStr.null ∉ PyStr.chars v)
    ∧ (∀ c rest, PyStr.chars v = c :: rest → PyStr.isspace c = false)
    ∧ (∀ c init, PyStr.chars v = init ++ [c] → PyStr.isspace c = false).
Proof.
  intros Hn. split.
  - intros H. pose proof (sanitize_string_clean v n Hn) as Hc.
    by rewrite H in Hc.
  - intros (Hlen & Hnull & Hfirst & Hlast). by apply sanitize_string_id.
Qed.

Lemma sanitize_string_fixpoints_witness :
  sanitize_string "Alice Smith" 255 = "Alice Smith"%string
  ∧ sanitize_string " Alice Smith" 255 ≠ " Alice Smith"%string.
Proof.
  split.
  - apply (sanitize_string_fixpoints "Alice Smith" 255); [lia|].
    split; [by vm_compute|].
    split; [apply (bool_decide_unpack _); by vm_compute|].
    split; intros c l H; vm_compute in H.
    + by injection H as <- _.
    + apply (f_equal (@rev _)) in H. rewrite rev_app_distr in H.
      simpl in H. by injection H as <- _.
  - intros H.
    apply (sanitize_string_fixpoints " Alice Smith" 255) in H as (_ & _ & H & _);
      [|lia].
    by specialize (H " "%char _ eq_refl).
Defined.

(** ** Whitespace normalisation and tags *)

Section Normalize.
Import PyText.

Lemma join_cons sep w ws :
  join sep (w :: ws) = match ws with [] => w | _ => w ++ sep ++ join sep ws end.
Proof. reflexivity. Qed.

Lemma split_ws_words l : ∀ word,
  Forall (λ c, PyStr.isspace c = false) word → Forall is_word (split_ws word l).
Proof.
  induction l as [|c l IH]; intros word Hw; simpl.
  - destruct word; [constructor|]. by apply Forall_singleton.
  - destruct (PyStr.isspace c) eqn:Ec.
    + destruct word; [by apply IH|].
      constructor; [done|]. by apply IH.
    + apply IH. apply Forall_app. split; [done|]. by apply Forall_singleton.
Qed.

Lemma split_words l : Forall is_word (split l).
Proof. by apply split_ws_words. Qed.

Lemma squeezed_refl w : Forall (λ c, PyStr.isspace c = false) w → squeezed w w.
Proof. induction 1; by constructor. Qed.

Lemma squeezed_app w l l' :
  Forall (λ c, PyStr.isspace c = false) w → squeezed l l' → squeezed (w ++ l) (w ++ l').
Proof. intros Hw Hs. induction Hw; simpl; [done|]. by constructor. Qed.

Lemma split_ws_squeezed l : ∀ word,
  Forall (λ c, PyStr.isspace c = false) word →
  squeezed (word ++ l) (join [" "%char] (split_ws word l)).
Proof.
  induction l as [|c l IH]; intros word Hw; simpl split_ws.
  - rewrite app_nil_r. destruct word; [constructor|].
    by apply squeezed_refl.
  - destruct (PyStr.isspace c) eqn:Ec.
    + specialize (IH [] ltac:(constructor)). simpl in IH.
      destruct word as [|a word].
      * simpl. by apply squeezed_drop.
      * rewrite join_cons.
        destruct (split_ws [] l) as [|w ws] eqn:Es.
        -- rewrite <- (app_nil_r (a :: word)) at 2.
           apply squeezed_app; [done|]. by apply squeezed_drop.
        -- apply squeezed_app; [done|]. by apply squeezed_space.
    + rewrite (cons_middle c word l), app_assoc. apply IH.
      apply Forall_app. split; [done|]. by apply Forall_singleton.
Qed.

Lemma normalize_squeezed l : squeezed l (normalize_spaces l).
Proof. apply (split_ws_squeezed l []). constructor. Qed.

Lemma squeezed_length l l' : squeezed l l' → (length l' ≤ length l)%nat.
Proof. induction 1; simpl; lia. Qed.

Lemma squeezed_elem l l' c :
  squeezed l l' → c ∈ l' → c ∈ l ∨ c = " "%char.
Proof.
  induction 1 as [|a l l' Ha H IH|a l l' Ha H IH|a l l' Ha H IH]; intros Hc.
  - by apply elem_of_nil in Hc.
  - apply elem_of_cons in Hc as [->|Hc]; [left; constructor|].
    destruct (IH Hc); [left; by constructor | by right].
  - destruct (IH Hc); [left; by constructor | by right].
  - apply elem_of_cons in Hc as [->|Hc]; [by right|].
    destruct (IH Hc); [left; by constructor | by right].
Qed.

(** Words joined by single spaces. *)
Lemma join_first ws c rest :
  Forall is_word ws → join [" "%char] ws = c :: rest →
  PyStr.isspace c = false.
Proof.
  intros Hws H. destruct Hws as [|w ws [Hne Hw] Hws]; [done|].
  rewrite join_cons in H. destruct w as [|a w]; [done|].
  apply Forall_cons in Hw as [Ha _].
  destruct ws; simpl in H; by injection H as <- _.
Qed.

Lemma join_last ws c init :
  Forall is_word ws → join [" "%char] ws = init ++ [c] →
  PyStr.isspace c = false.
Proof.
  intros Hws. revert init.
  induction Hws as [|w ws [Hne Hw] Hws IH]; intros init H.
  - by destruct init.
  - rewrite join_cons in H. destruct ws as [|w2 ws].
    + subst w. apply Forall_app in Hw as [_ Hc].
      by apply Forall_inv in Hc.
    + destruct (join [" "%char] (w2 :: ws)) as [|x xs] eqn:Ej using rev_ind.
      * apply Forall_cons in Hws as [[Hne2 _] _].
        rewrite join_cons in Ej. destruct w2; [done|].
        destruct ws; discriminate Ej.
      * clear IHxs. rewrite !app_assoc in H.
        apply app_inj_tail in H as [_ <-]. by apply (IH xs).
Qed.

Lemma join_nil ws :
  Forall is_word ws → join [" "%char] ws = [] → ws = [].
Proof.
  intros Hws H. destruct Hws as [|w ws [Hne Hw] Hws]; [done|].
  rewrite join_cons in H. destruct w; [done|]. destruct ws; discriminate H.
Qed.

Lemma split_ws_app_word w : ∀ word l,
  Forall (λ c, PyStr.isspace c = false) w → split_ws word (w ++ l) = split_ws (word ++ w) l.
Proof.
  induction w as [|c w IH]; intros word l Hw; simpl.
  - by rewrite app_nil_r.
  - apply Forall_cons in Hw as [Hc Hw]. rewrite Hc.
    rewrite IH by done. by rewrite <- app_assoc.
Qed.

Lemma split_join ws :
  Forall is_word ws → split (join [" "%char] ws) = ws.
Proof.
  unfold split. induction 1 as [|w ws [Hne Hw] Hws IH]; [done|].
  rewrite join_cons. destruct ws as [|w2 ws].
  - rewrite <- (app_nil_r w) at 1. rewrite split_ws_app_word by done.
    simpl. by destruct w.
  - rewrite split_ws_app_word by done. cbn [app split_ws].
    change (PyStr.isspace " "%char) with true. cbn iota.
    destruct w; [done|]. f_equal. exact IH.
Qed.

Lemma normalize_idempotent l :
  normalize_spaces (normalize_spaces l) = normalize_spaces l.
Proof.
  unfold normalize_spaces. rewrite split_join; [done|]. apply split_words.
Qed.

End Normalize.

Section Tags.
Import PyText.

Lemma until_gt_app mid post :
  ">"%char ∉ mid → until_gt (mid ++ ">"%char :: post) = Some (S (length mid)).
Proof.
  induction mid as [|c mid IH]; intros Hn; simpl.
  - reflexivity.
  - apply not_elem_of_cons in Hn as [Hc Hn].
    rewrite decide_False by done. by rewrite IH.
Qed.

Lemma until_gt_none l : until_gt l = None → ">"%char ∉ l.
Proof.
  induction l as [|c l IH]; simpl; [intros _; apply not_elem_of_nil|].
  case_decide as Ec; [done|]. intros Hu.
  destruct (until_gt l); [done|].
  apply not_elem_of_cons. split; [done|]. by apply IH.
Qed.

Lemma until_gt_fresh l : ">"%char ∉ l → until_gt l = None.
Proof.
  induction l as [|c l IH]; [done|]. intros Hn. simpl.
  apply not_elem_of_cons in Hn as [Hc Hn].
  rewrite decide_False by done. by rewrite IH.
Qed.

Lemma tag_length_match mid post :
  mid ≠ [] → ">"%char ∉ mid →
  tag_length (mid ++ ">"%char :: post) = Some (S (length mid)).
Proof.
  intros Hne Hn. destruct mid as [|c mid]; [done|]. simpl.
  apply not_elem_of_cons in Hn as [Hc Hn].
  rewrite decide_False by done. by rewrite until_gt_app.
Qed.

Lemma tag_length_none l :
  tag_length l = None →
  l = [] ∨ (∃ l', l = ">"%char :: l') ∨ ">"%char ∉ l.
Proof.
  destruct l as [|c l]; [by left|]. simpl.
  case_decide as E; [subst c; right; left; eauto|].
  intros H. right. right.
  destruct (until_gt l) eqn:Eu; [done|].
  apply not_elem_of_cons. split; [done|]. by apply until_gt_none.
Qed.

Lemma tag_length_fresh l : ">"%char ∉ l → tag_length l = None.
Proof.
  destruct l as [|c l]; [done|]. intros Hn. simpl.
  apply not_elem_of_cons in Hn as [Hc Hn].
  rewrite decide_False by done. by rewrite until_gt_fresh.
Qed.

Lemma tag_free_app_r pre l : tag_free (pre ++ l) → tag_free l.
Proof. induction pre as [|c pre IH]; [done|]. intros [_ H]. by apply IH. Qed.

Lemma tag_free_no_tag l : tag_free l → ¬ has_tag l.
Proof.
  intros Hf (pre & mid & post & -> & Hne & Hn).
  apply tag_free_app_r in Hf as [Hf _].
  specialize (Hf eq_refl). by rewrite tag_length_match in Hf.
Qed.

Lemma sub_tags_elem l : ∀ k c, c ∈ sub_tags k l → c ∈ l.
Proof.
  induction l as [|a l IH]; intros k c; simpl; [done|].
  destruct k as [|k]; [|intros H; right; by eapply IH].
  case_decide.
  - destruct (tag_length l).
    + intros H'. right. by eapply IH.
    + intros [->|H']%elem_of_cons; [left|right; by eapply IH].
  - intros [->|H']%elem_of_cons; [left|right; by eapply IH].
Qed.

Lemma sub_tags_length l : ∀ k, (length (sub_tags k l) ≤ length l)%nat.
Proof.
  induction l as [|a l IH]; intros k; simpl; [done|].
  destruct k as [|k]; [|specialize (IH k); lia].
  case_decide.
  - destruct (tag_length l) as [n|]; [specialize (IH n)|specialize (IH 0%nat)];
      simpl; lia.
  - specialize (IH 0%nat). simpl. lia.
Qed.

Lemma sub_tags_keeps_none l :
  tag_length l = None → tag_length (sub_tags 0 l) = None.
Proof.
  intros [->|[[l' ->]|Hn]]%tag_length_none; [done| |].
  - reflexivity.
  - apply tag_length_fresh. intros H. by apply sub_tags_elem in H.
Qed.

Lemma sub_tags_tag_free l : ∀ k, tag_free (sub_tags k l).
Proof.
  induction l as [|a l IH]; intros k; simpl; [done|].
  destruct k as [|k]; [|apply IH].
  case_decide as Ea.
  - destruct (tag_length l) eqn:Et; [apply IH|].
    split; [|apply IH]. intros _. by apply sub_tags_keeps_none.
  - split; [done|apply IH].
Qed.

Lemma sub_tags_id l : tag_free l → sub_tags 0 l = l.
Proof.
  induction l as [|a l IH]; [done|]. intros [Ha Hl]. simpl.
  case_decide as Ea; [rewrite (Ha Ea)|]; by rewrite IH.
Qed.

Lemma squeezed_nil_inv l' : squeezed [] l' → l' = [].
Proof. by inversion 1. Qed.

Lemma squeezed_keeps_none l l' :
  squeezed l l' → tag_length l = None → tag_length l' = None.
Proof.
  intros Hs [->|[[l0 ->]|Hn]]%tag_length_none.
  - by apply squeezed_nil_inv in Hs as ->.
  - inversion Hs; subst; [|done..]. reflexivity.
  - apply tag_length_fresh. intros H.
    by apply (squeezed_elem _ _ _ Hs) in H as [H|H].
Qed.

Lemma squeezed_tag_free l l' : squeezed l l' → tag_free l → tag_free l'.
Proof.
  induction 1 as [|a l l' Ha H IH|a l l' Ha H IH|a l l' Ha H IH];
    simpl; [done| | |].
  - intros [Hl Hf]. split; [|by apply IH].
    intros E. apply (squeezed_keeps_none l); auto.
  - intros [_ Hf]. by apply IH.
  - intros [_ Hf]. split; [done|by apply IH].
Qed.

Lemma join_spaces ws c :
  Forall is_word ws → c ∈ join [" "%char] ws →
  PyStr.isspace c = true → c = " "%char.
Proof.
  induction 1 as [|w ws [Hne Hw] Hws IH]; intros Hc Hsp.
  - by apply elem_of_nil in Hc.
  - rewrite join_cons in Hc.
    assert (Hin : c ∈ w → False).
    { intros Hin. rewrite Forall_forall in Hw. apply Hw in Hin. congruence. }
    destruct ws as [|w2 ws]; [done|].
    apply elem_of_app in Hc as [Hc|Hc]; [done|].
    apply elem_of_cons in Hc as [->|Hc]; [done|]. by apply IH.
Qed.

End Tags.

Lemma validate_text_fields_Ok (v r : string) :
  validate_text_fields v = Ok r →
  r = PyStr.of_chars
        (PyText.normalize_spaces (PyText.remove_tags (PyStr.chars v)))
  ∧ PyText.normalize_spaces (PyText.remove_tags (PyStr.chars v)) ≠ [].
Proof.
  unfold validate_text_fields.
  destruct (PyText.normalize_spaces _) eqn:E; [done|].
  intros [= <-]. by split.
Qed.

(** X21. A value that [MenuItemCreate.validate_text_fields] accepts is
    returned without any HTML tag (no match of [<[^>]+>] is left), not
    empty, no longer than the input, without whitespace at either end and
    with no whitespace character other than the space; and the validator
    accepts its own result unchanged. *)
Theorem validate_text_fields_clean (v r : string) :
  validate_text_fields v = Ok r →
  r ≠ ""%string
  ∧ (String.length r ≤ String.length v)%nat
  ∧ ¬ has_tag (PyStr.chars r)
  ∧ (∀ c rest, PyStr.chars r = c :: rest → PyStr.isspace c = false)
  ∧ (∀ c init, PyStr.chars r = init ++ [c] → PyStr.isspace c = false)
  ∧ (∀ c, c ∈ PyStr.chars r → PyStr.isspace c = true → c = " "%char)
  ∧ validate_text_fields r = Ok r.
Proof.
  intros [-> Hne]%validate_text_fields_Ok.
  set (T := PyText.remove_tags (PyStr.chars v)) in *.
  pose proof (normalize_squeezed T) as Hsq.
  pose proof (split_words T) as Hw.
  assert (Hfree : tag_free (PyText.normalize_spaces T)).
  { apply (squeezed_tag_free T); [done|]. apply sub_tags_tag_free. }
  rewrite chars_of_chars.
  split; [|split; [|split; [|split; [|split; [|split]]]]].
  - intros E. apply (f_equal PyStr.chars) in E.
    by rewrite chars_of_chars in E.
  - rewrite <- !length_chars, chars_of_chars.
    etrans; [by apply squeezed_length|]. apply sub_tags_length.
  - by apply tag_free_no_tag.
  - intros c rest. by apply join_first.
  - intros c init. by apply join_last.
  - intros c. by apply join_spaces.
  - unfold validate_text_fields. rewrite chars_of_chars.
    change (PyText.remove_tags (PyText.normalize_spaces T))
      with (PyText.sub_tags 0 (PyText.normalize_spaces T)).
    rewrite !sub_tags_id by done. rewrite !normalize_idempotent.
    clear -Hne. by destruct (PyText.normalize_spaces T).
Qed.

Lemma validate_text_fields_clean_witness :
  validate_text_fields "  <b>Lamb</b>   Kabob <script>" = Ok "Lamb Kabob"%string
  ∧ validate_text_fields "Lamb Kabob" = Ok "Lamb Kabob"%string.
Proof.
  split; [reflexivity|].
  refine (proj2 (proj2 (proj2 (proj2 (proj2 (proj2
    (validate_text_fields_clean "  <b>Lamb</b>   Kabob <script>"
       "Lamb Kabob" _))))))).
  reflexivity.
Defined.

Section ValidateName.
Import PyText.

Lemma squeezed_to_nil l :
  squeezed l [] → Forall (λ c, PyStr.isspace c = true) l.
Proof.
  remember [] as l' eqn:E. induction 1; try discriminate E; constructor; auto.
Qed.

Lemma split_ws_spaces l :
  Forall (λ c, PyStr.isspace c = true) l → split_ws [] l = [].
Proof. induction 1 as [|c l Hc Hl IH]; simpl; [done|]. by rewrite Hc. Qed.

Lemma normalize_nil l :
  normalize_spaces l = [] ↔ Forall (λ c, PyStr.isspace c = true) l.
Proof.
  split.
  - intros E. apply squeezed_to_nil. rewrite <- E. apply normalize_squeezed.
  - intros H. unfold normalize_spaces, split. by rewrite split_ws_spaces.
Qed.

Lemma name_char_cases c :
  name_char c = true →
  is_ascii_letter c = true ∨ PyStr.isspace c = true
  ∨ c = "-"%char ∨ c = "'"%char.
Proof.
  unfold name_char. rewrite !orb_true_iff, !bool_decide_eq_true. tauto.
Qed.

Lemma validate_name_Ok (v r : string) :
  validate_name v = Ok r →
  r = PyStr.of_chars (normalize_spaces (PyStr.chars v))
  ∧ PyStr.chars v ≠ []
  ∧ Forall (λ c, name_char c = true) (PyStr.chars v).
Proof.
  unfold validate_name. destruct (PyStr.chars v) as [|a l] eqn:E; [done|].
  destruct (forallb name_char (a :: l)) eqn:Ef; [|done].
  intros [= <-]. split; [done|]. split; [done|].
  apply Forall_forall. intros c Hc. rewrite forallb_forall in Ef.
  apply Ef. by apply list_elem_of_In.
Qed.

End ValidateName.

(** X22. A name that [OrderCreate.validate_name] accepts is returned with
    letters, single spaces, hyphens and apostrophes only, no longer than the
    input and without whitespace at either end; it is empty exactly when the
    input was whitespace only; when the input had at most 255 characters the
    sanitization in [create_order] leaves the result as it is; and unless
    it is empty the validator accepts its own result unchanged. *)
Theorem validate_name_clean (v r : string) :
  validate_name v = Ok r →
  (∀ c, c ∈ PyStr.chars r →
        PyText.is_ascii_letter c = true
        ∨ c = " "%char ∨ c = "-"%char ∨ c = "'"%char)
  ∧ (∀ c rest, PyStr.chars r = c :: rest → PyStr.isspace c = false)
  ∧ (∀ c init, PyStr.chars r = init ++ [c] → PyStr.isspace c = false)
  ∧ (String.length r ≤ String.length v)%nat
  ∧ (r = ""%string ↔ Forall (λ c, PyStr.isspace c = true) (PyStr.chars v))
  ∧ ((String.length v ≤ 255)%nat → sanitize_string r 255 = r)
  ∧ (r ≠ ""%string → validate_name r = Ok r).
Proof.
  intros (-> & Hne & Hall)%validate_name_Ok.
  set (l := PyStr.chars v) in *. set (N := PyText.normalize_spaces l).
  pose proof (normalize_squeezed l) as Hsq. fold N in Hsq.
  pose proof (split_words l) as Hw.
  assert (Hchars : ∀ c, c ∈ N →
            PyText.is_ascii_letter c = true
            ∨ c = " "%char ∨ c = "-"%char ∨ c = "'"%char).
  { intros c Hc.
    destruct (squeezed_elem _ _ _ Hsq Hc) as [Hl| ->]; [|tauto].
    rewrite Forall_forall in Hall.
    destruct (name_char_cases c (Hall c Hl)) as [?|[Hs|[?|?]]]; try tauto.
    right. left. by apply (join_spaces (PyText.split l)). }
  assert (Hfirst : ∀ c rest, N = c :: rest → PyStr.isspace c = false).
  { intros c rest. by apply join_first. }
  assert (Hlast : ∀ c init, N = init ++ [c] → PyStr.isspace c = false).
  { intros c init. by apply join_last. }
  assert (Hlen : (length N ≤ length l)%nat) by by apply squeezed_length.
  rewrite chars_of_chars.
  split; [exact Hchars|]. split; [exact Hfirst|]. split; [exact Hlast|].
  split; [by rewrite <- !length_chars, chars_of_chars|].
  split; [|split].
  - rewrite <- normalize_nil. fold N. split.
    + intros E. apply (f_equal PyStr.chars) in E.
      by rewrite chars_of_chars in E.
    + by intros ->.
  - intros Hv. apply sanitize_string_id; rewrite ?chars_of_chars; try done.
    + rewrite <- length_chars, chars_of_chars.
      rewrite <- length_chars in Hv. fold l in Hv. lia.
    + intros Hn. by destruct (Hchars _ Hn) as [?|[?|[?|?]]].
  - intros Hr. unfold validate_name. rewrite chars_of_chars.
    change (PyText.normalize_spaces N)
      with (PyText.normalize_spaces (PyText.normalize_spaces l)).
    rewrite normalize_idempotent. fold N.
    assert (HN : N ≠ []) by (by intros E; rewrite E in Hr).
    assert (Hf : forallb name_char N = true).
    { apply forallb_forall. intros c Hc%list_elem_of_In.
      unfold name_char.
      destruct (Hchars c Hc) as [->|[->|[->| ->]]]; done. }
    rewrite Hf. by destruct N.
Qed.

Lemma validate_name_clean_witness :
  validate_name "  Mary-Jane   O'Neil " = Ok "Mary-Jane O'Neil"%string
  ∧ sanitize_string "Mary-Jane O'Neil" 255 = "Mary-Jane O'Neil"%string
  ∧ validate_name "   " = Ok ""%string.
Proof.
  split; [reflexivity|]. split; [|reflexivity].
  refine (proj1 (proj2 (proj2 (proj2 (proj2 (proj2
    (validate_name_clean "  Mary-Jane   O'Neil " "Mary-Jane O'Neil" _))))))
    _).
  - reflexivity.
  - vm_compute. lia.
Defined.

Section ValidateEmail.
Import PyText.

Lemma split_on_app_word sep w : ∀ word l,
  sep ∉ w → split_on sep word (w ++ l) = split_on sep (word ++ w) l.
Proof.
  induction w as [|c w IH]; intros word l Hn; simpl.
  - by rewrite app_nil_r.
  - apply not_elem_of_cons in Hn as [Hc Hn].
    rewrite decide_False by done. rewrite IH by done.
    by rewrite <- app_assoc.
Qed.

Lemma split_on_one_at (loc dom : list ascii) :
  "@"%char ∉ loc → "@"%char ∉ dom →
  split_on "@"%char [] (loc ++ "@"%char :: dom) = [loc; dom].
Proof.
  intros Hl Hd. rewrite split_on_app_word by done. simpl.
  rewrite <- (app_nil_r dom) at 1. rewrite split_on_app_word by done.
  reflexivity.
Qed.

Lemma lower_char_idempotent c :
  PyStr.lower_char (PyStr.lower_char c) = PyStr.lower_char c.
Proof. by destruct c as [[] [] [] [] [] [] [] []]. Qed.

Lemma lower_char_at c : PyStr.lower_char c = "@"%char → c = "@"%char.
Proof. by destruct c as [[] [] [] [] [] [] [] []]. Qed.

Lemma lower_idempotent l : PyStr.lower (PyStr.lower l) = PyStr.lower l.
Proof.
  unfold PyStr.lower. rewrite <- list_fmap_compose.
  apply list_fmap_ext. intros i c _. apply lower_char_idempotent.
Qed.

Lemma lower_no_at l : "@"%char ∉ l → "@"%char ∉ PyStr.lower l.
Proof.
  intros Hn (c & Hc & Hin)%list_elem_of_fmap.
  symmetry in Hc. apply lower_char_at in Hc. by subst c.
Qed.

Lemma lower_app_at l d :
  PyStr.lower (l ++ "@"%char :: d) = PyStr.lower l ++ "@"%char :: PyStr.lower d.
Proof. unfold PyStr.lower. by rewrite fmap_app, fmap_cons. Qed.

End ValidateEmail.

(** X23. For an address with one [@]: [OrderCreate.validate_email_domain]
    rejects it exactly when the part after the [@], lower-cased, is one of
    the three blocked domains, so whatever the case of its letters;
    otherwise it returns the whole address lower-cased, and it accepts that
    result unchanged. *)
Theorem validate_email_domain_one_at (loc dom : list ascii) :
  "@"%char ∉ loc → "@"%char ∉ dom →
  let v := PyStr.of_chars (loc ++ "@"%char :: dom) in
  let lowered := PyStr.of_chars (PyStr.lower (loc ++ "@"%char :: dom)) in
  (PyStr.of_chars (PyStr.lower dom) ∈ blocked_domains →
   validate_email_domain v
   = Raise (ValueError "Disposable email addresses are not allowed"))
  ∧ (PyStr.of_chars (PyStr.lower dom) ∉ blocked_domains →
     validate_email_domain v = Ok lowered
     ∧ validate_email_domain lowered = Ok lowered).
Proof.
  intros Hl Hd v lowered.
  assert (Hv : ∀ l d, "@"%char ∉ l → "@"%char ∉ d →
            validate_email_domain (PyStr.of_chars (l ++ "@"%char :: d))
            = if decide (PyStr.of_chars (PyStr.lower d) ∈ blocked_domains)
              then Raise (ValueError
                     "Disposable email addresses are not allowed")
              else Ok (PyStr.of_chars (PyStr.lower (l ++ "@"%char :: d)))).
  { intros l d Hl' Hd'. unfold validate_email_domain.
    by rewrite chars_of_chars, split_on_one_at. }
  split; intros Hb.
  - subst v. rewrite Hv by done. by rewrite decide_True.
  - split.
    + subst v lowered. rewrite Hv by done. by rewrite decide_False.
    + subst lowered. rewrite lower_app_at.
      rewrite Hv by by apply lower_no_at.
      rewrite lower_idempotent, decide_False by done.
      by rewrite lower_app_at, !lower_idempotent.
Qed.

Lemma validate_email_domain_one_at_witness :
  validate_email_domain "Bob@TempMail.COM"
  = Raise (ValueError "Disposable email addresses are not allowed")
  ∧ validate_email_domain "Bob@Example.ORG" = Ok "bob@example.org"%string.
Proof.
  split.
  - refine (proj1 (validate_email_domain_one_at
                     (PyStr.chars "Bob") (PyStr.chars "TempMail.COM") _ _) _).
    + apply (bool_decide_unpack _). by vm_compute.
    + apply (bool_decide_unpack _). by vm_compute.
    + apply (bool_decide_unpack _). by vm_compute.
  - refine (proj1 (proj2 (validate_email_domain_one_at
                     (PyStr.chars "Bob") (PyStr.chars "Example.ORG") _ _) _)).
    + apply (bool_decide_unpack _). by vm_compute.
    + apply (bool_decide_unpack _). by vm_compute.
    + apply (bool_decide_unpack _). by vm_compute.
Defined.

(** X24. The six sample items that [create_sample_menu_items] inserts (and
    [get_sample_menu_items] returns) satisfy what [MenuItemCreate] asks of
    a menu item: name and category pass [validate_text_fields] unchanged,
    the price passes [validate_price] unchanged, the image URL passes
    [validate_url], and the lengths are within the declared limits. *)
Theorem sample_items_pass_validation :
  Forall (λ '(name, description, price, category, image_url),
            validate_text_fields name = Ok name
            ∧ validate_text_fields category = Ok category
            ∧ validate_price price = Ok price
            ∧ validate_url (Some image_url) = Ok (Some image_url)
            ∧ (1 ≤ String.length name ≤ 255)%nat
            ∧ (1 ≤ String.length description ≤ 1000)%nat
            ∧ (1 ≤ String.length category ≤ 100)%nat
            ∧ (String.length image_url ≤ 500)%nat)
         sample_items.
Proof.
  unfold sample_items.
  repeat (apply Forall_cons; split; [|]); [..|apply Forall_nil].
  all: repeat split; try (vm_compute; reflexivity).
  all: vm_compute; lia.
Qed.

(** One sample item: a fresh identifier, then its INSERT. *)
Ltac insert_step Htx Eu Ei :=
  let Hs := fresh "Hs" in
  apply pg_uuid4_world in Eu as (_ & Hs & _);
  apply (tx_session _ _ _ _ _ Hs) in Htx;
  let sess := fresh "sess" in
  let tb := fresh "tb" in
  let res := fresh "res" in
  let Ho := fresh "Ho" in
  let Hx := fresh "Hx" in
  let Htx' := fresh "Htx" in
  apply pg_execute_tx in Ei as (sess & tb & res & Ho & Hx & Htx' & _);
  rewrite (tx_working _ _ _ _ _ Htx Ho) in Hx;
  cbn [Pg.exec_stmt Pg.menu_items Pg.orders] in Hx;
  match type of Hx with
  | context [Pg.numeric_10_2 ?p] =>
      let n := eval vm_compute in (Pg.numeric_10_2 p) in
      change (Pg.numeric_10_2 p) with n in Hx
  end;
  cbn iota in Hx;
  match type of Hx with
  | context [decide ?P] => destruct (decide P); [discriminate Hx|]
  end;
  injection Hx as <- <-; clear Htx Hs Ho.

(** X25. On the reference driver, when [create_sample_menu_items] returns,
    the committed [menu_items] table holds exactly the six sample items, in
    order, each available, with the name, description, price, category and
    image URL of the sample list: whatever rows the table held before are
    gone. *)
Theorem create_sample_menu_items_stores (s s' : state Pg.World) :
  create_sample_menu_items Pg.driver s = (Ok tt, s') →
  ∃ R, menu_is R (world s') ∧ is_sample_menu R.
Proof.
  intros H. unfold create_sample_menu_items in H. rewrite run_bind in H.
  destruct (get_connection Pg.driver s) as [[conn|e] [w1 m1 t1]]; [|done].
  unfold sample_items in H. cbn [for_each] in H.
  unfold_monad. unfold_prims.
  exec H Pg.driver; try discriminate H.
  apply (f_equal snd) in H. simpl in H. subst s'. simpl in *.
  apply pg_cursor_world in E as (Hcur & _).
  apply pg_execute_tx in E0 as (sess0 & tb0 & res0 & Ho0 & Hx0 & Htx & _).
  simpl in Hx0. destruct (Pg.menu_items (Pg.working sess0)); [|done].
  injection Hx0 as <- <-.
  insert_step Htx E1 E2. insert_step Htx0 E3 E4. insert_step Htx E5 E6.
  insert_step Htx0 E7 E8. insert_step Htx E9 E10. insert_step Htx0 E11 E12.
  rewrite <- Hcur in E13.
  apply (pg_commit_tx _ _ _ _ _ _ Htx) in E13 as [[Hc Hs] _].
  apply pg_cursor_close_world in E14 as ->.
  eexists. split.
  - split; [unfold id in Hc; by rewrite Hc|].
    intros sess' Hs'. specialize (Hs _ Hs'). unfold id in Hs. by rewrite Hs.
  - split; [reflexivity|]. repeat constructor.
Qed.

Lemma create_sample_menu_items_stores_witness :
  let s := Scenario.with_alice_order in
  let run := create_sample_menu_items Pg.driver s in
  ∃ R, menu_is R (world run.2) ∧ is_sample_menu R.
Proof.
  intros s run.
  refine (create_sample_menu_items_stores s run.2 _).
  vm_compute. reflexivity.
Defined.

(** X26. In a run of [create_order] whose arguments pass the checks and
    that has its connection and cursor, on any driver: the INSERT is
    executed at most once; every call that raises is followed by a
    rollback; when the run returns an order, nothing raised, no rollback
    was issued, the INSERT was executed once and the last two calls are the
    commit and the closing of the cursor; when it raises, the rollback was
    issued. *)
Theorem create_order_commits_or_rolls_back {W} (D : Driver W)
    (name email : string) (items : list ItemDict.t) (total : Q)
    (s s1 s2 s' : state W) (conn : conn) (cur : cursor)
    (r : result Order.t) :
  order_input_valid name email items total →
  get_connection D s = (Ok conn, s1) →
  conn_cursor D conn s1 = (Ok cur, s2) →
  create_order D name email items total s = (r, s') →
  let body := calls (events_between s2 s') in
  (length (List.filter is_insert_order body) ≤ 1)%nat
  ∧ (existsb raised (events_between s2 s') = true → Rollback conn ∈ body)
  ∧ match r with
    | Ok _ =>
        (existsb raised (events_between s2 s') = false)
        ∧ (Rollback conn ∉ body)
        ∧ length (List.filter is_insert_order body) = 1%nat
        ∧ drop (length body - 2) body = [Commit conn; CursorClose cur]
    | Raise _ => Rollback conn ∈ body
    end.
Proof.
  intros Hvalid Hgc Hcur H.
  destruct s1 as [w1 m1 t1]. unfold conn_cursor, prim in Hcur. norm.
  destruct (drv_cursor D conn w1) as [[cur'|e] w2] eqn:Hcur'; [|done].
  injection Hcur as -> <-.
  remember (t1 ++ [(Cursor conn, RCursor cur)]) as t2 eqn:Ht2.
  unfold create_order in H.
  destruct Hvalid as (Hn & He & Hi & H0 & H1).
  rewrite decide_False in H by tauto.
  rewrite decide_False in H by (by destruct items).
  assert (Qle_bool total 0 = false) as Hq0.
  { apply not_true_is_false. intros Hq%Qle_bool_iff. by apply Qle_not_lt in Hq. }
  apply Qle_bool_iff in H1. rewrite Hq0, H1 in H. simpl in H.
  rewrite run_bind, Hgc in H. unfold_monad. unfold_prims. norm.
  rewrite Hcur', <- Ht2 in H. clear Hgc Hcur' Ht2.
  unfold row_count, order_of_row in H.
  exec_rows H D.
  all: injection H as <- <-; simpl_events.
  all: cbn [calls map fst existsb raised snd orb List.filter is_insert_order
            length app].
  all: split; [lia|].
  all: split; [try done; intros _; set_solver|].
  all: try set_solver.
  all: split; [done|]. 
  all: split; [set_solver|].
  all: split; reflexivity.
Qed.

Lemma create_order_commits_or_rolls_back_witness :
  let s := Scenario.initialized in
  let s1 := (get_connection Pg.driver s).2 in
  let cur := {| cursor_connection := 1%nat; cursor_serial := 4%nat |} in
  let s2 := (conn_cursor Pg.driver 1%nat s1).2 in
  let run := create_order Pg.driver "Alice Smith" "alice@example.org"
               Scenario.bob_items 9.99%Q s in
  let body := calls (events_between s2 run.2) in
  length (List.filter is_insert_order body) = 1%nat
  ∧ drop (length body - 2) body = [Commit 1%nat; CursorClose cur].
Proof.
  intros s s1 cur s2 run body.
  pose (o := match run.1 with
             | Ok o => o
             | Raise _ => {| Order.id := ""; Order.customer_name := "";
                             Order.customer_email := ""; Order.items := [];
                             Order.total_amount := 0; Order.status := "";
                             Order.created_at := None |}
             end).
  refine (proj2 (proj2 (proj2 (proj2
    (create_order_commits_or_rolls_back Pg.driver "Alice Smith"
       "alice@example.org" Scenario.bob_items 9.99%Q s s1 s2 run.2
       1%nat cur (Ok o) _ _ _ _))))).
  - repeat split; by vm_compute.
  - vm_compute. reflexivity.
  - vm_compute. reflexivity.
  - vm_compute. reflexivity.
Defined.
